(** * what_day_is_it_today: a shallow embedding of [src/main.ts]

    The script fetches "what happened today" facts from three sources,
    parses wiki markup and HTML with regular expressions, samples and
    sorts the records and posts a digest to a Slack webhook.

    JavaScript strings are sequences of UTF-16 code units, and [length],
    [slice], [includes] and the regular expressions (none carries the [u]
    flag) all count code units.  A string is therefore a [list N] of code
    units here.  The regular expressions of the source are kept as syntax
    trees and run by one backtracking matcher that follows the order in
    which the ECMAScript matcher explores alternatives. *)

From Stdlib Require Import ZArith NArith Ascii String Lia.
From Stdlib Require Import Sorting.Sorted Sorting.Permutation.
From stdpp Require Import gmap list.

Local Open Scope N_scope.

(** ** Strings as UTF-16 code units *)

Definition char := N.
Definition str := list char.

Fixpoint bytes_of (s : string) : list N :=
  match s with
  | EmptyString => []
  | String a t => N_of_ascii a :: bytes_of t
  end.

Definition tail6 (b : N) : N := N.land b 63.

(** UTF-8 decoding of the bytes of a literal of this file. *)
Fixpoint code_points (fuel : nat) (bs : list N) : list N :=
  match fuel with
  | O => []
  | S f =>
    match bs with
    | [] => []
    | b0 :: t =>
      if b0 <? 128 then b0 :: code_points f t
      else if b0 <? 224 then
        match t with
        | b1 :: t' => (N.land b0 31 * 64 + tail6 b1) :: code_points f t'
        | _ => []
        end
      else if b0 <? 240 then
        match t with
        | b1 :: b2 :: t' =>
            ((N.land b0 15 * 64 + tail6 b1) * 64 + tail6 b2) :: code_points f t'
        | _ => []
        end
      else
        match t with
        | b1 :: b2 :: b3 :: t' =>
            (((N.land b0 7 * 64 + tail6 b1) * 64 + tail6 b2) * 64 + tail6 b3)
              :: code_points f t'
        | _ => []
        end
    end
  end.

(** A code point above the basic plane is a surrogate pair. *)
Definition utf16_units (cp : N) : list N :=
  if cp <? 65536 then [cp]
  else [55296 + (cp - 65536) / 1024; 56320 + (cp - 65536) mod 1024].

(** [u "..."] is the JavaScript string written by that literal. *)
Definition u (s : string) : str :=
  flat_map utf16_units (code_points (String.length s) (bytes_of s)).

Definition ch (a : ascii) : char := N_of_ascii a.

Definition str_eqb (a b : str) : bool := bool_decide (a = b).

(** [s.includes(sub)] *)
Fixpoint prefix_of (p s : str) : bool :=
  match p, s with
  | [], _ => true
  | x :: p', y :: s' => (x =? y) && prefix_of p' s'
  | _ :: _, [] => false
  end.

Fixpoint includes (sub s : str) : bool :=
  prefix_of sub s ||
  match s with
  | [] => false
  | _ :: t => includes sub t
  end.

(** [\s] of ECMAScript, which is also the set [trim] removes: WhiteSpace
    and LineTerminator code points. *)
Definition is_space (c : char) : bool :=
  ((9 <=? c) && (c <=? 13)) || (c =? 32) || (c =? 160) || (c =? 5760)
  || ((8192 <=? c) && (c <=? 8202)) || (c =? 8232) || (c =? 8233)
  || (c =? 8239) || (c =? 8287) || (c =? 12288) || (c =? 65279).

Definition is_digit (c : char) : bool := (48 <=? c) && (c <=? 57).

(** Line terminators, which [.] does not match. *)
Definition is_line_end (c : char) : bool :=
  (c =? 10) || (c =? 13) || (c =? 8232) || (c =? 8233).

Fixpoint drop_while (p : char -> bool) (s : str) : str :=
  match s with
  | c :: t => if p c then drop_while p t else s
  | [] => []
  end.

(** [s.trim()] *)
Definition trim (s : str) : str :=
  rev (drop_while is_space (rev (drop_while is_space s))).

(** [s.split(c)] for a one-character separator. *)
Fixpoint split_on (c : char) (s : str) : list str :=
  match s with
  | [] => [[]]
  | x :: t =>
    if x =? c then [] :: split_on c t
    else match split_on c t with
         | l :: ls => (x :: l) :: ls
         | [] => [[x]]
         end
  end.

(** ** Regular expressions *)

Module Regex.

Inductive cclass :=
| CAny                        (* [\s\S] *)
| CDot                        (* .      *)
| CSpace                      (* \s     *)
| CDigit                      (* \d     *)
| CNoneOf (l : list char)     (* [^...] *)
| CSpaceOr (l : list char).   (* [\s...] *)

Definition mem (l : list char) (c : char) : bool := existsb (N.eqb c) l.

Definition cls_mem (k : cclass) (c : char) : bool :=
  match k with
  | CAny => true
  | CDot => negb (is_line_end c)
  | CSpace => is_space c
  | CDigit => is_digit c
  | CNoneOf l => negb (mem l c)
  | CSpaceOr l => is_space c || mem l c
  end.

Inductive regex :=
| Eps
| Lit (c : char)
| Cls (k : cclass)
| Seq (r1 r2 : regex)
| Alt (r1 r2 : regex)
| Star (greedy : bool) (r : regex)
| Group (i : nat) (r : regex)      (* capturing parentheses number i *)
| Ahead (r : regex)                (* (?=r) *)
| Bol                              (* ^ without the m flag *)
| Eol.                             (* $ without the m flag *)

(** Derived forms. *)
Definition cat (rs : list regex) : regex := foldr Seq Eps rs.
Definition lit (s : str) : regex := cat (map Lit s).
Definition plus (g : bool) (r : regex) : regex := Seq r (Star g r).
Definition opt (r : regex) : regex := Alt r Eps.

(** The matcher state: the index in the input, the input from there on, and
    the captures made so far (latest first). *)
Record mstate := MState {
  m_pos : nat;
  m_rest : str;
  m_caps : list (nat * str)
}.

Definition cap (i : nat) (st : mstate) : option str :=
  snd <$> List.find (fun p => Nat.eqb (fst p) i) (m_caps st).

Definition set_cap (i : nat) (s : str) (st : mstate) : mstate :=
  MState (m_pos st) (m_rest st) ((i, s) :: m_caps st).

Definition step (p : char -> bool) (k : mstate -> option mstate)
    (st : mstate) : option mstate :=
  match m_rest st with
  | c :: t => if p c then k (MState (S (m_pos st)) t (m_caps st)) else None
  | [] => None
  end.

Definition orelse (a : option mstate) (b : unit -> option mstate) :=
  match a with
  | Some x => Some x
  | None => b tt
  end.

(** The iterations of [r*] (greedy) or [r*?] (lazy), where [body] matches
    [r]: an iteration that consumes nothing is rejected, as in the
    RepeatMatcher of ECMAScript, so that [n], one more than the remaining
    input, is never exhausted. *)
Fixpoint star_loop (g : bool)
    (body : (mstate -> option mstate) -> mstate -> option mstate)
    (k : mstate -> option mstate) (n : nat) (st : mstate) : option mstate :=
  match n with
  | O => k st
  | S n' =>
    let again := fun _ : unit =>
      body (fun st' =>
        if (m_pos st <? m_pos st')%nat then star_loop g body k n' st'
        else None) st in
    if g then orelse (again tt) (fun _ => k st)
    else orelse (k st) again
  end.

(** Backtracking matcher in continuation-passing style.  [rmatch r k st]
    tries the ways [r] can match at [st] in the order of the ECMAScript
    matcher and returns the first one whose continuation [k] succeeds.  No
    regex of the program has a capture under [*] or [+], so the reset of
    captures at each iteration has nothing to do. *)
Fixpoint rmatch (r : regex) (k : mstate -> option mstate) (st : mstate)
    {struct r} : option mstate :=
  match r with
  | Eps => k st
  | Lit c => step (N.eqb c) k st
  | Cls cc => step (cls_mem cc) k st
  | Seq r1 r2 => rmatch r1 (rmatch r2 k) st
  | Alt r1 r2 => orelse (rmatch r1 k st) (fun _ => rmatch r2 k st)
  | Star g r1 => star_loop g (rmatch r1) k (S (length (m_rest st))) st
  | Group i r1 =>
      rmatch r1 (fun st' =>
        k (set_cap i (take (m_pos st' - m_pos st) (m_rest st)) st')) st
  | Ahead r1 =>
      match rmatch r1 Some st with
      | Some st' => k (MState (m_pos st) (m_rest st) (m_caps st'))
      | None => None
      end
  | Bol => if (m_pos st =? 0)%nat then k st else None
  | Eol => match m_rest st with [] => k st | _ :: _ => None end
  end.

(** One attempt at index [pos], where the input continues with [s]. *)
Definition match_at (r : regex) (pos : nat) (s : str) : option mstate :=
  rmatch r Some (MState pos s []).

(** [s.match(r)] for a regex without the g flag: the leftmost match, as the
    pair of its index and final matcher state. *)
Fixpoint search_from (r : regex) (pos : nat) (s : str) : option (nat * mstate) :=
  match match_at r pos s with
  | Some st => Some (pos, st)
  | None =>
    match s with
    | [] => None
    | _ :: t => search_from r (S pos) t
    end
  end.

Definition search (r : regex) (s : str) : option mstate :=
  snd <$> search_from r 0 s.

(** [match[i]] read the way the source reads it: missing and empty are both
    falsy, so both are the empty string here. *)
Definition group (i : nat) (st : mstate) : str := default [] (cap i st).

(** Replacement templates: literal text and [$n]. *)
Inductive ritem := RText (s : str) | RGroup (i : nat).

Definition expand (tpl : list ritem) (st : mstate) : str :=
  flat_map (fun it => match it with
                      | RText s => s
                      | RGroup i => group i st
                      end) tpl.

(** [s.replace(r, tpl)] for a regex with the g flag: matches are taken left
    to right, each search resuming where the previous match ended (one
    further after an empty match). *)
Fixpoint replace_from (fuel : nat) (r : regex) (tpl : list ritem)
    (pos : nat) (s : str) : str :=
  match fuel with
  | O => s
  | S f =>
    match match_at r pos s with
    | Some st =>
      if (pos <? m_pos st)%nat
      then expand tpl st ++ replace_from f r tpl (m_pos st) (m_rest st)
      else expand tpl st ++
           match s with
           | [] => []
           | c :: t => c :: replace_from f r tpl (S pos) t
           end
    | None =>
      match s with
      | [] => []
      | c :: t => c :: replace_from f r tpl (S pos) t
      end
    end
  end.

Definition replace_all (r : regex) (tpl : list ritem) (s : str) : str :=
  replace_from (S (length s)) r tpl 0 s.

(** [s.replace(r, tpl)] for a regex without the g flag: the first match
    only. *)
Definition replace_first (r : regex) (tpl : list ritem) (s : str) : str :=
  match search_from r 0 s with
  | Some (i, st) => take i s ++ expand tpl st ++ m_rest st
  | None => s
  end.

End Regex.

Import Regex.

Definition nl : str := [10].

(** [${n}] for a non-negative integer. *)
Fixpoint decimal_go (fuel n : nat) (acc : str) : str :=
  match fuel with
  | O => acc
  | S f =>
    let acc' := (48 + N.of_nat (n mod 10)) :: acc in
    if (n / 10 =? 0)%nat then acc' else decimal_go f (n / 10) acc'
  end.

Definition decimal (n : nat) : str := decimal_go (S n) n [].

(** [String(n).padStart(2, '0')] *)
Definition pad2 (n : nat) : str :=
  let d := decimal n in
  if (length d <? 2)%nat then ch "0" :: d else d.

(** ** Numbers

    The numbers of the program are doubles.  Those it computes with are
    integers, the infinities and NaN; a finite one is kept as the integer
    it is.  The sign of zero is not kept: the program subtracts numbers
    and hands the difference to [sort], and neither tells [-0] from
    [+0]. *)
Inductive number :=
| Num (z : Z)
| Inf (negative : bool)
| NaN.

#[global] Instance number_eq_dec : EqDecision number.
Proof. solve_decision. Defined.

(** The double nearest to an integer that is not negative: 53 bits are
    kept, a tie goes to the even neighbour, and from 2^1024 - 2^970 on
    the result is [Infinity]. *)
Definition round_pos (z : Z) : number :=
  let n := Z.log2 z in
  if (n <? 53)%Z then Num z
  else
    let e := (n - 52)%Z in
    let q := (z / 2 ^ e)%Z in
    let r := (z mod 2 ^ e)%Z in
    let half := (2 ^ (e - 1))%Z in
    let q' :=
      if (half <? r)%Z || ((r =? half)%Z && Z.odd q) then (q + 1)%Z else q in
    let v := (q' * 2 ^ e)%Z in
    if (2 ^ 1024 <=? v)%Z then Inf false else Num v.

(** [-a] *)
Definition nneg (a : number) : number :=
  match a with
  | Num z => Num (- z)
  | Inf s => Inf (negb s)
  | NaN => NaN
  end.

(** The double nearest to an integer. *)
Definition to_number (z : Z) : number :=
  if (z <? 0)%Z then nneg (round_pos (- z)) else round_pos z.

(** [a - b]: the double nearest to the difference. *)
Definition nsub (a b : number) : number :=
  match a, b with
  | Num x, Num y => to_number (x - y)
  | Num _, Inf s => Inf (negb s)
  | Inf s, Num _ => Inf s
  | Inf s, Inf s' => if Bool.eqb s s' then NaN else Inf s
  | _, _ => NaN
  end.

(** How [sort] reads what its comparator returns: NaN counts as 0, and
    the first argument goes after the second when the value is
    positive. *)
Definition le_zero (v : number) : bool :=
  match v with
  | Num z => (z <=? 0)%Z
  | Inf s => s
  | NaN => true
  end.

(** [a <= b] *)
Definition nleb (a b : number) : bool :=
  match a, b with
  | NaN, _ | _, NaN => false
  | Inf true, _ => true
  | _, Inf false => true
  | Num x, Num y => (x <=? y)%Z
  | _, _ => false
  end.

(** [parseInt(s)] on a string without sign, prefix or leading white space
    (the source applies it to captures of [\d+] only): the double nearest
    to the integer the leading digits denote, and NaN when there is no
    digit.  ECMAScript allows an implementation to read the digits after
    the twentieth as zeros; the integer itself is rounded here, as V8
    does. *)
Definition digit_val (c : char) : Z := Z.of_N (c - 48).

Fixpoint take_digits (s : str) : str :=
  match s with
  | c :: t => if is_digit c then c :: take_digits t else []
  | [] => []
  end.

(** The integer the leading digits denote. *)
Definition mathInt (s : str) : Z :=
  fold_left (fun acc c => (10 * acc + digit_val c)%Z) (take_digits s) 0%Z.

Definition parseInt (s : str) : number :=
  match take_digits s with
  | [] => NaN
  | _ :: _ => to_number (mathInt s)
  end.

(** ** Text Cleaner

    [cleanWikiText] (main.ts 436-445); the [cleanText] helper of
    [parseTodayInfo] (main.ts 99-108) is the same chain of replacements,
    character for character. *)
Module Cleaner.

(* /\[\[([^\]|]+)\|([^\]]+)\]\]/g *)
Definition pipedLinkRe : regex :=
  cat [lit (u "[["); Group 1 (plus true (Cls (CNoneOf [ch "]"; ch "|"])));
       Lit (ch "|"); Group 2 (plus true (Cls (CNoneOf [ch "]"])));
       lit (u "]]")].

(* /\[\[([^\]]+)\]\]/g *)
Definition bareLinkRe : regex :=
  cat [lit (u "[["); Group 1 (plus true (Cls (CNoneOf [ch "]"])));
       lit (u "]]")].

(* /\{\{[^}]+\}\}/g *)
Definition templateRe : regex :=
  cat [lit (u "{{"); plus true (Cls (CNoneOf [ch "}"])); lit (u "}}")].

(* /<[^>]+>/g *)
Definition tagRe : regex :=
  cat [Lit (ch "<"); plus true (Cls (CNoneOf [ch ">"])); Lit (ch ">")].

(* /\([^)]*\*[^)]*\)/g *)
Definition asideRe : regex :=
  cat [Lit (ch "("); Star true (Cls (CNoneOf [ch ")"])); Lit (ch "*");
       Star true (Cls (CNoneOf [ch ")"])); Lit (ch ")")].

(* /^[\s-]+|[\s-]+$/g *)
Definition edgeRe : regex :=
  Alt (cat [Bol; plus true (Cls (CSpaceOr [ch "-"]))])
      (cat [plus true (Cls (CSpaceOr [ch "-"])); Eol]).

Definition cleanWikiText (text : str) : str :=
  let t1 := replace_all pipedLinkRe [RGroup 2] text in
  let t2 := replace_all bareLinkRe [RGroup 1] t1 in
  let t3 := replace_all templateRe [] t2 in
  let t4 := replace_all tagRe [] t3 in
  let t5 := replace_all asideRe [] t4 in
  let t6 := replace_all edgeRe [] t5 in
  trim t6.

Definition cleanText : str -> str := cleanWikiText.

End Cleaner.

(** ** Wiki Content Parser *)
Module WikiParser.
Import Cleaner.

(* (?=== [^=]|$) *)
Definition nextHeading : regex :=
  Ahead (Alt (cat [lit (u "== "); Cls (CNoneOf [ch "="])]) Eol).

(* /== できごと ==([\s\S]*?)(?=== [^=]|$)/ *)
Definition eventsSectionRe : regex :=
  cat [lit (u "== できごと =="); Group 1 (Star false (Cls CAny)); nextHeading].

(* /== 誕生(?:日)? ==([\s\S]*?)(?=== [^=]|$)/ *)
Definition birthsSectionRe : regex :=
  cat [lit (u "== 誕生"); opt (lit (u "日")); lit (u " ==");
       Group 1 (Star false (Cls CAny)); nextHeading].

(* /== 忌日 ==([\s\S]*?)(?=== [^=]|$)/ *)
Definition deathsSectionRe : regex :=
  cat [lit (u "== 忌日 =="); Group 1 (Star false (Cls CAny)); nextHeading].

(* /=== 人物 ===([\s\S]*?)(?:=== |$)/ *)
Definition personSectionRe : regex :=
  cat [lit (u "=== 人物 ==="); Group 1 (Star false (Cls CAny));
       Alt (lit (u "=== ")) Eol].

(* ^\*\s*(?:\[\[)? *)
Definition bulletRe : regex :=
  cat [Bol; Lit (ch "*"); Star true (Cls CSpace); opt (lit (u "[["))].

(* (?:\]\])?\s*-?\s* *)
Definition dashRe : regex :=
  cat [opt (lit (u "]]")); Star true (Cls CSpace); opt (Lit (ch "-"));
       Star true (Cls CSpace)].

(* \d+年? *)
Definition yearRe : regex :=
  cat [plus true (Cls CDigit); opt (lit (u "年"))].

(* /^\*\s*(?:\[\[)?(紀元前?\d+年?|\d+年?)(?:\]\])?\s*-?\s*(.+?)(?:\.\s*$|$)/ *)
Definition eventLineRe : regex :=
  cat [bulletRe;
       Group 1 (Alt (cat [lit (u "紀元"); opt (lit (u "前")); yearRe]) yearRe);
       dashRe;
       Group 2 (plus false (Cls CDot));
       Alt (cat [Lit (ch "."); Star true (Cls CSpace); Eol]) Eol].

(* (.+?)(?:、(.+?))? *)
Definition personRe : regex :=
  cat [Group 2 (plus false (Cls CDot));
       opt (cat [lit (u "、"); Group 3 (plus false (Cls CDot))])].

(* /^\*\s*(?:\[\[)?(\d+年?)(?:\]\])?\s*-?\s*(.+?)(?:、(.+?))?(?:\(\+|（\+|$)/ *)
Definition birthLineRe : regex :=
  cat [bulletRe; Group 1 yearRe; dashRe; personRe;
       Alt (lit (u "(+")) (Alt (lit (u "（+")) Eol)].

(* /^\*\s*(?:\[\[)?(\d+年?)(?:\]\])?\s*-?\s*(.+?)(?:、(.+?))?(?:\(\*|（\*|$)/ *)
Definition deathLineRe : regex :=
  cat [bulletRe; Group 1 yearRe; dashRe; personRe;
       Alt (lit (u "(*")) (Alt (lit (u "（*")) Eol)].

(** The test of main.ts 459-463 (and 122-126) on the cleaned event text. *)
Definition eventKept (event : str) : bool :=
  negb (str_eqb event []) &&
  negb (includes (u "Image:") event) &&
  negb (includes (u "File:") event) &&
  negb (includes (u "multiple image") event) &&
  negb (includes (u "{{") event) &&
  (10 <? length event)%nat && (length event <? 150)%nat.

(** The test of main.ts 481 (and 144, 166) on the cleaned person name. *)
Definition personKept (person : str) : bool :=
  negb (str_eqb person []) &&
  (1 <? length person)%nat && (length person <? 50)%nat.

(** The body of the loop over the event lines: what the line pushes. *)
Definition eventRecord (line : str) : option str :=
  match search eventLineRe line with
  | Some m =>
    if str_eqb (group 2 m) [] then None
    else
      let year := group 1 m in
      let event := cleanWikiText (group 2 m) in
      if eventKept event then Some (year ++ u ": " ++ event) else None
  | None => None
  end.

(** The body of the loops over birth and death lines. *)
Definition personRecord (lineRe : regex) (line : str) : option str :=
  match search lineRe line with
  | Some m =>
    if str_eqb (group 2 m) [] then None
    else
      let year := group 1 m in
      let person := cleanWikiText (group 2 m) in
      let occupation :=
        if str_eqb (group 3 m) [] then [] else cleanWikiText (group 3 m) in
      if personKept person then
        let personInfo :=
          if str_eqb occupation [] then person
          else person ++ u "（" ++ occupation ++ u "）" in
        Some (year ++ u ": " ++ personInfo)
      else None
  | None => None
  end.

Definition birthRecord : str -> option str := personRecord birthLineRe.
Definition deathRecord : str -> option str := personRecord deathLineRe.

(** The lines of a section, when the page has it. *)
Definition sectionLines (sectionRe : regex) (content : str) : list str :=
  match search sectionRe content with
  | Some m => split_on 10 (group 1 m)
  | None => []
  end.

Record WikiInfo := { wi_historical : list str; wi_births : list str }.

(** main.ts 432-493.  Nothing inside its [try] can throw. *)
Definition parseWikipediaContent (content : str) : WikiInfo :=
  {| wi_historical := omap eventRecord (sectionLines eventsSectionRe content);
     wi_births := omap birthRecord (sectionLines birthsSectionRe content) |}.

(** The earlier revision of the parser (main.ts 90-176), which also reads
    the deaths. *)
Record TodayInfo0 := {
  ti_date : str;
  ti_events : list str;
  ti_births : list str;
  ti_deaths : list str
}.

Definition deathLines (content : str) : list str :=
  match search deathsSectionRe content with
  | Some deathsMatch =>
    match search personSectionRe (group 1 deathsMatch) with
    | Some personSection => split_on 10 (group 1 personSection)
    | None => split_on 10 (group 1 deathsMatch)
    end
  | None => []
  end.

Definition parseTodayInfo (date content : str) : TodayInfo0 :=
  {| ti_date := date;
     ti_events := omap eventRecord (sectionLines eventsSectionRe content);
     ti_births := omap birthRecord (sectionLines birthsSectionRe content);
     ti_deaths := omap deathRecord (deathLines content) |}.

End WikiParser.

(** ** External HTML Parser (main.ts 587-628) *)
Module PhpParser.

(* /<!--[\s\S]*?-->/g *)
Definition commentRe : regex :=
  cat [lit (u "<!--"); Star false (Cls CAny); lit (u "-->")].

(* /<!--[\s\S]*/g *)
Definition openCommentRe : regex := cat [lit (u "<!--"); Star true (Cls CAny)].

Definition cleanText (text : str) : str :=
  let t1 := replace_all commentRe [] text in
  let t2 := replace_all openCommentRe [] t1 in
  let t3 := replace_all (lit (u "-->")) [] t2 in
  let t4 := replace_all Cleaner.tagRe [] t3 in
  let t5 := replace_all (lit (u "&nbsp;")) [RText (u " ")] t4 in
  let t6 := replace_all (lit (u "&amp;")) [RText (u "&")] t5 in
  let t7 := replace_all (lit (u "&lt;")) [RText (u "<")] t6 in
  let t8 := replace_all (lit (u "&gt;")) [RText (u ">")] t7 in
  let t9 := replace_all (lit (u "&quot;")) [RText [34]] t8 in
  trim t9.

(* /記念日・行事・お祭り[\s\S]*?●([\s\S]*?)(?=歴史上の出来事|今日の誕生日|$)/ *)
Definition eventsRegex : regex :=
  cat [lit (u "記念日・行事・お祭り"); Star false (Cls CAny); lit (u "●");
       Group 1 (Star false (Cls CAny));
       Ahead (Alt (lit (u "歴史上の出来事")) (Alt (lit (u "今日の誕生日")) Eol))].

(* /^●\s*/ *)
Definition leadingBulletRe : regex :=
  cat [Bol; lit (u "●"); Star true (Cls CSpace)].

(** The body of the loop over the items: what the item pushes. *)
Definition itemRecord (item : str) : option str :=
  let item := trim (replace_first leadingBulletRe [] item) in
  if (0 <? length item)%nat && (length item <? 100)%nat then Some item
  else None.

(** The date argument is not used by the source either. *)
Definition parsePhpTodayInfo (date htmlContent : str) : list str :=
  match search eventsRegex htmlContent with
  | Some eventsMatch =>
    let eventsText := cleanText (group 1 eventsMatch) in
    let eventItems :=
      List.filter (fun item => (0 <? length (trim item))%nat)
                  (split_on (ch ",") eventsText) in
    omap itemRecord eventItems
  | None => []
  end.

End PhpParser.

(** ** Sampling and Ordering Engine

    Arrays are objects: [getRandomItems] may return its argument itself,
    and [sortByYear] sorts in place and returns its argument.  They run on
    a store of arrays, so that what is mutated and what is shared shows. *)
Module Sampling.

Definition loc := nat.

Section Arrays.
Context {T : Type}.

(** The array a reference points to. *)
Definition arr (h : gmap loc (list T)) (a : loc) : list T :=
  default [] (h !! a).

(** A new array object. *)
Definition alloc (l : list T) (h : gmap loc (list T))
    : loc * gmap loc (list T) :=
  let a := fresh (dom h) in (a, <[a := l]> h).

(** [[l[i], l[j]] = [l[j], l[i]]], for indices inside the array (the only
    ones the shuffle produces; JavaScript would grow the array
    otherwise). *)
Definition swap (l : list T) (i j : nat) : list T :=
  match l !! i, l !! j with
  | Some x, Some y => <[j := x]> (<[i := y]> l)
  | _, _ => l
  end.

(** [for (let i = ...; i > 0; i--)] of main.ts 504-507, entered with [i];
    [J i] is the value of [Math.floor(Math.random() * (i + 1))] in the
    iteration for [i], an integer between [0] and [i]. *)
Fixpoint shuffle_loop (J : nat -> nat) (i : nat) (shuffled : loc)
    (h : gmap loc (list T)) : gmap loc (list T) :=
  match i with
  | O => h
  | S i' =>
    shuffle_loop J i' shuffled
      (<[shuffled := swap (arr h shuffled) i (J i)]> h)
  end.

(** main.ts 498-510.  [count] is a number of elements (both calls pass
    5). *)
Definition getRandomItems (J : nat -> nat) (array : loc) (count : nat)
    (h : gmap loc (list T)) : loc * gmap loc (list T) :=
  if (length (arr h array) <=? count)%nat then (array, h)
  else
    let '(shuffled, h1) := alloc (arr h array) h in
    let h2 := shuffle_loop J (length (arr h1 shuffled) - 1) shuffled h1 in
    alloc (take count (arr h2 shuffled)) h2.

(** [Array.prototype.sort(cmp)]: the sort is stable, and the comparators of
    the program compare keys, so the result is the stable arrangement by
    the sign of [cmp], whichever algorithm the engine runs.  It is
    computed here by insertion. *)
Fixpoint insert_by (cmp : T -> T -> number) (x : T) (l : list T) : list T :=
  match l with
  | [] => [x]
  | y :: l' =>
    if le_zero (cmp x y) then x :: y :: l' else y :: insert_by cmp x l'
  end.

Fixpoint sort_by (cmp : T -> T -> number) (l : list T) : list T :=
  match l with
  | [] => []
  | x :: l' => insert_by cmp x (sort_by cmp l')
  end.

End Arrays.

(* /^紀元前(\d+)年?:/ *)
Definition bcRe : regex :=
  cat [Bol; lit (u "紀元前"); Group 1 (plus true (Cls CDigit));
       opt (lit (u "年")); Lit (ch ":")].

(* /^(\d+)年?:/ *)
Definition adRe : regex :=
  cat [Bol; Group 1 (plus true (Cls CDigit)); opt (lit (u "年"));
       Lit (ch ":")].

(** main.ts 519-531 *)
Definition extractYear (item : str) : number :=
  match search bcRe item with
  | Some bcMatch => nneg (parseInt (group 1 bcMatch))
  | None =>
    match search adRe item with
    | Some adMatch => parseInt (group 1 adMatch)
    | None => Num 0
    end
  end.

(** The comparator of main.ts 533-537. *)
Definition compareYears (a b : str) : number :=
  nsub (extractYear a) (extractYear b).

(** main.ts 516-538: sorts the array in place and returns it. *)
Definition sortByYear (items : loc) (h : gmap loc (list str))
    : loc * gmap loc (list str) :=
  (items, <[items := sort_by compareYears (arr h items)]> h).

End Sampling.

(** ** Aggregator, Presenter and the entry point *)
Module Bot.
Import WikiParser Sampling.

(** What a call to a collaborator does: it returns, or it throws an
    exception, kept as the text [${error}] renders. *)
Inductive outcome (A : Type) :=
| Returns (a : A)
| Throws (e : str).
Arguments Returns {A} a.
Arguments Throws {A} e.

(** The parsed answer of the wiki endpoint, by the cases
    [fetchWikipediaInfo] tells apart (main.ts 399-420). *)
Inductive wiki_page :=
| PageMissing                   (* pageKey === '-1', or no revisions *)
| PageSlots (content : str)     (* revision.slots.main['*'] *)
| PageLegacy (content : str)    (* revision['*'] *)
| PageBare.                     (* neither shape *)

(** The collaborators of one run. *)
Record World := {
  w_month : nat;                        (* today.getMonth() + 1 *)
  w_day : nat;                          (* today.getDate() *)
  w_php : outcome str;                  (* fetch and getContentText of the PHP page *)
  w_wiki : outcome wiki_page;           (* fetch and JSON.parse of the wiki answer *)
  w_flower : outcome (option str);      (* fetch and JSON.parse; the data.flower field *)
  w_webhook : option str;               (* the SLACK_WEBHOOK_URL property *)
  w_slack : nat -> outcome (nat * str); (* response code and text of the n-th post *)
  w_rand1 : nat -> nat;                 (* Math.random in the first getRandomItems *)
  w_rand2 : nat -> nat                  (* Math.random in the second *)
}.

Record TodayInfo := {
  date : str;
  events : list str;
  historical : list str;
  births : list str;
  birthFlower : option str
}.

(** main.ts 344-349 *)
Definition getTodayDateString (w : World) : str :=
  pad2 (w_month w) ++ u "-" ++ pad2 (w_day w).

(** main.ts 354-359 *)
Definition getTodayDisplayString (w : World) : str :=
  decimal (w_month w) ++ u "月" ++ decimal (w_day w) ++ u "日".

(** A string is truthy when it is not empty. *)
Definition truthy (o : option str) : option str :=
  match o with
  | Some (c :: s) => Some (c :: s)
  | _ => None
  end.

(** main.ts 364-384: [null] is [None]. *)
Definition fetchBirthFlower (w : World) : option str :=
  match w_flower w with
  | Returns flower => truthy flower
  | Throws _ => None
  end.

Definition noWikiInfo : WikiInfo := {| wi_historical := []; wi_births := [] |}.

(** main.ts 389-427 *)
Definition fetchWikipediaInfo (w : World) : WikiInfo :=
  match w_wiki w with
  | Returns PageMissing => noWikiInfo
  | Returns (PageSlots content) => parseWikipediaContent content
  | Returns (PageLegacy content) =>
      match content with
      | [] => noWikiInfo
      | _ :: _ => parseWikipediaContent content
      end
  | Returns PageBare => noWikiInfo
  | Throws _ => noWikiInfo
  end.

(** main.ts 543-582: [null] is [None].  The two arrays of the wiki parser
    are objects of the store; the digest holds what the arrays it refers to
    contain when it is returned. *)
Definition fetchTodayInfo (w : World) : option TodayInfo :=
  let displayString := getTodayDisplayString w in
  match w_php w with
  | Throws _ => None
  | Returns htmlContent =>
    let phpInfo := PhpParser.parsePhpTodayInfo displayString htmlContent in
    let wikiInfo := fetchWikipediaInfo w in
    let birthFlower := fetchBirthFlower w in
    let '(wikiHistorical, h) := alloc (wi_historical wikiInfo) ∅ in
    let '(wikiBirths, h) := alloc (wi_births wikiInfo) h in
    let '(randomHistorical, h) := getRandomItems (w_rand1 w) wikiHistorical 5 h in
    let '(randomBirths, h) := getRandomItems (w_rand2 w) wikiBirths 5 h in
    let '(sortedHistorical, h) := sortByYear randomHistorical h in
    let '(sortedBirths, h) := sortByYear randomBirths h in
    Some {| date := displayString;
            events := phpInfo;
            historical := arr h sortedHistorical;
            births := arr h sortedBirths;
            birthFlower := truthy birthFlower |}
  end.

(** The list section of main.ts 636-644 (and 646-654, 656-664), run on the
    message built so far. *)
Definition addSection (header : str) (items : list str) (message : str) : str :=
  if (0 <? length items)%nat then
    let message := message ++ header ++ nl in
    let message :=
      fold_left (fun message item => message ++ u "• " ++ item ++ nl)
                (take 5 items) message in
    message ++ nl
  else message.

(** main.ts 666-669 *)
Definition addFlower (flower : option str) (message : str) : str :=
  match truthy flower with
  | Some f => (message ++ u "🌸 *誕生花*" ++ nl) ++ u "• " ++ f ++ nl ++ nl
  | None => message
  end.

Definition footer : str :=
  nl ++ u "_Powered by php.co.jp, Wikipedia & whatistoday.cyou_".

(** main.ts 633-674 *)
Definition formatSlackMessage (info : TodayInfo) : str :=
  let message := u "📅 *今日は何の日？* - " ++ date info ++ nl ++ nl in
  let message := addSection (u "🎉 *記念日・行事・お祭り*") (events info) message in
  let message := addSection (u "🏛️ *歴史上の出来事*") (historical info) message in
  let message := addSection (u "🎂 *今日の誕生日*") (births info) message in
  let message := addFlower (birthFlower info) message in
  message ++ footer.

(** What a run does to the outside: the posts that reach the messaging sink
    and the lines that [main] and [postToSlack] log. *)
Inductive logged :=
| LogStart | LogNoInfo | LogMessage | LogPosted | LogMainError
| LogNoWebhook | LogSlackResponse | LogSlackError | LogNoticeError.

Inductive event :=
| Post (text : str)
| Log (l : logged).

Definition posts (t : list event) : list str :=
  omap (fun e => match e with Post m => Some m | Log _ => None end) t.

(** main.ts 679-710, run after the trace [t]; the result is [None] when the
    call returns and the exception otherwise. *)
Definition postToSlack (w : World) (message : str) (t : list event)
    : option str * list event :=
  match truthy (w_webhook w) with
  | None =>
    (Some (u "Error: SLACK_WEBHOOK_URL is not configured"),
     t ++ [Log LogNoWebhook])
  | Some _ =>
    let t1 := t ++ [Post message] in
    match w_slack w (length (posts t)) with
    | Throws e => (Some e, t1 ++ [Log LogSlackError])
    | Returns (code, text) =>
      let t2 := t1 ++ [Log LogSlackResponse] in
      if (code =? 200)%nat then (None, t2)
      else (Some (u "Error: Slack API error: " ++ text),
            t2 ++ [Log LogSlackError])
    end
  end.

(** The handler of main.ts 732-741. *)
Definition reportError (w : World) (error : str) (t : list event)
    : list event :=
  let t := t ++ [Log LogMainError] in
  match postToSlack w (u "❗ 今日は何の日Botでエラーが発生しました: " ++ error) t with
  | (None, t) => t
  | (Some _, t) => t ++ [Log LogNoticeError]
  end.

(** main.ts 715-742 *)
Definition main (w : World) : list event :=
  let t := [Log LogStart] in
  match fetchTodayInfo w with
  | None => t ++ [Log LogNoInfo]
  | Some todayInfo =>
    let message := formatSlackMessage todayInfo in
    let t := t ++ [Log LogMessage] in
    match postToSlack w message t with
    | (None, t) => t ++ [Log LogPosted]
    | (Some error, t) => reportError w error t
    end
  end.

End Bot.

(** ** The keys of the sources, and the earlier revision of the bot *)

(** main.ts 549: the page of the day on the anniversary source. *)
Definition phpUrl (w : Bot.World) : str :=
  u "https://www.php.co.jp/fun/today/" ++ Bot.getTodayDateString w ++ u ".php".

(** main.ts 365: [getTodayDateString().replace('-', '')], which replaces
    the first hyphen. *)
Definition flowerKey (w : Bot.World) : str :=
  replace_first (Lit (ch "-")) [] (Bot.getTodayDateString w).

(** main.ts 366 *)
Definition flowerUrl (w : Bot.World) : str :=
  u "https://api.whatistoday.cyou/v3/birthflower/" ++ flowerKey w.

(** The first revision of the file (main.ts 1-306), which reads the wiki
    page only.  Its [postToSlack] (222-253) and the handler of its [main]
    are those of the later revision, character for character. *)
Module Legacy.
Import WikiParser Bot.

(** main.ts 31-36 *)
Definition getTodayDateString (w : World) : str :=
  decimal (w_month w) ++ u "月" ++ decimal (w_day w) ++ u "日".

(** main.ts 42-84: [null] is [None]. *)
Definition fetchTodayInfo (w : World) : option TodayInfo0 :=
  let dateString := getTodayDateString w in
  match w_wiki w with
  | Returns PageMissing => None
  | Returns (PageSlots content) => Some (parseTodayInfo dateString content)
  | Returns (PageLegacy content) =>
      match content with
      | [] => None
      | _ :: _ => Some (parseTodayInfo dateString content)
      end
  | Returns PageBare => None
  | Throws _ => None
  end.

(** A list section of main.ts 184-212, which shows [shown] entries at
    most, run on the message built so far. *)
Definition addSection (shown : nat) (header : str) (items : list str)
    (message : str) : str :=
  if (0 <? length items)%nat then
    let message := message ++ header ++ nl in
    let message :=
      fold_left (fun message item => message ++ u "• " ++ item ++ nl)
                (take shown items) message in
    message ++ nl
  else message.

Definition footer : str := nl ++ u "_Powered by Wikipedia_".

(** main.ts 181-217 *)
Definition formatSlackMessage (info : TodayInfo0) : str :=
  let message := u "📅 *今日は何の日？* - " ++ ti_date info ++ nl ++ nl in
  let message := addSection 5 (u "🏛️ *歴史的な出来事*") (ti_events info) message in
  let message := addSection 5 (u "🎂 *誕生日*") (ti_births info) message in
  let message := addSection 3 (u "🙏 *忌日*") (ti_deaths info) message in
  message ++ footer.

(** main.ts 258-285 *)
Definition main (w : World) : list event :=
  let t := [Log LogStart] in
  match fetchTodayInfo w with
  | None => t ++ [Log LogNoInfo]
  | Some todayInfo =>
    let message := formatSlackMessage todayInfo in
    let t := t ++ [Log LogMessage] in
    match postToSlack w message t with
    | (None, t) => t ++ [Log LogPosted]
    | (Some error, t) => reportError w error t
    end
  end.

End Legacy.

(** ** Notions used in the statements *)

(** What it means for [r] to match between two matcher states, without the
    order of the search. *)
Inductive matches : regex -> mstate -> mstate -> Prop :=
| M_Eps st : matches Eps st st
| M_Lit c pos t caps :
    matches (Lit c) (MState pos (c :: t) caps) (MState (S pos) t caps)
| M_Cls k c pos t caps :
    cls_mem k c = true ->
    matches (Cls k) (MState pos (c :: t) caps) (MState (S pos) t caps)
| M_Seq r1 r2 a b c :
    matches r1 a b -> matches r2 b c -> matches (Seq r1 r2) a c
| M_AltL r1 r2 a b : matches r1 a b -> matches (Alt r1 r2) a b
| M_AltR r1 r2 a b : matches r2 a b -> matches (Alt r1 r2) a b
| M_Star0 g r a : matches (Star g r) a a
| M_StarS g r a b c :
    matches r a b -> matches (Star g r) b c -> matches (Star g r) a c
| M_Group i r a b :
    matches r a b ->
    matches (Group i r) a (set_cap i (take (m_pos b - m_pos a) (m_rest a)) b)
| M_Ahead r a b :
    matches r a b ->
    matches (Ahead r) a (MState (m_pos a) (m_rest a) (m_caps b))
| M_Bol a : m_pos a = 0%nat -> matches Bol a a
| M_Eol a : m_rest a = [] -> matches Eol a a.

(** The capture numbers of a regex. *)
Fixpoint groups (r : regex) : list nat :=
  match r with
  | Seq r1 r2 | Alt r1 r2 => groups r1 ++ groups r2
  | Star _ r1 | Ahead r1 => groups r1
  | Group i r1 => i :: groups r1
  | _ => []
  end.

(** [r*] over one character class, greedy: the longest run first, then
    shorter ones. *)
Fixpoint greedy_cls (p : char -> bool) (k : mstate -> option mstate)
    (pos : nat) (s : str) (caps : list (nat * str)) : option mstate :=
  match s with
  | c :: t =>
    if p c
    then orelse (greedy_cls p k (S pos) t caps)
                (fun _ => k (MState pos s caps))
    else k (MState pos s caps)
  | [] => k (MState pos [] caps)
  end.

(** [r*?] over one character class, lazy: the shortest run first. *)
Fixpoint lazy_cls (p : char -> bool) (k : mstate -> option mstate)
    (pos : nat) (s : str) (caps : list (nat * str)) : option mstate :=
  orelse (k (MState pos s caps))
    (fun _ => match s with
              | c :: t => if p c then lazy_cls p k (S pos) t caps else None
              | [] => None
              end).

(** Where the lookahead [(?=== [^=]|$)] holds: at the end of the input, or
    before [== ] and a character other than [=]. *)
Definition ends_here (s : str) : bool :=
  match s with
  | [] => true
  | a :: b :: c :: x :: _ =>
      (ch "=" =? a) && (ch "=" =? b) && (ch " " =? c) && negb (x =? ch "=")
  | _ => false
  end.

(** The input after the first [c], and how many characters precede it. *)
Fixpoint skip_to (c : char) (s : str) : option (nat * str) :=
  match s with
  | [] => None
  | x :: t =>
    if x =? c then Some (0%nat, t)
    else match skip_to c t with
         | Some (n, b) => Some (S n, b)
         | None => None
         end
  end.

(** The final content of the copy that [getRandomItems] shuffles, for an
    array [l]. *)
Definition shuffled {T} (J : nat -> nat) (l : list T) : list T :=
  Sampling.arr
    (Sampling.shuffle_loop J (length l - 1) 0%nat {[ 0%nat := l ]}) 0%nat.

(** [r] lists the elements of [l] at the positions [idx], no position
    taken twice. *)
Definition drawn_from {T} (l : list T) (idx : list nat) (r : list T) : Prop :=
  NoDup idx /\ Forall2 (fun i x => l !! i = Some x) idx r.

(** The draws of a shuffle are in range: [Math.floor(Math.random() * (i + 1))]
    lies between [0] and [i]. *)
Definition in_range (J : nat -> nat) : Prop := forall i, (J i <= i)%nat.

(** The order of two labels by their years, as [<=] on numbers has it. *)
Definition year_le (a b : str) : Prop :=
  nleb (Sampling.extractYear a) (Sampling.extractYear b) = true.

(** The numbers that are doubles and not NaN, and their place on a line:
    the infinities are put at the two ends. *)
Definition is_key (a : number) : Prop :=
  match a with
  | Num z => (- 2 ^ 1024 < z < 2 ^ 1024)%Z
  | Inf _ => True
  | NaN => False
  end.

Definition rank (a : number) : Z :=
  match a with
  | Num z => z
  | Inf false => (2 ^ 1024)%Z
  | Inf true => (- 2 ^ 1024)%Z
  | NaN => 0%Z
  end.

Definition key_le {T} (key : T -> Z) (a b : T) : Prop := (key a <= key b)%Z.

Definition year_rank (item : str) : Z := rank (Sampling.extractYear item).

(** The first character of the before-epoch prefix 紀元前. *)
Definition ki : char := Eval vm_compute in hd 0 (u "紀").

(** What follows the numeral in a label: [年?:]. *)
Inductive year_tail : str -> Prop :=
| tail_colon rest : year_tail (ch ":" :: rest)
| tail_nen rest : year_tail (u "年" ++ ch ":" :: rest).

(** What [getRandomItems] selects from an array [l]. *)
Definition sample {T} (J : nat -> nat) (count : nat) (l : list T) : list T :=
  if (length l <=? count)%nat then l else take count (shuffled J l).

(** The Presenter in the words of the specification: a title, one section
    per category that has entries, the flower, the attribution. *)
Definition bulletLine (item : str) : str := u "• " ++ item ++ nl.

Definition sectionText (header : str) (items : list str) : str :=
  match items with
  | [] => []
  | _ :: _ => header ++ nl ++ concat (map bulletLine (take 5 items)) ++ nl
  end.

Definition flowerText (flower : option str) : str :=
  match flower with
  | Some (c :: f) => u "🌸 *誕生花*" ++ nl ++ bulletLine (c :: f) ++ nl
  | _ => []
  end.

Definition titleText (date : str) : str :=
  u "📅 *今日は何の日？* - " ++ date ++ nl ++ nl.

(** The digest with each list cut to the five entries that can be shown. *)
Definition capped (info : Bot.TodayInfo) : Bot.TodayInfo :=
  {| Bot.date := Bot.date info;
     Bot.events := take 5 (Bot.events info);
     Bot.historical := take 5 (Bot.historical info);
     Bot.births := take 5 (Bot.births info);
     Bot.birthFlower := Bot.birthFlower info |}.

(** The same run with another answer of the flower endpoint. *)
Definition with_flower (w : Bot.World) (f : Bot.outcome (option str)) : Bot.World :=
  {| Bot.w_month := Bot.w_month w; Bot.w_day := Bot.w_day w;
     Bot.w_php := Bot.w_php w; Bot.w_wiki := Bot.w_wiki w;
     Bot.w_flower := f;
     Bot.w_webhook := Bot.w_webhook w; Bot.w_slack := Bot.w_slack w;
     Bot.w_rand1 := Bot.w_rand1 w; Bot.w_rand2 := Bot.w_rand2 w |}.

(** The flower lookup throws, or its answer has no flower. *)
Definition flower_fails (f : Bot.outcome (option str)) : Prop :=
  (exists e, f = Bot.Throws e) \/ f = Bot.Returns None \/ f = Bot.Returns (Some []).

(** The notice of main.ts 737 for an error. *)
Definition errorNotice (error : str) : str :=
  u "❗ 今日は何の日Botでエラーが発生しました: " ++ error.

(** A tag: [<], one or more characters other than [>], and [>].  [opens s]
    says that [s] completes a tag whose [<] stands just before it. *)
Definition opens (s : str) : Prop :=
  exists c m b, s = c :: m ++ ch ">" :: b /\ c <> ch ">".

Definition tagged (s : str) : Prop :=
  exists a t, s = a ++ ch "<" :: t /\ opens t.

(** The shuffle on the array itself. *)
Fixpoint fy {T} (J : nat -> nat) (i : nat) (l : list T) : list T :=
  match i with
  | O => l
  | S i' => fy J i' (Sampling.swap l i (J i))
  end.

(** ** Inputs of the examples *)

(** A run whose primary source is down. *)
Definition world_primary_down : Bot.World :=
  {| Bot.w_month := 8; Bot.w_day := 10;
     Bot.w_php := Bot.Throws (u "Exception: Address unavailable");
     Bot.w_wiki := Bot.Returns Bot.PageMissing;
     Bot.w_flower := Bot.Returns None;
     Bot.w_webhook := Some (u "https://hooks.slack.com/services/T/B/X");
     Bot.w_slack := fun _ => Bot.Returns (200%nat, u "ok");
     Bot.w_rand1 := fun _ => 0%nat;
     Bot.w_rand2 := fun _ => 0%nat |}.

(** A run whose flower lookup throws while the other sources answer. *)
Definition world_flower_down : Bot.World :=
  {| Bot.w_month := 8; Bot.w_day := 10;
     Bot.w_php := Bot.Returns (u "<h2>記念日・行事・お祭り</h2><p>●帽子の日,●健康ハートの日</p><h2>歴史上の出来事</h2>");
     Bot.w_wiki := Bot.Returns (Bot.PageSlots (u "== できごと ==
* [[1945年]] - これはとても大事な歴史上の出来事である。
== 誕生日 ==
* [[1950年]] - [[山田太郎]]、俳優
"));
     Bot.w_flower := Bot.Throws (u "Exception: Timeout");
     Bot.w_webhook := Some (u "https://hooks.slack.com/services/T/B/X");
     Bot.w_slack := fun _ => Bot.Returns (200%nat, u "ok");
     Bot.w_rand1 := fun _ => 0%nat;
     Bot.w_rand2 := fun _ => 0%nat |}.

(** Whether one of the four bracket pairs occurs. *)
Definition residue (s : str) : bool :=
  includes (u "[[") s || includes (u "]]") s ||
  includes (u "{{") s || includes (u "}}") s.

(** A page whose deaths section has an entry of its own and a persons
    sub-section. *)
Definition page_with_persons : str := u "== 忌日 ==
* 1900年 - 製品A
=== 人物 ===
* [[1950年]] - [[山田花子]]、歌手（* [[1890年]]）
== 記念日・年中行事 ==
* 山の日
".

(** A page with a birth in the year 0. *)
Definition page_year_zero : str :=
  u "== 誕生日 ==" ++ nl ++ u "* [[0年]] - [[ある人物]]、詩人".

(** A page with a birth whose numeral no double holds. *)
Definition page_year_long : str :=
  u "== 誕生日 ==" ++ nl ++ u "* 9007199254740993年 - 山田太郎".

(** Runs the search whose result [E] names. *)
Ltac found E := vm_compute in E; first [injection E as <- | discriminate E].

(** A list section that shows [shown] entries at most, in the words of the
    specification. *)
Definition sectionTextN (shown : nat) (header : str) (items : list str) : str :=
  match items with
  | [] => []
  | _ :: _ => header ++ nl ++ concat (map bulletLine (take shown items)) ++ nl
  end.

(** A run in which every collaborator answers. *)
Definition world_fine : Bot.World :=
  {| Bot.w_month := 8; Bot.w_day := 10;
     Bot.w_php := Bot.Returns (u "<h2>記念日・行事・お祭り</h2><p>●帽子の日,●健康ハートの日</p><h2>歴史上の出来事</h2>");
     Bot.w_wiki := Bot.Returns (Bot.PageSlots (u "== できごと ==
* [[1945年]] - これはとても大事な歴史上の出来事である。
* [[紀元前44年]] - これもとても大事な歴史上の出来事である。
== 誕生日 ==
* [[1950年]] - [[山田太郎]]、俳優
== 忌日 ==
* [[1900年]] - [[鈴木一郎]]、画家
"));
     Bot.w_flower := Bot.Returns (Some (u "ルリタマアザミ"));
     Bot.w_webhook := Some (u "https://hooks.slack.com/services/T/B/X");
     Bot.w_slack := fun _ => Bot.Returns (200%nat, u "ok");
     Bot.w_rand1 := fun _ => 0%nat;
     Bot.w_rand2 := fun _ => 0%nat |}.

(** The same run with another webhook property. *)
Definition with_webhook (w : Bot.World) (url : option str) : Bot.World :=
  {| Bot.w_month := Bot.w_month w; Bot.w_day := Bot.w_day w;
     Bot.w_php := Bot.w_php w; Bot.w_wiki := Bot.w_wiki w;
     Bot.w_flower := Bot.w_flower w;
     Bot.w_webhook := url; Bot.w_slack := Bot.w_slack w;
     Bot.w_rand1 := Bot.w_rand1 w; Bot.w_rand2 := Bot.w_rand2 w |}.

(** The same run with other answers of the messaging sink. *)
Definition with_slack (w : Bot.World) (f : nat -> Bot.outcome (nat * str))
    : Bot.World :=
  {| Bot.w_month := Bot.w_month w; Bot.w_day := Bot.w_day w;
     Bot.w_php := Bot.w_php w; Bot.w_wiki := Bot.w_wiki w;
     Bot.w_flower := Bot.w_flower w;
     Bot.w_webhook := Bot.w_webhook w; Bot.w_slack := f;
     Bot.w_rand1 := Bot.w_rand1 w; Bot.w_rand2 := Bot.w_rand2 w |}.

(** The same run with another answer of the wiki endpoint. *)
Definition with_wiki (w : Bot.World) (p : Bot.outcome Bot.wiki_page) : Bot.World :=
  {| Bot.w_month := Bot.w_month w; Bot.w_day := Bot.w_day w;
     Bot.w_php := Bot.w_php w; Bot.w_wiki := p;
     Bot.w_flower := Bot.w_flower w;
     Bot.w_webhook := Bot.w_webhook w; Bot.w_slack := Bot.w_slack w;
     Bot.w_rand1 := Bot.w_rand1 w; Bot.w_rand2 := Bot.w_rand2 w |}.

(** The wiki lookup fails: it throws, the page is missing, or the answer
    carries no content. *)
Definition wiki_fails (p : Bot.outcome Bot.wiki_page) : Prop :=
  (exists e, p = Bot.Throws e) \/ p = Bot.Returns Bot.PageMissing \/
  p = Bot.Returns Bot.PageBare \/ p = Bot.Returns (Bot.PageLegacy []).

(** The end of both [main] functions (main.ts 726-741, 269-284): the post
    of the message after the trace [t], and what follows it. *)
Definition deliver (w : Bot.World) (message : str) (t : list Bot.event)
    : list Bot.event :=
  match Bot.postToSlack w message t with
  | (None, t) => t ++ [Bot.Log Bot.LogPosted]
  | (Some error, t) => Bot.reportError w error t
  end.

(** A run whose messaging sink answers 500. *)
Definition world_sink_rejects : Bot.World :=
  with_slack world_fine (fun _ => Bot.Returns (500%nat, u "server_error")).

(** A run without the webhook property. *)
Definition world_no_webhook : Bot.World := with_webhook world_fine None.

(** A page whose events are dated before, at and after the epoch. *)
Definition page_with_epochs : str := u "== できごと ==
* [[1969年]] - 人類が初めて月面に降り立った日である
* 紀元前44年 - カエサルが元老院の議場で暗殺される
* 紀元14年 - 初代ローマ皇帝アウグストゥスが死去
== 誕生日 ==
".

(** A regex without lookahead: what its groups capture lies inside the
    match. *)
Fixpoint ahead_free (r : regex) : bool :=
  match r with
  | Seq r1 r2 | Alt r1 r2 => ahead_free r1 && ahead_free r2
  | Star _ r1 | Group _ r1 => ahead_free r1
  | Ahead _ => false
  | _ => true
  end.

(** The set [[\s-]] of the edge pattern. *)
Definition is_edge (c : char) : bool := cls_mem (CSpaceOr [ch "-"]) c.

(** What is left of a string without the run of [p] at its end, and
    without the runs at both ends. *)
Fixpoint rstrip (p : char -> bool) (s : str) : str :=
  match s with
  | [] => []
  | c :: t => if p c && forallb p t then [] else c :: rstrip p t
  end.

Definition strip (p : char -> bool) (s : str) : str :=
  rstrip p (drop_while p s).

(** A regex that consumes no line terminator, and a regex whose groups
    capture none. *)
Fixpoint single_line (r : regex) : bool :=
  match r with
  | Lit c => negb (is_line_end c)
  | Cls CDot | Cls CDigit => true
  | Cls _ => false
  | Seq r1 r2 | Alt r1 r2 => single_line r1 && single_line r2
  | Star _ r1 | Group _ r1 => single_line r1
  | _ => true
  end.

Fixpoint captures_single_line (r : regex) : bool :=
  match r with
  | Seq r1 r2 | Alt r1 r2 => captures_single_line r1 && captures_single_line r2
  | Star _ r1 | Ahead r1 => captures_single_line r1
  | Group _ r1 => single_line r1 && captures_single_line r1
  | _ => true
  end.

Definition one_line (s : str) : Prop := Forall (fun c => is_line_end c = false) s.

(** A text without the characters that open the markup the cleaner
    looks for. *)
Definition plain (s : str) : Prop :=
  Forall (fun c => mem [ch "["; ch "{"; ch "<"; ch "("] c = false) s.

(** A text whose first and last characters are neither white space nor a
    hyphen. *)
Definition clean_ends (s : str) : Prop :=
  forall c, head s = Some c \/ last s = Some c -> is_edge c = false.

(** Where the lookahead [(?=歴史上の出来事|今日の誕生日|$)] holds. *)
Definition php_ends (s : str) : bool :=
  prefix_of (u "歴史上の出来事") s || prefix_of (u "今日の誕生日") s ||
  match s with [] => true | _ :: _ => false end.

(** The bullet [●] (U+25CF) that opens each anniversary. *)
Definition black_circle : char := 9679.

(** A run whose page has more events and births than a digest shows, and
    whose draws move the entries. *)
Definition world_busy : Bot.World :=
  {| Bot.w_month := 8; Bot.w_day := 10;
     Bot.w_php := Bot.Returns (u "<h2>記念日・行事・お祭り</h2><p>●帽子の日,●健康ハートの日</p><h2>歴史上の出来事</h2>");
     Bot.w_wiki := Bot.Returns (Bot.PageSlots (u "== できごと ==
* [[1945年]] - これは一番目のとても大事な出来事である。
* [[紀元前44年]] - これは二番目のとても大事な出来事である。
* [[1868年]] - これは三番目のとても大事な出来事である。
* [[794年]] - これは四番目のとても大事な出来事である。
* [[1603年]] - これは五番目のとても大事な出来事である。
* [[2011年]] - これは六番目のとても大事な出来事である。
* [[1989年]] - これは七番目のとても大事な出来事である。
== 誕生日 ==
* [[1950年]] - [[山田太郎]]、俳優
* [[1901年]] - [[鈴木一郎]]、画家
* [[1988年]] - [[佐藤花子]]、歌手
* [[1875年]] - [[高橋次郎]]、作家
* [[1999年]] - [[田中三郎]]、棋士
* [[1964年]] - [[伊藤四郎]]、力士
== 忌日 ==
* [[1900年]] - [[渡辺五郎]]、詩人
"));
     Bot.w_flower := Bot.Returns (Some (u "ルリタマアザミ"));
     Bot.w_webhook := Some (u "https://hooks.slack.com/services/T/B/X");
     Bot.w_slack := fun _ => Bot.Returns (200%nat, u "ok");
     Bot.w_rand1 := fun i => (i - 1)%nat;
     Bot.w_rand2 := fun i => (i `min` 2)%nat |}.

(** The section of a page under one of the headings [headings]: [body] is
    the text after the first place of the page where one of them begins,
    up to the first place where the lookahead [(?=== [^=]|$)] holds,
    which is at most one character into a [=== x] sub-heading. *)
Definition section_of (headings : list str) (content body : str) : Prop :=
  exists pre heading rest,
    heading ∈ headings /\
    content = pre ++ heading ++ body ++ rest /\
    (forall j h, (j < length pre)%nat -> h ∈ headings ->
       prefix_of h (drop j content) = false) /\
    ends_here rest = true /\
    (forall j, (j < length body)%nat ->
       ends_here (drop j (body ++ rest)) = false) /\
    (forall before x tail,
       body ++ rest = before ++ u "=== " ++ x :: tail -> x <> ch "=" ->
       (length body <= S (length before))%nat).

(** ** The matcher *)
Module RegexFacts.

Lemma orelse_none a : orelse a (fun _ => None) = a.
Proof. by destruct a. Qed.

Lemma orelse_some a b x : orelse a b = Some x ->
  a = Some x \/ (a = None /\ b tt = Some x).
Proof. destruct a; simpl; intros; [left|right]; auto. Qed.

Lemma step_some p k st fin :
  step p k st = Some fin ->
  exists c t, m_rest st = c :: t /\ p c = true /\
    k (MState (S (m_pos st)) t (m_caps st)) = Some fin.
Proof.
  unfold step. destruct (m_rest st) as [|c t]; [done|].
  destruct (p c) eqn:E; [|done]. eauto.
Qed.

Section Soundness.

Lemma star_sound g r
  (IH : forall k st fin, rmatch r k st = Some fin ->
        exists st', matches r st st' /\ k st' = Some fin) :
  forall n k st fin, star_loop g (rmatch r) k n st = Some fin ->
    exists st', matches (Star g r) st st' /\ k st' = Some fin.
Proof.
  induction n as [|n IHn]; intros k st fin H; simpl in H.
  - exists st. split; [constructor | done].
  - assert (Hagain :
      rmatch r (fun st' => if (m_pos st <? m_pos st')%nat
                           then star_loop g (rmatch r) k n st' else None) st
        = Some fin ->
      exists st', matches (Star g r) st st' /\ k st' = Some fin).
    { intros Ha. apply IH in Ha as (st1 & Hm & Hk).
      destruct (m_pos st <? m_pos st1)%nat; [|done].
      apply IHn in Hk as (st2 & Hm2 & Hk2).
      exists st2. split; [econstructor; eauto | done]. }
    destruct g; apply orelse_some in H as [H | [_ H]]; auto;
      exists st; (split; [constructor | done]).
Qed.

(** Whatever the matcher finds is a match. *)
Lemma rmatch_sound r : forall k st fin,
  rmatch r k st = Some fin ->
  exists st', matches r st st' /\ k st' = Some fin.
Proof.
  induction r as [| c | cc | r1 IH1 r2 IH2 | r1 IH1 r2 IH2 | g r IH
                 | i r IH | r IH | |]; intros k st fin H;
    [simpl in H .. | | simpl in H | simpl in H | simpl in H | simpl in H ].
  - exists st. split; [constructor | done].
  - apply step_some in H as (x & t & Hr & Hp & Hk).
    apply N.eqb_eq in Hp as <-. destruct st as [pos s caps]; simpl in *.
    subst s. eexists. split; [constructor | done].
  - apply step_some in H as (x & t & Hr & Hp & Hk).
    destruct st as [pos s caps]; simpl in *.
    subst s. eexists. split; [by constructor | done].
  - apply IH1 in H as (st1 & Hm1 & H). apply IH2 in H as (st2 & Hm2 & H).
    exists st2. split; [econstructor; eauto | done].
  - apply orelse_some in H as [H | [_ H]].
    + apply IH1 in H as (st1 & Hm & H). exists st1. split; [by apply M_AltL | done].
    + apply IH2 in H as (st1 & Hm & H). exists st1. split; [by apply M_AltR | done].
  - eapply (star_sound g r IH). exact H.
  - apply IH in H as (st1 & Hm & H). eexists. split; [by constructor | done].
  - destruct (rmatch r Some st) as [st1|] eqn:E; [|done].
    apply IH in E as (st2 & Hm & [= ->]).
    eexists. split; [by constructor | done].
  - destruct (m_pos st =? 0)%nat eqn:E; [|done].
    apply Nat.eqb_eq in E. exists st. split; [by constructor | done].
  - destruct (m_rest st) eqn:E; [|done].
    exists st. split; [by constructor | done].
Qed.

End Soundness.

Lemma match_at_sound r pos s fin :
  match_at r pos s = Some fin -> matches r (MState pos s []) fin.
Proof.
  intros H. apply rmatch_sound in H as (st & Hm & [= ->]). done.
Qed.

(** A match consumes a prefix of the input and moves the index by its
    length. *)
Lemma matches_span r a b :
  matches r a b ->
  exists w, m_rest a = w ++ m_rest b /\ m_pos b = (m_pos a + length w)%nat.
Proof.
  induction 1; simpl.
  - exists []. split; [done | simpl; lia].
  - exists [c]. split; [done | simpl; lia].
  - exists [c]. split; [done | simpl; lia].
  - destruct IHmatches1 as (w1 & E1 & P1), IHmatches2 as (w2 & E2 & P2).
    exists (w1 ++ w2). rewrite E1, E2, <- app_assoc, length_app. split; [done | lia].
  - done.
  - done.
  - exists []. split; [done | simpl; lia].
  - destruct IHmatches1 as (w1 & E1 & P1), IHmatches2 as (w2 & E2 & P2).
    exists (w1 ++ w2). rewrite E1, E2, <- app_assoc, length_app. split; [done | lia].
  - done.
  - exists []. split; [done | simpl; lia].
  - exists []. split; [done | simpl; lia].
  - exists []. split; [done | simpl; lia].
Qed.

(** A match only adds captures, and only those of its own groups. *)
Lemma matches_caps r a b :
  matches r a b ->
  exists l, m_caps b = l ++ m_caps a /\ Forall (fun p => In (fst p) (groups r)) l.
Proof.
  induction 1; simpl; try (exists []; split; [done | constructor]).
  - destruct IHmatches1 as (l1 & E1 & F1), IHmatches2 as (l2 & E2 & F2).
    exists (l2 ++ l1). rewrite E2, E1, <- app_assoc. split; [done|].
    apply Forall_app. split; eapply Forall_impl; eauto; simpl; intros;
      apply in_or_app; auto.
  - destruct IHmatches as (l & E & F). exists l. split; [done|].
    eapply Forall_impl; eauto; simpl; intros; apply in_or_app; auto.
  - destruct IHmatches as (l & E & F). exists l. split; [done|].
    eapply Forall_impl; eauto; simpl; intros; apply in_or_app; auto.
  - destruct IHmatches1 as (l1 & E1 & F1), IHmatches2 as (l2 & E2 & F2).
    exists (l2 ++ l1). rewrite E2, E1, <- app_assoc. split; [done|].
    apply Forall_app. split; done.
  - destruct IHmatches as (l & E & F). exists ((i, take (m_pos b - m_pos a) (m_rest a)) :: l).
    rewrite E. split; [done|]. constructor; [simpl; auto|].
    eapply Forall_impl; eauto; simpl; intros; auto.
  - destruct IHmatches as (l & E & F). exists l. split; done.
Qed.

Lemma cap_app_other i l caps pos s :
  Forall (fun p => fst p <> i) l ->
  cap i (MState pos s (l ++ caps)) = cap i (MState pos s caps).
Proof.
  unfold cap; simpl. induction 1 as [|[j x] l Hj _ IH]; simpl; [done|].
  simpl in Hj. destruct (Nat.eqb_spec j i); [done | apply IH].
Qed.

(** A match leaves the captures of other groups alone. *)
Lemma matches_cap_other r a b i :
  matches r a b -> ~ In i (groups r) -> cap i b = cap i a.
Proof.
  intros Hm Hi. apply matches_caps in Hm as (l & E & F).
  destruct a as [pa sa ca], b as [pb sb cb]; simpl in *. subst cb.
  unfold cap in *; simpl.
  induction F as [|[j x] l Hj _ IH]; simpl; [done|].
  simpl in Hj. destruct (Nat.eqb_spec j i); [by subst | apply IH].
Qed.

(** The iterations of a greedy star over a character class. *)
Lemma star_cls_greedy cc k : forall s n pos caps,
  (length s < n)%nat ->
  star_loop true (rmatch (Cls cc)) k n (MState pos s caps)
  = greedy_cls (cls_mem cc) k pos s caps.
Proof.
  induction s as [|c t IH]; intros n pos caps Hn;
    (destruct n as [|n]; [simpl in Hn; lia|]); simpl.
  - done.
  - unfold step; simpl. destruct (cls_mem cc c); [|done].
    assert ((pos <? S pos)%nat = true) as -> by (apply Nat.ltb_lt; lia).
    rewrite IH; [done | simpl in Hn; lia].
Qed.

Lemma rmatch_star_cls cc k pos s caps :
  rmatch (Star true (Cls cc)) k (MState pos s caps)
  = greedy_cls (cls_mem cc) k pos s caps.
Proof. apply (star_cls_greedy cc k s (S (length s)) pos caps). lia. Qed.

(** When the run of the class is followed by something the continuation
    accepts at once, backtracking is not needed. *)
Lemma greedy_cls_run p k fin : forall ds pos s caps,
  Forall (fun c => p c = true) ds ->
  k (MState (pos + length ds) s caps) = Some fin ->
  match s with [] => True | c :: _ => p c = false end ->
  greedy_cls p k pos (ds ++ s) caps = Some fin.
Proof.
  induction ds as [|d ds IH]; intros pos s caps Hds Hk Hs; simpl in *.
  - rewrite Nat.add_0_r in Hk. destruct s as [|c t]; simpl; [done|].
    by rewrite Hs.
  - inversion Hds as [|? ? Hd Hds']; subst. rewrite Hd.
    rewrite (IH (S pos) s caps); [done | done | | done].
    by replace (S pos + length ds)%nat with (pos + S (length ds))%nat by lia.
Qed.

(** [^c]* followed by c: the match runs to the first c. *)
Lemma greedy_cls_skip c k caps : forall s pos,
  greedy_cls (cls_mem (CNoneOf [c])) (step (N.eqb c) k) pos s caps
  = match skip_to c s with
    | Some (n, b) => k (MState (S (pos + n)) b caps)
    | None => None
    end.
Proof.
  induction s as [|x t IH]; intros pos; simpl; [done|].
  unfold mem; simpl. rewrite orb_false_r.
  destruct (N.eqb_spec x c) as [->|Hne]; simpl.
  - unfold step; simpl. rewrite N.eqb_refl, Nat.add_0_r. done.
  - rewrite IH. unfold step; simpl.
    assert ((c =? x) = false) as -> by (apply N.eqb_neq; congruence).
    rewrite orelse_none. destruct (skip_to c t) as [[n b]|]; [|done].
    by rewrite Nat.add_succ_r.
Qed.

(** A regex that starts with [^] can only match at index 0. *)
Lemma search_from_bol r : forall s pos,
  (0 < pos)%nat -> search_from (Seq Bol r) pos s = None.
Proof.
  induction s as [|c t IH]; intros pos Hpos; simpl;
    unfold match_at; simpl;
    (destruct (Nat.eqb_spec pos 0); [lia|]); [done|].
  apply IH. lia.
Qed.

Lemma search_bol r s : search (Seq Bol r) s = match_at (Seq Bol r) 0 s.
Proof.
  unfold search. destruct s as [|c t]; simpl.
  - by destruct (match_at _ _ _).
  - destruct (match_at _ _ _); [done|]. by rewrite search_from_bol by lia.
Qed.

Lemma search_from_some r : forall s pos p,
  search_from r pos s = Some p ->
  exists t, match_at r (fst p) t = Some (snd p) /\
            exists pre, s = pre ++ t /\ fst p = (pos + length pre)%nat.
Proof.
  induction s as [|c s IH]; intros pos p H; simpl in H.
  - destruct (match_at r pos []) eqn:E; [|done]. injection H as <-.
    exists []. split; [done|]. exists []. split; [done | simpl; lia].
  - destruct (match_at r pos (c :: s)) eqn:E.
    + injection H as <-. exists (c :: s). split; [done|].
      exists []. split; [done | simpl; lia].
    + apply IH in H as (t & Hm & pre & -> & Hp). exists t. split; [done|].
      exists (c :: pre). split; [done | simpl; lia].
Qed.

(** A successful search is a match at some index of the input. *)
Lemma search_some r s fin :
  search r s = Some fin ->
  exists pre t, s = pre ++ t /\ match_at r (length pre) t = Some fin.
Proof.
  unfold search. destruct (search_from r 0 s) as [[i st]|] eqn:E; [|done].
  intros [= ->]. apply search_from_some in E as (t & Hm & pre & -> & Hp).
  simpl in *. subst i. by exists pre, t.
Qed.

Lemma matches_eps_inv a b : matches Eps a b -> b = a.
Proof. by inversion 1. Qed.

Lemma matches_seq_inv r1 r2 a c :
  matches (Seq r1 r2) a c -> exists b, matches r1 a b /\ matches r2 b c.
Proof. inversion 1; subst; eauto. Qed.

Lemma matches_alt_inv r1 r2 a b :
  matches (Alt r1 r2) a b -> matches r1 a b \/ matches r2 a b.
Proof. inversion 1; subst; eauto. Qed.

Lemma matches_lit_inv c a b :
  matches (Lit c) a b ->
  exists t, m_rest a = c :: t /\ b = MState (S (m_pos a)) t (m_caps a).
Proof. inversion 1; subst; simpl; eauto. Qed.

Lemma matches_cls_inv k a b :
  matches (Cls k) a b ->
  exists c t, cls_mem k c = true /\ m_rest a = c :: t /\
              b = MState (S (m_pos a)) t (m_caps a).
Proof. inversion 1; subst; simpl; eauto 10. Qed.

Lemma matches_group_inv i r a b :
  matches (Group i r) a b ->
  exists b', matches r a b' /\
             b = set_cap i (take (m_pos b' - m_pos a) (m_rest a)) b'.
Proof. inversion 1; subst; eauto. Qed.

Lemma matches_star_cls g k a b :
  matches (Star g (Cls k)) a b ->
  exists w, Forall (fun c => cls_mem k c = true) w /\
            m_rest a = w ++ m_rest b /\
            m_pos b = (m_pos a + length w)%nat /\ m_caps b = m_caps a.
Proof.
  intros H. remember (Star g (Cls k)) as r eqn:Er.
  induction H; try discriminate; injection Er as -> ->.
  - exists []. repeat split; [constructor | simpl; lia].
  - destruct (IHmatches2 eq_refl) as (w & Hw & Hr & Hp & Hc).
    apply matches_cls_inv in H as (x & t & Hc1 & Hr1 & ->). simpl in *.
    exists (x :: w). rewrite Hr1, Hr, Hp, Hc. simpl.
    repeat split; [by constructor | lia].
Qed.

Lemma match_at_eq r pos s : match_at r pos s = rmatch r Some (MState pos s []).
Proof. reflexivity. Qed.

(** A successful search is the match at the first index that has one. *)
Lemma search_from_first r : forall s pos p,
  search_from r pos s = Some p ->
  exists pre t, s = pre ++ t /\ fst p = (pos + length pre)%nat /\
    match_at r (fst p) t = Some (snd p) /\
    forall j, (j < length pre)%nat -> match_at r (pos + j) (drop j s) = None.
Proof.
  induction s as [|c s IH]; intros pos p H; simpl in H.
  - destruct (match_at r pos []) eqn:E; [|done]. injection H as <-.
    exists [], []. simpl. rewrite Nat.add_0_r.
    split; [done|]. split; [done|]. split; [done|]. intros j Hj. lia.
  - destruct (match_at r pos (c :: s)) eqn:E.
    + injection H as <-. exists [], (c :: s). simpl. rewrite Nat.add_0_r.
      split; [done|]. split; [done|]. split; [done|]. intros j Hj. lia.
    + apply IH in H as (pre & t & -> & Hp & Hm & Hfirst).
      exists (c :: pre), t. split; [done|]. split; [simpl; lia|].
      split; [done|]. intros [|j] Hj.
      * by rewrite Nat.add_0_r, drop_0.
      * simpl. replace (pos + S j)%nat with (S pos + j)%nat by lia.
        apply Hfirst. simpl in Hj. lia.
Qed.

Lemma search_first r s fin :
  search r s = Some fin ->
  exists pre t, s = pre ++ t /\ match_at r (length pre) t = Some fin /\
    forall j, (j < length pre)%nat -> match_at r j (drop j s) = None.
Proof.
  unfold search. destruct (search_from r 0 s) as [[i st]|] eqn:E; [|done].
  intros [= ->]. apply search_from_first in E as (pre & t & -> & Hi & Hm & Hf).
  simpl in *. subst i. exists pre, t. split; [done|]. split; [done|].
  intros j Hj. exact (Hf j Hj).
Qed.

(** What a group over one or more characters of a class captures. *)
Lemma plus_cls_capture i g k a b :
  matches (Group i (plus g (Cls k))) a b ->
  exists d ds,
    cls_mem k d = true /\ Forall (fun c => cls_mem k c = true) ds /\
    cap i b = Some (d :: ds) /\ m_rest a = d :: ds ++ m_rest b.
Proof.
  intros H. apply matches_group_inv in H as (b' & H & ->).
  apply matches_seq_inv in H as (a1 & Hc & Hs).
  apply matches_cls_inv in Hc as (d & t & Hd & Hr & ->).
  apply matches_star_cls in Hs as (w & Hw & Hrw & Hp & _). simpl in *.
  exists d, w. split; [done|]. split; [done|].
  unfold cap, set_cap; simpl. rewrite Nat.eqb_refl. simpl.
  rewrite Hr, Hrw, Hp.
  replace (S (m_pos a + length w) - m_pos a)%nat with (S (length w)) by lia.
  cbn [take]. by rewrite take_app_length.
Qed.

End RegexFacts.

(** ** Numbers *)
Module NumberFacts.

#[local] Open Scope Z_scope.

Lemma pow1024_pos : (0 < 2 ^ 1024)%Z.
Proof. by apply Z.pow_pos_nonneg. Qed.

Lemma pow53_1024 : (2 ^ 53 < 2 ^ 1024)%Z.
Proof. by apply Z.pow_lt_mono_r. Qed.

Lemma round_pos_spec z :
  (0 <= z)%Z ->
  is_key (round_pos z) /\ (0 <= rank (round_pos z))%Z /\
  ((0 < z)%Z -> (0 < rank (round_pos z))%Z) /\
  ((z < 2 ^ 53)%Z -> round_pos z = Num z).
Proof.
  intros Hz. pose proof pow1024_pos as HM. pose proof pow53_1024 as H53.
  unfold round_pos. destruct (Z.ltb_spec (Z.log2 z) 53) as [Hn|Hn].
  - assert (z < 2 ^ 53)%Z as Hlt.
    { destruct (Z.eq_dec z 0) as [->|]; [by apply Z.pow_pos_nonneg|].
      apply Z.log2_lt_pow2; lia. }
    unfold is_key, rank. remember (2 ^ 1024)%Z as M. remember (2 ^ 53)%Z as K.
    repeat split; lia.
  - assert (0 < z)%Z as Hpos.
    { destruct (Z.le_gt_cases z 0) as [Hle|]; [|done].
      rewrite (Z.log2_nonpos z Hle) in Hn. lia. }
    assert (2 ^ 53 <= z)%Z as Hbig.
    { transitivity (2 ^ Z.log2 z)%Z; [by apply Z.pow_le_mono_r|].
      by apply Z.log2_spec. }
    cbv zeta. set (e := (Z.log2 z - 52)%Z). set (q := (z / 2 ^ e)%Z).
    assert (0 < 2 ^ e)%Z as He by (apply Z.pow_pos_nonneg; lia).
    assert (0 < q)%Z as Hq.
    { apply Z.div_str_pos. split; [done|].
      transitivity (2 ^ Z.log2 z)%Z; [apply Z.pow_le_mono_r; lia|].
      by apply Z.log2_spec. }
    destruct (_ || _)%bool;
      match goal with
      | |- context [(2 ^ 1024 <=? ?v)%Z] =>
        assert (0 < v)%Z as Hv by (apply Z.mul_pos_pos; lia);
        destruct (Z.leb_spec (2 ^ 1024) v) as [Ho|Ho];
        unfold is_key, rank; remember (2 ^ 1024)%Z as M;
        remember (2 ^ 53)%Z as K; remember v as v';
        repeat split; lia
      end.
Qed.

Lemma nneg_key a : is_key a -> is_key (nneg a).
Proof. destruct a as [z| |]; simpl; [lia | done | done]. Qed.

Lemma nneg_rank a : rank (nneg a) = (- rank a)%Z.
Proof. destruct a as [z|[]|]; simpl; lia. Qed.

Lemma to_number_spec z :
  is_key (to_number z) /\
  ((0 < z)%Z -> (0 < rank (to_number z))%Z) /\
  ((z < 0)%Z -> (rank (to_number z) < 0)%Z) /\
  (z = 0%Z -> rank (to_number z) = 0%Z) /\
  ((- 2 ^ 53 < z < 2 ^ 53)%Z -> to_number z = Num z).
Proof.
  unfold to_number. destruct (Z.ltb_spec z 0) as [Hz|Hz].
  - destruct (round_pos_spec (- z)) as (Hk & H0 & Hp & He); [lia|].
    rewrite nneg_rank. split; [by apply nneg_key|].
    split; [lia|]. split; [intros _; apply Z.opp_neg_pos, Hp; lia|].
    split; [lia|]. intros Hr. rewrite He by lia. simpl. f_equal. lia.
  - destruct (round_pos_spec z Hz) as (Hk & H0 & Hp & He).
    split; [done|]. split; [done|]. split; [lia|].
    split; [intros ->; by rewrite He|]. intros Hr. apply He. lia.
Qed.

Lemma le_zero_rank v : is_key v -> le_zero v = (rank v <=? 0)%Z.
Proof.
  pose proof pow1024_pos as HM.
  destruct v as [z|[]|]; simpl; intros Hk; [done | | | done];
    remember (2 ^ 1024)%Z as M; symmetry;
    [apply Z.leb_le | apply Z.leb_gt]; lia.
Qed.

(** The comparator value of two keys has the sign of their order. *)
Lemma nsub_rank a b :
  is_key a -> is_key b -> le_zero (nsub a b) = (rank a <=? rank b)%Z.
Proof.
  pose proof pow1024_pos as HM. intros Ha Hb.
  destruct a as [x|sa|], b as [y|sb|]; try done.
  - simpl. destruct (to_number_spec (x - y)) as (Hk & Hp & Hn & H0 & _).
    rewrite (le_zero_rank _ Hk).
    destruct (Z.leb_spec (rank (to_number (x - y))) 0),
             (Z.leb_spec x y); try done; lia.
  - simpl in *. destruct sb; simpl; remember (2 ^ 1024)%Z as M; symmetry;
      [apply Z.leb_gt | apply Z.leb_le]; lia.
  - simpl in *. destruct sa; simpl; remember (2 ^ 1024)%Z as M; symmetry;
      [apply Z.leb_le | apply Z.leb_gt]; lia.
  - destruct sa, sb; simpl; remember (2 ^ 1024)%Z as M; symmetry;
      first [apply Z.leb_le; lia | apply Z.leb_gt; lia].
Qed.

Lemma nleb_rank a b :
  is_key a -> is_key b -> nleb a b = (rank a <=? rank b)%Z.
Proof.
  pose proof pow1024_pos as HM. intros Ha Hb.
  destruct a as [x|[]|], b as [y|[]|]; try done; simpl in *;
    remember (2 ^ 1024)%Z as M; symmetry;
    first [apply Z.leb_le; lia | apply Z.leb_gt; lia].
Qed.

Lemma mathInt_nonneg s : (0 <= mathInt s)%Z.
Proof.
  unfold mathInt. generalize (take_digits s). intros l.
  assert (forall a, (0 <= a)%Z ->
    (0 <= fold_left (fun acc c => 10 * acc + digit_val c) l a)%Z) as G.
  { induction l as [|c l IH]; intros a Ha; simpl; [done|].
    apply IH. unfold digit_val. lia. }
  by apply G.
Qed.

(** The number read from a numeral. *)
Lemma parseInt_numeral d ds :
  is_digit d = true ->
  parseInt (d :: ds) = to_number (mathInt (d :: ds)) /\
  is_key (parseInt (d :: ds)) /\ (0 <= rank (parseInt (d :: ds)))%Z /\
  nleb (Num 0) (parseInt (d :: ds)) = true /\
  ((mathInt (d :: ds) < 2 ^ 53)%Z ->
   parseInt (d :: ds) = Num (mathInt (d :: ds))).
Proof.
  intros Hd. assert (parseInt (d :: ds) = to_number (mathInt (d :: ds))) as E.
  { unfold parseInt. simpl. by rewrite Hd. }
  rewrite E. pose proof (mathInt_nonneg (d :: ds)) as Hn.
  destruct (to_number_spec (mathInt (d :: ds))) as (Hk & Hp & _ & H0 & He).
  assert (0 <= rank (to_number (mathInt (d :: ds))))%Z as Hr.
  { destruct (Z.eq_dec (mathInt (d :: ds)) 0) as [Hz|Hz]; [rewrite H0; lia|].
    apply Z.lt_le_incl, Hp. lia. }
  split; [done|]. split; [done|]. split; [done|]. split.
  - rewrite nleb_rank; [by apply Z.leb_le | | done].
    simpl. pose proof pow1024_pos. remember (2 ^ 1024)%Z as M. lia.
  - intros Hlt. apply He. pose proof (Z.pow_pos_nonneg 2 53).
    remember (2 ^ 53)%Z as K. lia.
Qed.

End NumberFacts.

(** ** Sampling and ordering *)
Module SamplingFacts.
Import Sampling.

Section Store.
Context {T : Type}.
Implicit Types (h : gmap loc (list T)) (l : list T).

Lemma arr_insert_eq h a l : arr (<[a := l]> h) a = l.
Proof. unfold arr. by rewrite lookup_insert_eq. Qed.

Lemma arr_insert_ne h a b l : a <> b -> arr (<[a := l]> h) b = arr h b.
Proof. intros. unfold arr. by rewrite lookup_insert_ne. Qed.

Lemma alloc_fresh l h : h !! (alloc l h).1 = None.
Proof.
  unfold alloc; simpl. apply not_elem_of_dom. apply is_fresh.
Qed.

Lemma shuffle_loop_arr J s : forall i h,
  arr (shuffle_loop J i s h) s = fy J i (arr h s).
Proof.
  induction i as [|i IH]; intros h; simpl; [done|].
  by rewrite IH, arr_insert_eq.
Qed.

Lemma shuffle_loop_other J s a : a <> s -> forall i h,
  shuffle_loop J i s h !! a = h !! a.
Proof.
  intros Hne. induction i as [|i IH]; intros h; simpl; [done|].
  by rewrite IH, lookup_insert_ne.
Qed.

Lemma shuffled_fy J l : shuffled J l = fy J (length l - 1) l.
Proof.
  unfold shuffled. rewrite shuffle_loop_arr. unfold arr.
  by rewrite lookup_singleton_eq.
Qed.

Lemma swap_length l i j : length (swap l i j) = length l.
Proof.
  unfold swap. destruct (l !! i), (l !! j); try done.
  by rewrite !length_insert.
Qed.

Lemma insert_perm x y : forall l j,
  l !! j = Some y -> y :: <[j := x]> l ≡ₚ x :: l.
Proof.
  induction l as [|z l IH]; intros [|j] H; simpl in *; try done.
  - injection H as ->. apply perm_swap.
  - rewrite (perm_swap z y), (perm_swap z x). f_equiv. by apply IH.
Qed.

Lemma swap_perm l i j : swap l i j ≡ₚ l.
Proof.
  unfold swap.
  destruct (l !! i) as [x|] eqn:Hi; [|done].
  destruct (l !! j) as [y|] eqn:Hj; [|done].
  revert i j Hi Hj. induction l as [|z l IH]; intros [|i] [|j] Hi Hj;
    simpl in *; try done.
  - by simplify_eq.
  - injection Hi as ->. by apply insert_perm.
  - injection Hj as ->. by apply insert_perm.
  - f_equiv. by apply IH.
Qed.

Lemma fy_perm J : forall i l, fy J i l ≡ₚ l.
Proof.
  induction i as [|i IH]; intros l; simpl; [done|].
  by rewrite IH, swap_perm.
Qed.

Lemma fy_length J i l : length (fy J i l) = length l.
Proof. by rewrite (fy_perm J i l). Qed.

End Store.

(** Swapping two lists in step keeps them related position by position. *)
Lemma swap_Forall2 {A B} (R : A -> B -> Prop) la lb i j :
  Forall2 R la lb -> Forall2 R (swap la i j) (swap lb i j).
Proof.
  intros H. unfold swap.
  destruct (la !! i) as [x|] eqn:Hi.
  - destruct (Forall2_lookup_l _ _ _ _ _ H Hi) as (x' & Hi' & Rx). rewrite Hi'.
    destruct (la !! j) as [y|] eqn:Hj.
    + destruct (Forall2_lookup_l _ _ _ _ _ H Hj) as (y' & Hj' & Ry). rewrite Hj'.
      by repeat apply Forall2_insert.
    + assert (lb !! j = None) as ->; [|done].
      apply lookup_ge_None. apply lookup_ge_None in Hj.
      by rewrite <- (Forall2_length _ _ _ H).
  - assert (lb !! i = None) as ->; [|done].
    apply lookup_ge_None. apply lookup_ge_None in Hi.
    by rewrite <- (Forall2_length _ _ _ H).
Qed.

Lemma fy_Forall2 {A B} (R : A -> B -> Prop) J : forall i la lb,
  Forall2 R la lb -> Forall2 R (fy J i la) (fy J i lb).
Proof.
  induction i as [|i IH]; intros la lb H; simpl; [done|].
  by apply IH, swap_Forall2.
Qed.

Lemma seq_positions {T} (l : list T) : forall k,
  Forall2 (fun i x => (k ++ l) !! i = Some x) (seq (length k) (length l)) l.
Proof.
  induction l as [|x l IH]; intros k; simpl; [constructor|].
  constructor.
  - by rewrite list_lookup_middle.
  - specialize (IH (k ++ [x])). rewrite length_app, <- app_assoc in IH.
    simpl in IH. by rewrite Nat.add_1_r in IH.
Qed.

(** The result of the shuffle lists the array at the shuffled positions. *)
Lemma shuffled_positions {T} J (l : list T) :
  Forall2 (fun i x => l !! i = Some x) (shuffled J (seq 0 (length l))) (shuffled J l).
Proof.
  rewrite !shuffled_fy, length_seq. apply fy_Forall2.
  apply (seq_positions l []).
Qed.

Lemma shuffled_perm {T} J (l : list T) : shuffled J l ≡ₚ l.
Proof. rewrite shuffled_fy. apply fy_perm. Qed.

(** *** Every arrangement comes from exactly one sequence of draws *)

Section Draws.
Context {T : Type}.
Implicit Types l p : list T.

Lemma swap_lookup_other l i j k :
  k <> i -> k <> j -> swap l i j !! k = l !! k.
Proof.
  intros Hi Hj. unfold swap.
  destruct (l !! i), (l !! j); try done.
  by rewrite !list_lookup_insert_ne.
Qed.

Lemma swap_lookup_top l i j :
  (i < length l)%nat -> (j < length l)%nat -> swap l i j !! i = l !! j.
Proof.
  intros Hi Hj. unfold swap.
  destruct (lookup_lt_is_Some_2 l i Hi) as [x Hx].
  destruct (lookup_lt_is_Some_2 l j Hj) as [y Hy].
  rewrite Hx, Hy. destruct (decide (i = j)) as [->|Hne].
  - rewrite list_lookup_insert_eq by (by rewrite length_insert). congruence.
  - rewrite list_lookup_insert_ne by done.
    by rewrite list_lookup_insert_eq.
Qed.

Lemma fy_lookup_above J : in_range J -> forall i l k,
  (i < k)%nat -> fy J i l !! k = l !! k.
Proof.
  intros HJ. induction i as [|i IH]; intros l k Hk; simpl; [done|].
  rewrite IH by lia. specialize (HJ (S i)).
  apply swap_lookup_other; lia.
Qed.

Lemma fy_lookup_top J i l :
  in_range J -> (S i < length l)%nat -> fy J (S i) l !! S i = l !! J (S i).
Proof.
  intros HJ Hi. simpl. rewrite fy_lookup_above by (done || lia).
  specialize (HJ (S i)). apply swap_lookup_top; lia.
Qed.

Lemma fy_ext J J' : forall i l,
  (forall k, (0 < k <= i)%nat -> J k = J' k) -> fy J i l = fy J' i l.
Proof.
  induction i as [|i IH]; intros l H; simpl; [done|].
  rewrite (H (S i)) by lia. apply IH. intros k Hk. apply H. lia.
Qed.

Lemma fy_inj J1 J2 : in_range J1 -> in_range J2 -> forall i l,
  NoDup l -> (i < length l)%nat -> fy J1 i l = fy J2 i l ->
  forall k, (0 < k <= i)%nat -> J1 k = J2 k.
Proof.
  intros H1 H2. induction i as [|i IH]; intros l Hnd Hi E k Hk; [lia|].
  assert (Htop : J1 (S i) = J2 (S i)).
  { assert (l !! J1 (S i) = l !! J2 (S i)) as El.
    { by rewrite <- !fy_lookup_top, E. }
    destruct (lookup_lt_is_Some_2 l (J1 (S i))) as [x Hx].
    { specialize (H1 (S i)). lia. }
    eapply NoDup_lookup; [exact Hnd | exact Hx | by rewrite El in Hx]. }
  destruct (decide (k = S i)) as [->|Hne]; [done|].
  simpl in E. rewrite <- Htop in E.
  apply (IH (swap l (S i) (J1 (S i)))); [| | done | lia].
  - by rewrite swap_perm.
  - rewrite swap_length. lia.
Qed.

Lemma fy_surj : forall i l p,
  NoDup l -> p ≡ₚ l -> (i < length l)%nat ->
  (forall k, (i < k)%nat -> p !! k = l !! k) ->
  exists J, in_range J /\ fy J i l = p.
Proof.
  induction i as [|i IH]; intros l p Hnd Hp Hi Hk.
  - exists (fun _ => 0%nat). split; [intros k; lia|]. simpl.
    assert (NoDup p) as Hndp by (by rewrite Hp).
    destruct l as [|y tl]; [simpl in Hi; lia|].
    destruct p as [|x tp]; [by apply Permutation_nil_cons in Hp|].
    assert (tp = tl) as ->.
    { apply list_eq. intros k. apply (Hk (S k)). lia. }
    assert (x ∈ y :: tl) as Hx by (rewrite <- Hp; left).
    apply elem_of_cons in Hx as [->|Hx]; [done|].
    by apply NoDup_cons in Hndp as [? _].
  - assert (NoDup p) as Hndp by (by rewrite Hp).
    assert (length p = length l) as Hlen by (by rewrite Hp).
    destruct (lookup_lt_is_Some_2 p (S i)) as [x Hx]; [lia|].
    assert (x ∈ l) as Hin.
    { rewrite <- Hp. by eapply list_elem_of_lookup_2. }
    apply list_elem_of_lookup in Hin as [j Hj].
    assert (j <= S i)%nat as Hji.
    { destruct (decide (j <= S i)%nat); [done|]. exfalso.
      assert (p !! j = Some x) as Hpj by (rewrite Hk by lia; done).
      pose proof (NoDup_lookup _ _ _ _ Hndp Hpj Hx). lia. }
    destruct (IH (swap l (S i) j) p) as (J' & HJ' & E).
    + by rewrite swap_perm.
    + by rewrite swap_perm.
    + rewrite swap_length. lia.
    + intros k Hki. destruct (decide (k = S i)) as [->|Hne].
      * rewrite swap_lookup_top; [congruence | lia | lia].
      * rewrite swap_lookup_other by lia. apply Hk. lia.
    + exists (fun k => if (k =? S i)%nat then j else J' k). split.
      * intros k. destruct (Nat.eqb_spec k (S i)); [lia | apply HJ'].
      * simpl. rewrite Nat.eqb_refl. rewrite <- E. apply fy_ext.
        intros k Hki. destruct (Nat.eqb_spec k (S i)); [lia | done].
Qed.

End Draws.

Lemma shuffled_surj n p :
  p ≡ₚ seq 0 n -> exists J, in_range J /\ shuffled J (seq 0 n) = p.
Proof.
  intros Hp. destruct n as [|n].
  - apply Permutation_nil_r in Hp as ->. exists (fun _ => 0%nat).
    split; [intros k; lia | done].
  - destruct (fy_surj n (seq 0 (S n)) p) as (J & HJ & E).
    + apply NoDup_seq.
    + done.
    + rewrite length_seq. lia.
    + intros k Hk. rewrite !lookup_ge_None_2; [done | |].
      * rewrite length_seq. lia.
      * rewrite Hp, length_seq. lia.
    + exists J. split; [done|]. rewrite shuffled_fy, length_seq.
      by replace (S n - 1)%nat with n by lia.
Qed.

Lemma shuffled_inj n J1 J2 :
  in_range J1 -> in_range J2 ->
  shuffled J1 (seq 0 n) = shuffled J2 (seq 0 n) ->
  forall i, (0 < i < n)%nat -> J1 i = J2 i.
Proof.
  intros H1 H2 E i Hi. rewrite !shuffled_fy, length_seq in E.
  apply (fy_inj J1 J2 H1 H2 (n - 1) (seq 0 n)); [apply NoDup_seq | | done | lia].
  rewrite length_seq. lia.
Qed.

(** *** [getRandomItems] on the store *)

Lemma shuffle_loop_keeps {T} J s : forall i (h : gmap loc (list T)),
  is_Some (h !! s) -> is_Some (shuffle_loop J i s h !! s).
Proof.
  induction i as [|i IH]; intros h H; simpl; [done|].
  apply IH. rewrite lookup_insert_eq. eauto.
Qed.

Lemma getRandomItems_store {T} J array count (h : gmap loc (list T)) :
  let r := getRandomItems J array count h in
  arr r.2 r.1 = sample J count (arr h array) /\
  (forall a, is_Some (h !! a) -> r.2 !! a = h !! a) /\
  ((length (arr h array) <= count)%nat -> r = (array, h)) /\
  ((count < length (arr h array))%nat ->
     h !! r.1 = None /\ is_Some (r.2 !! r.1)).
Proof.
  intros r. subst r. unfold getRandomItems, sample.
  set (l := arr h array).
  destruct (Nat.leb_spec (length l) count) as [Hle|Hlt].
  { split; [done|]. split; [done|]. split; [done|]. lia. }
  unfold alloc; simpl.
  set (s := fresh (dom h)).
  set (h1 := <[s := l]> h).
  assert (Hs : h !! s = None) by (apply not_elem_of_dom, is_fresh).
  assert (E1 : arr h1 s = l) by apply arr_insert_eq. rewrite E1.
  set (h2 := shuffle_loop J (length l - 1) s h1).
  set (t := fresh (dom h2)).
  assert (Ht : h2 !! t = None) by (apply not_elem_of_dom, is_fresh).
  assert (H2 : forall a, a <> s -> h2 !! a = h !! a).
  { intros a Ha. unfold h2. rewrite shuffle_loop_other by done.
    unfold h1. by rewrite lookup_insert_ne. }
  assert (Harr : arr h2 s = shuffled J l).
  { unfold h2. rewrite shuffle_loop_arr. unfold h1.
    by rewrite arr_insert_eq, shuffled_fy. }
  assert (Hts : t <> s).
  { intros E. rewrite E in Ht.
    destruct (shuffle_loop_keeps J s (length l - 1) h1) as [x Hx].
    - unfold h1. rewrite lookup_insert_eq. eauto.
    - unfold h2 in Ht. congruence. }
  rewrite arr_insert_eq, Harr. split; [done|]. split.
  { intros a [x Ha].
    assert (a <> s) by congruence.
    assert (a <> t) by (intros ->; rewrite H2 in Ht by done; congruence).
    rewrite lookup_insert_ne by done. by apply H2. }
  split; [lia|]. intros _. split.
  - by rewrite <- H2.
  - rewrite lookup_insert_eq. eauto.
Qed.

Lemma sample_nonempty {T} J count (l : list T) :
  (0 < count)%nat -> l <> [] -> sample J count l <> [].
Proof.
  intros Hc Hl. unfold sample.
  destruct (Nat.leb_spec (length l) count) as [Hle|Hlt]; [done|].
  intros E. apply (f_equal length) in E.
  rewrite length_take, (shuffled_perm J l) in E. simpl in E. lia.
Qed.

(** *** Sorting *)

Section Sort.
Context {T : Type} (cmp : T -> T -> number) (key : T -> Z).
Hypothesis cmp_key : forall a b, le_zero (cmp a b) = (key a <=? key b)%Z.

Lemma insert_by_perm x l : insert_by cmp x l ≡ₚ x :: l.
Proof.
  induction l as [|y l IH]; simpl; [done|].
  destruct (le_zero (cmp x y)); [done|].
  by rewrite IH, perm_swap.
Qed.

Lemma sort_by_perm l : sort_by cmp l ≡ₚ l.
Proof.
  induction l as [|x l IH]; simpl; [done|].
  by rewrite insert_by_perm, IH.
Qed.

Lemma insert_by_sorted x l :
  StronglySorted (key_le key) l ->
  StronglySorted (key_le key) (insert_by cmp x l).
Proof.
  induction 1 as [|y l Hs IH Hy]; simpl.
  - repeat constructor.
  - rewrite cmp_key. destruct (Z.leb_spec (key x) (key y)) as [Hc|Hc].
    + constructor; [by constructor|].
      constructor; [unfold key_le; lia|].
      eapply Forall_impl; [exact Hy|]. unfold key_le. intros; simpl in *. lia.
    + constructor; [done|].
      rewrite insert_by_perm. constructor; [unfold key_le; lia | done].
Qed.

Lemma sort_by_sorted l : StronglySorted (key_le key) (sort_by cmp l).
Proof.
  induction l as [|x l IH]; simpl; [constructor|].
  by apply insert_by_sorted.
Qed.

End Sort.

Lemma sortByYear_perm l : sort_by compareYears l ≡ₚ l.
Proof. apply sort_by_perm. Qed.

End SamplingFacts.

(** ** The year of a label *)
Module YearFacts.
Import Sampling RegexFacts SamplingFacts NumberFacts.

#[local] Arguments rmatch : simpl never.

Lemma rmatch_seq r1 r2 k st : rmatch (Seq r1 r2) k st = rmatch r1 (rmatch r2 k) st.
Proof. done. Qed.
Lemma rmatch_eps k st : rmatch Eps k st = k st.
Proof. done. Qed.
Lemma rmatch_lit c k st : rmatch (Lit c) k st = step (N.eqb c) k st.
Proof. done. Qed.
Lemma rmatch_cls cc k st : rmatch (Cls cc) k st = step (cls_mem cc) k st.
Proof. done. Qed.
Lemma rmatch_alt r1 r2 k st :
  rmatch (Alt r1 r2) k st = orelse (rmatch r1 k st) (fun _ => rmatch r2 k st).
Proof. done. Qed.
Lemma rmatch_group i r k st :
  rmatch (Group i r) k st
  = rmatch r (fun st' =>
      k (set_cap i (take (m_pos st' - m_pos st) (m_rest st)) st')) st.
Proof. done. Qed.
Lemma rmatch_bol k s caps : rmatch Bol k (MState 0 s caps) = k (MState 0 s caps).
Proof. done. Qed.

Lemma digit_not c d : is_digit d = true -> (57 < c) -> (c =? d) = false.
Proof.
  unfold is_digit. intros H Hc. apply andb_true_iff in H as [_ H].
  apply N.leb_le in H. apply N.eqb_neq. lia.
Qed.

(** \d+ in a group, on a numeral followed by something that is not a
    digit and that the continuation accepts. *)
Lemma digits_group i k pos d ds tail caps fin :
  is_digit d = true -> Forall (fun c => is_digit c = true) ds ->
  match tail with [] => True | c :: _ => is_digit c = false end ->
  k (set_cap i (d :: ds) (MState (S (pos + length ds)) tail caps)) = Some fin ->
  rmatch (Group i (plus true (Cls CDigit))) k (MState pos (d :: ds ++ tail) caps)
  = Some fin.
Proof.
  intros Hd Hds Htail Hk. unfold plus.
  rewrite rmatch_group, rmatch_seq, rmatch_cls. unfold step; simpl. rewrite Hd.
  rewrite rmatch_star_cls.
  apply greedy_cls_run; [done | | done]. simpl.
  replace (S (pos + length ds) - pos)%nat with (S (length ds)) by lia.
  simpl. rewrite take_app_length.
  by replace (S pos + length ds)%nat with (S (pos + length ds)) by lia.
Qed.

Lemma year_tail_nondigit tail :
  year_tail tail -> match tail with [] => True | c :: _ => is_digit c = false end.
Proof. by destruct 1. Qed.

Lemma year_tail_match tail pos caps :
  year_tail tail ->
  exists fin, rmatch (Seq (opt (lit (u "年"))) (Seq (Lit (ch ":")) Eps)) Some
                (MState pos tail caps) = Some fin /\ m_caps fin = caps.
Proof. destruct 1; eexists; (split; [reflexivity | done]). Qed.

Lemma adRe_numeral d ds tail :
  is_digit d = true -> Forall (fun c => is_digit c = true) ds -> year_tail tail ->
  exists fin, search adRe (d :: ds ++ tail) = Some fin /\ group 1 fin = d :: ds.
Proof.
  intros Hd Hds Ht.
  destruct (year_tail_match tail (S (0 + length ds)) [(1%nat, d :: ds)] Ht)
    as (fin & Hfin & Hcaps).
  exists fin. split.
  - change adRe with (Seq Bol (Seq (Group 1 (plus true (Cls CDigit)))
      (Seq (opt (lit (u "年"))) (Seq (Lit (ch ":")) Eps)))).
    rewrite search_bol. unfold match_at.
    rewrite rmatch_seq, rmatch_bol, rmatch_seq.
    apply digits_group; [done | done | by apply year_tail_nondigit | exact Hfin].
  - unfold group, cap. by rewrite Hcaps.
Qed.

Lemma bcRe_eq :
  bcRe = Seq Bol (Seq (Seq (Lit 32000) (Seq (Lit 20803) (Seq (Lit 21069) Eps)))
           (Seq (Group 1 (plus true (Cls CDigit)))
             (Seq (opt (lit (u "年"))) (Seq (Lit (ch ":")) Eps)))).
Proof. reflexivity. Qed.

Lemma bcRe_numeral d ds tail :
  is_digit d = true -> Forall (fun c => is_digit c = true) ds -> year_tail tail ->
  exists fin, search bcRe (u "紀元前" ++ d :: ds ++ tail) = Some fin /\
              group 1 fin = d :: ds.
Proof.
  intros Hd Hds Ht.
  destruct (year_tail_match tail (S (3 + length ds)) [(1%nat, d :: ds)] Ht)
    as (fin & Hfin & Hcaps).
  exists fin. split.
  - rewrite bcRe_eq, search_bol. unfold match_at.
    change (u "紀元前" ++ d :: ds ++ tail)
      with (32000 :: 20803 :: 21069 :: d :: ds ++ tail).
    rewrite rmatch_seq, rmatch_bol, rmatch_seq.
    do 3 (rewrite rmatch_seq, rmatch_lit; unfold step; simpl).
    rewrite rmatch_eps, rmatch_seq.
    apply digits_group; [done | done | by apply year_tail_nondigit | exact Hfin].
  - unfold group, cap. by rewrite Hcaps.
Qed.

Lemma bcRe_digit_first d s : is_digit d = true -> search bcRe (d :: s) = None.
Proof.
  intros Hd.
  rewrite bcRe_eq, search_bol. unfold match_at.
  rewrite rmatch_seq, rmatch_bol, !rmatch_seq, rmatch_lit.
  unfold step; cbn [m_rest].
  by rewrite (digit_not 32000 d Hd).
Qed.

Lemma take_digits_all ds :
  Forall (fun c => is_digit c = true) ds -> take_digits ds = ds.
Proof. induction 1 as [|d ds Hd _ IH]; simpl; [done|]. by rewrite Hd, IH. Qed.

(** A label that starts with a numeral and [年?:] has the year of the
    numeral, found by the second pattern. *)
Lemma extractYear_ad d ds tail :
  is_digit d = true -> Forall (fun c => is_digit c = true) ds -> year_tail tail ->
  extractYear (d :: ds ++ tail) = parseInt (d :: ds).
Proof.
  intros Hd Hds Ht. unfold extractYear.
  rewrite (bcRe_digit_first d _ Hd).
  destruct (adRe_numeral d ds tail Hd Hds Ht) as (fin & -> & ->). done.
Qed.

(** With the before-epoch prefix the year is the negated numeral. *)
Lemma extractYear_bc d ds tail :
  is_digit d = true -> Forall (fun c => is_digit c = true) ds -> year_tail tail ->
  extractYear (u "紀元前" ++ d :: ds ++ tail) = nneg (parseInt (d :: ds)).
Proof.
  intros Hd Hds Ht. unfold extractYear.
  destruct (bcRe_numeral d ds tail Hd Hds Ht) as (fin & -> & ->). done.
Qed.

(** What the two patterns capture is a numeral. *)
Lemma adRe_capture item m :
  search adRe item = Some m ->
  exists d ds, is_digit d = true /\ group 1 m = d :: ds.
Proof.
  intros H. apply search_some in H as (pre & t & _ & H).
  apply match_at_sound in H.
  change adRe with (Seq Bol (Seq (Group 1 (plus true (Cls CDigit)))
      (Seq (opt (lit (u "年"))) (Seq (Lit (ch ":")) Eps)))) in H.
  apply matches_seq_inv in H as (a1 & _ & H).
  apply matches_seq_inv in H as (a2 & Hg & Hrest).
  apply plus_cls_capture in Hg as (d & ds & Hd & _ & Hcap & _).
  exists d, ds. split; [done|].
  unfold group. rewrite (matches_cap_other _ _ _ 1%nat Hrest), Hcap; [done|].
  vm_compute. tauto.
Qed.

Lemma bcRe_capture item m :
  search bcRe item = Some m ->
  exists d ds, is_digit d = true /\ group 1 m = d :: ds.
Proof.
  intros H. apply search_some in H as (pre & t & _ & H).
  apply match_at_sound in H. rewrite bcRe_eq in H.
  apply matches_seq_inv in H as (a1 & _ & H).
  apply matches_seq_inv in H as (a2 & _ & H).
  apply matches_seq_inv in H as (a3 & Hg & Hrest).
  apply plus_cls_capture in Hg as (d & ds & Hd & _ & Hcap & _).
  exists d, ds. split; [done|].
  unfold group. rewrite (matches_cap_other _ _ _ 1%nat Hrest), Hcap; [done|].
  vm_compute. tauto.
Qed.

(** The year of a label is a double, never NaN. *)
Lemma extractYear_key item : is_key (extractYear item).
Proof.
  unfold extractYear. destruct (search bcRe item) as [m|] eqn:Hb.
  - apply bcRe_capture in Hb as (d & ds & Hd & ->).
    apply nneg_key. by apply parseInt_numeral.
  - destruct (search adRe item) as [m|] eqn:Ha.
    + apply adRe_capture in Ha as (d & ds & Hd & ->). by apply parseInt_numeral.
    + simpl. pose proof pow1024_pos. remember (2 ^ 1024)%Z as M. lia.
Qed.

Lemma compareYears_rank a b :
  le_zero (compareYears a b) = (year_rank a <=? year_rank b)%Z.
Proof. apply nsub_rank; apply extractYear_key. Qed.

Lemma year_le_rank a b : year_le a b <-> (year_rank a <= year_rank b)%Z.
Proof.
  unfold year_le. rewrite nleb_rank by apply extractYear_key.
  apply Z.leb_le.
Qed.

Lemma sortByYear_sorted l : StronglySorted year_le (sort_by compareYears l).
Proof.
  pose proof (sort_by_sorted compareYears year_rank compareYears_rank l) as H.
  induction H as [|x t _ IH Hx]; constructor; [done|].
  eapply Forall_impl; [exact Hx|]. intros y Hy. by apply year_le_rank.
Qed.

End YearFacts.

(** ** Chronological ordering *)
Module Ordering.
Import Sampling SamplingFacts NumberFacts YearFacts RegexFacts.

Lemma extractYear_no_year c s :
  is_digit c = false -> c <> ki -> extractYear (c :: s) = Num 0.
Proof.
  unfold ki. intros Hc Hk. unfold extractYear.
  assert (search bcRe (c :: s) = None) as ->.
  { rewrite bcRe_eq, search_bol. unfold match_at.
    rewrite rmatch_seq, rmatch_bol, !rmatch_seq, rmatch_lit.
    unfold step; cbn [m_rest].
    by assert ((32000 =? c) = false) as -> by (apply N.eqb_neq; congruence). }
  assert (search adRe (c :: s) = None) as ->; [|done].
  change adRe with (Seq Bol (Seq (Group 1 (plus true (Cls CDigit)))
      (Seq (opt (lit (u "年"))) (Seq (Lit (ch ":")) Eps)))).
  rewrite search_bol. unfold match_at, plus.
  rewrite rmatch_seq, rmatch_bol, rmatch_seq, rmatch_group, rmatch_seq, rmatch_cls.
  unfold step; cbn [m_rest cls_mem]. by rewrite Hc.
Qed.

(** C2, as the code has it.  [sortByYear] returns its argument, whose
    content is then the former content arranged in ascending order of the
    year [extractYear] reads from each label, no other array being
    touched.  The year is a double: the one nearest to the number the
    numeral denotes (that number itself below 2^53), not negative for a
    label that starts with a numeral and [年?:], its opposite (negative or
    zero) for a label that starts with 紀元前, a numeral and [年?:], and
    zero for a label neither pattern matches (in particular one that
    starts with neither a digit nor 紀).  The three labels of the example
    come out in the order B (-500), C (5), A (1990). *)
Theorem sortByYear_chronological (items : loc) (h : gmap loc (list str)) :
  let r := sortByYear items h in
  r.1 = items /\
  arr r.2 items ≡ₚ arr h items /\
  StronglySorted year_le (arr r.2 items) /\
  (forall a, a <> items -> r.2 !! a = h !! a) /\
  (forall d ds tail,
     is_digit d = true -> Forall (fun c => is_digit c = true) ds ->
     year_tail tail ->
     extractYear (u "紀元前" ++ d :: ds ++ tail) = nneg (parseInt (d :: ds)) /\
     extractYear (d :: ds ++ tail) = parseInt (d :: ds) /\
     parseInt (d :: ds) = to_number (mathInt (d :: ds)) /\
     ((mathInt (d :: ds) < 2 ^ 53)%Z ->
      parseInt (d :: ds) = Num (mathInt (d :: ds))) /\
     nleb (Num 0) (extractYear (d :: ds ++ tail)) = true /\
     nleb (extractYear (u "紀元前" ++ d :: ds ++ tail)) (Num 0) = true) /\
  (forall item, search bcRe item = None -> search adRe item = None ->
     extractYear item = Num 0) /\
  (forall c s, is_digit c = false -> c <> ki -> extractYear (c :: s) = Num 0) /\
  (arr h items = [u "1990年: A"; u "紀元前500年: B"; u "5年: C"] ->
     arr r.2 items = [u "紀元前500年: B"; u "5年: C"; u "1990年: A"] /\
     map extractYear (arr r.2 items) = [Num (-500); Num 5; Num 1990]).
Proof.
  intros r. subst r. unfold sortByYear; simpl. rewrite arr_insert_eq.
  split; [done|]. split; [apply sortByYear_perm|].
  split; [apply sortByYear_sorted|].
  split; [intros a Ha; by rewrite lookup_insert_ne|].
  split.
  { intros d ds tail Hd Hds Ht.
    destruct (parseInt_numeral d ds Hd) as (Hp & Hk & Hr & Hn & He).
    pose proof (extractYear_bc d ds tail Hd Hds Ht) as Hbc.
    pose proof (extractYear_ad d ds tail Hd Hds Ht) as Had.
    assert (forall x, x = parseInt (d :: ds) -> nleb (Num 0) x = true) as Gad
      by (by intros x ->).
    assert (forall x, x = nneg (parseInt (d :: ds)) ->
                      nleb x (Num 0) = true) as Gbc.
    { intros x ->. rewrite nleb_rank; [| by apply nneg_key |].
      - rewrite nneg_rank. apply Z.leb_le. change (rank (Num 0)) with 0%Z. lia.
      - simpl. pose proof pow1024_pos. remember (2 ^ 1024)%Z as M. lia. }
    split; [exact Hbc|]. split; [exact Had|]. split; [exact Hp|].
    split; [exact He|]. split; [exact (Gad _ Had) | exact (Gbc _ Hbc)]. }
  split. { intros item Hb Ha. unfold extractYear. by rewrite Hb, Ha. }
  split; [apply extractYear_no_year|].
  intros ->. split; by vm_compute.
Qed.

Lemma sortByYear_chronological_witness :
  let h : gmap loc (list str) :=
    {[ 0%nat := [u "1990年: A"; u "紀元前500年: B"; u "5年: C"] ]} in
  arr (sortByYear 0%nat h).2 0%nat
  = [u "紀元前500年: B"; u "5年: C"; u "1990年: A"].
Proof.
  intros h.
  destruct (sortByYear_chronological 0%nat h) as (_ & _ & _ & _ & _ & _ & _ & H).
  apply H. reflexivity.
Defined.

End Ordering.

(** ** Random subset selection *)
Module Selection.
Import Sampling SamplingFacts.

(** C3.  When the array has at most [count] elements, [getRandomItems]
    returns the array itself and leaves the store as it is.  Otherwise it
    returns a new array of exactly [count] elements, the first [count] of
    the shuffled copy, which is a permutation of the array; they are the
    elements at [count] distinct positions of the array.  In both cases
    every array that existed before, the argument included, is unchanged.
    The shuffle is unbiased: each arrangement of the positions is the
    outcome of one and only one sequence of draws, so that equally likely
    draws make the arrangements equally likely. *)
Theorem getRandomItems_sample {T} (J : nat -> nat) (array : loc) (count : nat)
    (h : gmap loc (list T)) :
  in_range J ->
  let l := arr h array in
  let r := getRandomItems J array count h in
  (forall a, is_Some (h !! a) -> r.2 !! a = h !! a) /\
  ((length l <= count)%nat -> r = (array, h)) /\
  ((count < length l)%nat ->
     h !! r.1 = None /\
     length (arr r.2 r.1) = count /\
     arr r.2 r.1 = take count (shuffled J l) /\
     shuffled J l ≡ₚ l /\
     drawn_from l (take count (shuffled J (seq 0 (length l)))) (arr r.2 r.1)) /\
  (forall p, p ≡ₚ seq 0 (length l) ->
     exists J', in_range J' /\ shuffled J' (seq 0 (length l)) = p) /\
  (forall J', in_range J' ->
     shuffled J' (seq 0 (length l)) = shuffled J (seq 0 (length l)) ->
     forall i, (0 < i < length l)%nat -> J' i = J i).
Proof.
  intros HJ l r.
  cut ((forall a, is_Some (h !! a) -> r.2 !! a = h !! a) /\
       ((length l <= count)%nat -> r = (array, h)) /\
       ((count < length l)%nat ->
          h !! r.1 = None /\
          length (arr r.2 r.1) = count /\
          arr r.2 r.1 = take count (shuffled J l) /\
          shuffled J l ≡ₚ l /\
          drawn_from l (take count (shuffled J (seq 0 (length l))))
                     (arr r.2 r.1))).
  { intros (A & B & C). repeat split; try done.
    - by apply C.
    - by apply C.
    - by apply C.
    - by apply C.
    - by apply C.
    - by apply C.
    - apply shuffled_surj.
    - intros J' HJ' E. by apply shuffled_inj. }
  subst r. fold l.
  destruct (getRandomItems_store J array count h) as (Harr & Hsame & Hle & Hlt).
  fold l in Harr, Hle, Hlt.
  split; [exact Hsame|]. split; [exact Hle|]. intros Hc.
  destruct (Hlt Hc) as [Hfresh _]. split; [exact Hfresh|].
  assert (sample J count l = take count (shuffled J l)) as Es.
  { unfold sample. destruct (Nat.leb_spec (length l) count); [lia | done]. }
  rewrite Harr, Es.
  split. { rewrite length_take, (shuffled_perm J l). lia. }
  split; [done|]. split; [apply shuffled_perm|].
  split.
  - assert (NoDup (take count (shuffled J (seq 0 (length l)))
                   ++ drop count (shuffled J (seq 0 (length l))))) as Hnd.
    { rewrite take_drop, shuffled_perm. apply NoDup_seq. }
    by apply NoDup_app in Hnd as [? _].
  - apply Forall2_take, shuffled_positions.
Qed.

Lemma getRandomItems_sample_witness :
  let h : gmap loc (list nat) := {[ 0%nat := [10; 11; 12; 13; 14; 15; 16]%nat ]} in
  let r := getRandomItems (fun i => i / 2)%nat 0%nat 3 h in
  arr r.2 0%nat = [10; 11; 12; 13; 14; 15; 16]%nat /\ length (arr r.2 r.1) = 3%nat.
Proof.
  intros h r.
  assert (HJ : in_range (fun i => i / 2)%nat).
  { intros i. apply Nat.Div0.div_le_upper_bound; lia. }
  destruct (getRandomItems_sample (fun i => i / 2)%nat 0%nat 3 h HJ)
    as (Hsame & _ & Hbig & _).
  split.
  - unfold arr. fold r. rewrite Hsame; [reflexivity | by eexists].
  - apply Hbig. vm_compute. lia.
Defined.

End Selection.

(** ** Aggregation, presentation and the run *)
Module BotFacts.
Import WikiParser Sampling SamplingFacts Bot.

Lemma truthy_idem o : truthy (truthy o) = truthy o.
Proof. by destruct o as [[|c s]|]. Qed.

Lemma fetchBirthFlower_truthy w : truthy (fetchBirthFlower w) = fetchBirthFlower w.
Proof. unfold fetchBirthFlower. destruct (w_flower w); [apply truthy_idem | done]. Qed.

(** Sampling one array and then the other, and sorting each result in
    place, never lets the two lists interfere, although the short ones are
    sorted in the parser's own arrays. *)
Lemma sample_sort_store (J1 J2 : nat -> nat) (l1 l2 : list str) :
  let '(a1, h) := alloc l1 ∅ in
  let '(a2, h) := alloc l2 h in
  let '(r1, h) := getRandomItems J1 a1 5 h in
  let '(r2, h) := getRandomItems J2 a2 5 h in
  let '(s1, h) := sortByYear r1 h in
  let '(s2, h) := sortByYear r2 h in
  arr h s1 = sort_by compareYears (sample J1 5 l1) /\
  arr h s2 = sort_by compareYears (sample J2 5 l2).
Proof.
  unfold alloc at 1. set (a1 := fresh (dom (∅ : gmap loc (list str)))).
  set (h1 := <[a1 := l1]> (∅ : gmap loc (list str))).
  unfold alloc at 1. set (a2 := fresh (dom h1)). set (h2 := <[a2 := l2]> h1).
  assert (Ha2 : h1 !! a2 = None) by (apply not_elem_of_dom, is_fresh).
  assert (Ha1 : h1 !! a1 = Some l1) by (unfold h1; by rewrite lookup_insert_eq).
  assert (Hne : a1 <> a2) by congruence.
  assert (H21 : h2 !! a1 = Some l1) by (unfold h2; by rewrite lookup_insert_ne).
  assert (H22 : h2 !! a2 = Some l2) by (unfold h2; by rewrite lookup_insert_eq).
  destruct (getRandomItems_store J1 a1 5 h2) as (A1 & S1 & L1 & G1).
  destruct (getRandomItems J1 a1 5 h2) as [r1 h3] eqn:E1. simpl in *.
  assert (arr h2 a1 = l1) as X1 by (unfold arr; by rewrite H21).
  rewrite X1 in *.
  assert (H32 : h3 !! a2 = Some l2) by (rewrite S1; eauto).
  assert (Hr1 : is_Some (h3 !! r1) /\ r1 <> a2).
  { destruct (Nat.le_gt_cases (length l1) 5) as [Hc|Hc].
    - injection (L1 Hc) as -> ->. split; [eauto | done].
    - destruct (G1 Hc) as [F I]. split; [done|]. congruence. }
  destruct Hr1 as [[x1 Hx1] Hr1].
  destruct (getRandomItems_store J2 a2 5 h3) as (A2 & S2 & L2 & G2).
  destruct (getRandomItems J2 a2 5 h3) as [r2 h4] eqn:E2. simpl in *.
  assert (arr h3 a2 = l2) as X2 by (unfold arr; by rewrite H32).
  rewrite X2 in *.
  assert (Hr2 : r2 <> r1).
  { destruct (Nat.le_gt_cases (length l2) 5) as [Hc|Hc].
    - injection (L2 Hc) as -> ->. done.
    - destruct (G2 Hc) as [F I]. congruence. }
  assert (H41 : arr h4 r1 = sample J1 5 l1).
  { rewrite <- A1. unfold arr. rewrite S2; eauto. }
  unfold sortByYear.
  rewrite arr_insert_eq, (arr_insert_ne _ r2 r1) by done.
  rewrite arr_insert_eq, (arr_insert_ne _ r1 r2) by congruence.
  by rewrite H41, A2.
Qed.

(** The digest of a run whose primary fetch returned. *)
Lemma fetchTodayInfo_digest w html :
  w_php w = Returns html ->
  fetchTodayInfo w = Some
    {| date := getTodayDisplayString w;
       events := PhpParser.parsePhpTodayInfo (getTodayDisplayString w) html;
       historical := sort_by compareYears
         (sample (w_rand1 w) 5 (wi_historical (fetchWikipediaInfo w)));
       births := sort_by compareYears
         (sample (w_rand2 w) 5 (wi_births (fetchWikipediaInfo w)));
       birthFlower := fetchBirthFlower w |}.
Proof.
  intros Hphp. unfold fetchTodayInfo. rewrite Hphp.
  pose proof (sample_sort_store (w_rand1 w) (w_rand2 w)
    (wi_historical (fetchWikipediaInfo w)) (wi_births (fetchWikipediaInfo w))) as H.
  destruct (alloc (wi_historical (fetchWikipediaInfo w)) ∅) as [a1 h1].
  destruct (alloc (wi_births (fetchWikipediaInfo w)) h1) as [a2 h2].
  destruct (getRandomItems (w_rand1 w) a1 5 h2) as [r1 h3].
  destruct (getRandomItems (w_rand2 w) a2 5 h3) as [r2 h4].
  destruct (sortByYear r1 h4) as [s1 h5].
  destruct (sortByYear r2 h5) as [s2 h6].
  destruct H as [-> ->]. by rewrite fetchBirthFlower_truthy.
Qed.

Lemma sort_by_nonempty (l : list str) : l <> [] -> sort_by compareYears l <> [].
Proof.
  intros Hl E. apply Hl. apply Permutation_nil_r.
  by rewrite <- (sortByYear_perm l), E.
Qed.

Lemma fold_left_lines (f : str -> str) : forall items message,
  fold_left (fun message item => message ++ f item) items message
  = message ++ concat (map f items).
Proof.
  induction items as [|x items IH]; intros message; simpl.
  - by rewrite app_nil_r.
  - by rewrite IH, <- app_assoc.
Qed.

Lemma addSection_text header items message :
  addSection header items message = message ++ sectionText header items.
Proof.
  unfold addSection, sectionText. destruct items as [|x items]; simpl length.
  - by rewrite app_nil_r.
  - cbn [Nat.ltb Nat.leb].
    rewrite (fold_left_lines bulletLine).
    by rewrite <- !app_assoc.
Qed.

Lemma addFlower_text flower message :
  addFlower flower message = message ++ flowerText flower.
Proof.
  unfold addFlower, flowerText, bulletLine.
  destruct flower as [[|c f]|]; simpl truthy; rewrite ?app_nil_r; [done| |done].
  by rewrite <- !app_assoc.
Qed.

Lemma sectionText_take header items :
  sectionText header (take 5 items) = sectionText header items.
Proof.
  destruct items as [|x items]; [done|].
  unfold sectionText. rewrite take_take. done.
Qed.

Lemma formatSlackMessage_text info :
  formatSlackMessage info
  = titleText (date info)
    ++ sectionText (u "🎉 *記念日・行事・お祭り*") (events info)
    ++ sectionText (u "🏛️ *歴史上の出来事*") (historical info)
    ++ sectionText (u "🎂 *今日の誕生日*") (births info)
    ++ flowerText (birthFlower info)
    ++ footer.
Proof.
  unfold formatSlackMessage.
  rewrite addFlower_text, !addSection_text.
  unfold titleText. by rewrite <- !app_assoc.
Qed.

(** C9.  The message is the title, then the sections of the anniversaries,
    the historical events and the births in that order, then the flower,
    then the attribution footer: an empty line and the line
    [_Powered by php.co.jp, Wikipedia & whatistoday.cyou_], with which
    every message ends.  The section of a category without entries is
    empty (no header, no line), and so is the flower section without a
    flower; the section of a category with entries is its header and one
    line for each of its first five entries, so that the message is the
    one of the digest cut to five entries per list. *)
Theorem formatSlackMessage_sections (info : TodayInfo) :
  formatSlackMessage info
  = titleText (date info)
    ++ sectionText (u "🎉 *記念日・行事・お祭り*") (events info)
    ++ sectionText (u "🏛️ *歴史上の出来事*") (historical info)
    ++ sectionText (u "🎂 *今日の誕生日*") (births info)
    ++ flowerText (birthFlower info)
    ++ nl ++ u "_Powered by php.co.jp, Wikipedia & whatistoday.cyou_" /\
  (exists body,
     formatSlackMessage info
     = body ++ nl ++ u "_Powered by php.co.jp, Wikipedia & whatistoday.cyou_") /\
  (forall header, sectionText header [] = []) /\
  flowerText None = [] /\
  (forall header item items,
     sectionText header (item :: items)
     = header ++ nl ++ concat (map bulletLine (take 5 (item :: items))) ++ nl /\
     (length (take 5 (item :: items)) <= 5)%nat) /\
  formatSlackMessage info = formatSlackMessage (capped info).
Proof.
  split; [apply formatSlackMessage_text|].
  split.
  { exists (titleText (date info)
      ++ sectionText (u "🎉 *記念日・行事・お祭り*") (events info)
      ++ sectionText (u "🏛️ *歴史上の出来事*") (historical info)
      ++ sectionText (u "🎂 *今日の誕生日*") (births info)
      ++ flowerText (birthFlower info)).
    rewrite formatSlackMessage_text. unfold footer.
    rewrite <- !app_assoc. reflexivity. }
  split; [done|]. split; [done|].
  split. { intros header item items. split; [done|]. rewrite length_take. lia. }
  rewrite !formatSlackMessage_text. unfold capped; simpl.
  by rewrite !sectionText_take.
Qed.

Lemma posts_app t1 t2 : posts (t1 ++ t2) = posts t1 ++ posts t2.
Proof. apply omap_app. Qed.

Lemma postToSlack_throws w message t url e :
  truthy (w_webhook w) = Some url ->
  w_slack w (length (posts t)) = Throws e ->
  postToSlack w message t = (Some e, (t ++ [Post message]) ++ [Log LogSlackError]).
Proof. intros Hurl Hs. unfold postToSlack. by rewrite Hurl, Hs. Qed.

(** A post with a configured webhook sends exactly its message. *)
Lemma postToSlack_posts w message t url :
  truthy (w_webhook w) = Some url ->
  posts (postToSlack w message t).2 = posts t ++ [message].
Proof.
  intros Hurl. unfold postToSlack. rewrite Hurl.
  destruct (w_slack w (length (posts t))) as [[code text]|e]; simpl.
  - destruct (code =? 200)%nat; simpl; rewrite !posts_app; simpl;
      by rewrite ?app_nil_r.
  - rewrite !posts_app; simpl. by rewrite ?app_nil_r.
Qed.

Lemma main_php_throws w e :
  w_php w = Throws e -> main w = [Log LogStart; Log LogNoInfo].
Proof. intros H. unfold main, fetchTodayInfo. by rewrite H. Qed.

(** C7, as the code has it.  When the primary fetch throws,
    [fetchTodayInfo] catches the exception and returns no digest, and
    [main] logs that and returns: nothing at all reaches the messaging
    sink, not even an error notice.  The notice is what [main] sends when
    an exception reaches its own handler: when the post of the digest
    fails, the posts of the run are the digest and then the notice. *)
Theorem primary_failure_posts_nothing (w : World) (e : str) :
  w_php w = Throws e ->
  fetchTodayInfo w = None /\
  main w = [Log LogStart; Log LogNoInfo] /\
  posts (main w) = [] /\
  (forall w' info url e',
     fetchTodayInfo w' = Some info ->
     truthy (w_webhook w') = Some url ->
     w_slack w' 0%nat = Throws e' ->
     posts (main w') = [formatSlackMessage info; errorNotice e']).
Proof.
  intros H. split; [unfold fetchTodayInfo; by rewrite H|].
  split; [by apply (main_php_throws w e)|].
  split; [by rewrite (main_php_throws w e)|].
  intros w' info url e' Hinfo Hurl Hslack.
  unfold main. rewrite Hinfo.
  rewrite (postToSlack_throws w' _ ([Log LogStart] ++ [Log LogMessage]) url e' Hurl Hslack).
  unfold reportError.
  destruct (postToSlack w' _ _) as [[err|] t] eqn:E;
    apply (f_equal (fun p => posts p.2)) in E;
    rewrite (postToSlack_posts w' _ _ url Hurl) in E; simpl in E;
    rewrite ?posts_app, <- E; reflexivity.
Qed.

Lemma primary_failure_posts_nothing_witness :
  w_php world_primary_down = Throws (u "Exception: Address unavailable") /\
  posts (main world_primary_down) = [].
Proof.
  split; [reflexivity|].
  apply (primary_failure_posts_nothing world_primary_down
           (u "Exception: Address unavailable")).
  reflexivity.
Defined.

(** C7 as the specification states it fails: with the primary source down
    and the sink working, no error notice is sent. *)
Lemma primary_failure_sends_no_notice :
  (exists e, w_php world_primary_down = Throws e) /\
  ~ (exists notice, posts (main world_primary_down) = [notice]).
Proof.
  split; [by eexists|]. intros [notice H]. vm_compute in H. discriminate.
Qed.

(** C8.  When the flower lookup throws or has no flower in its answer,
    and the primary fetch returned, the run still produces a digest: its
    anniversaries, historical events and births are those of the same run
    with any other answer of the flower endpoint, it has no flower, and a
    list whose source yielded records is not empty.  The run goes on to
    post that digest. *)
Theorem flower_failure_keeps_digest (w : World) (html : str) :
  w_php w = Returns html ->
  flower_fails (w_flower w) ->
  exists info,
    fetchTodayInfo w = Some info /\
    birthFlower info = None /\
    events info = PhpParser.parsePhpTodayInfo (getTodayDisplayString w) html /\
    (forall f, exists info',
       fetchTodayInfo (with_flower w f) = Some info' /\
       events info' = events info /\
       historical info' = historical info /\
       births info' = births info) /\
    (wi_historical (fetchWikipediaInfo w) <> [] -> historical info <> []) /\
    (wi_births (fetchWikipediaInfo w) <> [] -> births info <> []) /\
    (forall url, truthy (w_webhook w) = Some url ->
       exists later, posts (main w) = formatSlackMessage info :: later).
Proof.
  intros Hphp Hf. eexists. split; [by apply fetchTodayInfo_digest|]. simpl.
  split.
  { unfold fetchBirthFlower.
    destruct Hf as [[e ->] | [-> | ->]]; reflexivity. }
  split; [done|]. split.
  { intros f. eexists. split.
    - by apply (fetchTodayInfo_digest (with_flower w f) html).
    - done. }
  split. { intros H. apply sort_by_nonempty, sample_nonempty; [lia | done]. }
  split. { intros H. apply sort_by_nonempty, sample_nonempty; [lia | done]. }
  intros url Hurl. unfold main.
  rewrite (fetchTodayInfo_digest w html Hphp).
  set (info := {| date := _ |}).
  destruct (postToSlack w (formatSlackMessage info) _) as [[err|] t] eqn:E;
    apply (f_equal (fun p => posts p.2)) in E;
    rewrite (postToSlack_posts w _ _ url Hurl) in E; simpl in E.
  - unfold reportError.
    destruct (postToSlack w _ _) as [[err2|] t2] eqn:E2;
      apply (f_equal (fun p => posts p.2)) in E2;
      rewrite (postToSlack_posts w _ _ url Hurl) in E2; simpl in E2;
      rewrite ?posts_app, <- E2, posts_app, <- E; simpl; eauto.
  - rewrite posts_app, <- E. simpl. eauto.
Qed.

Lemma flower_failure_keeps_digest_witness :
  exists info,
    fetchTodayInfo world_flower_down = Some info /\
    birthFlower info = None /\
    historical info <> [] /\ births info <> [].
Proof.
  destruct (flower_failure_keeps_digest world_flower_down
    (u "<h2>記念日・行事・お祭り</h2><p>●帽子の日,●健康ハートの日</p><h2>歴史上の出来事</h2>"))
    as (info & H1 & H2 & _ & _ & H3 & H4 & _).
  - reflexivity.
  - left. by eexists.
  - exists info. split; [done|]. split; [done|]. split.
    + apply H3. by vm_compute.
    + apply H4. by vm_compute.
Defined.

End BotFacts.

(** ** The wiki parser, line by line *)
Module ParserFacts.
Import Cleaner WikiParser.

Lemma str_eqb_true a b : str_eqb a b = true <-> a = b.
Proof. unfold str_eqb. apply bool_decide_eq_true. Qed.

Lemma str_eqb_false a b : str_eqb a b = false <-> a <> b.
Proof. unfold str_eqb. apply bool_decide_eq_false. Qed.

Lemma cleanWikiText_nil : cleanWikiText [] = [].
Proof. reflexivity. Qed.

Lemma eventKept_false event :
  eventKept event = false <->
  event = [] \/ includes (u "Image:") event = true \/
  includes (u "File:") event = true \/
  includes (u "multiple image") event = true \/
  includes (u "{{") event = true \/
  (length event < 11)%nat \/ (149 < length event)%nat.
Proof.
  unfold eventKept.
  destruct (str_eqb event []) eqn:E0.
  { apply str_eqb_true in E0. simpl. tauto. }
  apply str_eqb_false in E0.
  destruct (includes (u "Image:") event); [simpl; tauto|].
  destruct (includes (u "File:") event); [simpl; tauto|].
  destruct (includes (u "multiple image") event); [simpl; tauto|].
  destruct (includes (u "{{") event); [simpl; tauto|].
  cbn [negb andb].
  destruct (Nat.ltb_spec 10 (length event)), (Nat.ltb_spec (length event) 150);
    cbn [andb]; split; try done; try (intros _; lia);
    intros [?|[?|[?|[?|[?|[?|?]]]]]]; try done; lia.
Qed.

Lemma personKept_false person :
  personKept person = false <->
  person = [] \/ (length person < 2)%nat \/ (49 < length person)%nat.
Proof.
  unfold personKept.
  destruct (str_eqb person []) eqn:E0.
  { apply str_eqb_true in E0. simpl. tauto. }
  apply str_eqb_false in E0. cbn [negb andb].
  destruct (Nat.ltb_spec 1 (length person)), (Nat.ltb_spec (length person) 50);
    cbn [andb]; split; try done; try (intros _; lia);
    intros [?|[?|?]]; try done; lia.
Qed.

(** C5, as the code has it.  A line that the event grammar matches pushes
    no record exactly when its cleaned body is empty, contains [Image:],
    [File:], [multiple image] or [{{], or has a length outside [11, 149].
    A line that the births (or deaths) grammar matches pushes no record
    exactly when the cleaned name is empty or has a length outside
    [2, 49]: the markers are not looked for in names.  A line the grammar
    does not match pushes nothing. *)
Theorem line_rejected_iff (line : str) :
  (forall m, search eventLineRe line = Some m ->
     let event := cleanWikiText (group 2 m) in
     eventRecord line = None <->
     event = [] \/ includes (u "Image:") event = true \/
     includes (u "File:") event = true \/
     includes (u "multiple image") event = true \/
     includes (u "{{") event = true \/
     (length event < 11)%nat \/ (149 < length event)%nat) /\
  (forall lineRe m, search lineRe line = Some m ->
     let person := cleanWikiText (group 2 m) in
     personRecord lineRe line = None <->
     person = [] \/ (length person < 2)%nat \/ (49 < length person)%nat) /\
  (search eventLineRe line = None -> eventRecord line = None) /\
  (forall lineRe, search lineRe line = None -> personRecord lineRe line = None).
Proof.
  split; [|split; [|split]].
  - intros m Hm event. rewrite <- eventKept_false. unfold eventRecord.
    rewrite Hm. fold event.
    destruct (str_eqb (group 2 m) []) eqn:E.
    + apply str_eqb_true in E. subst event. rewrite E, cleanWikiText_nil.
      by split.
    + destruct (eventKept event); split; intros; done.
  - intros lineRe m Hm person. rewrite <- personKept_false. unfold personRecord.
    rewrite Hm. fold person.
    destruct (str_eqb (group 2 m) []) eqn:E.
    + apply str_eqb_true in E. subst person. rewrite E, cleanWikiText_nil.
      by split.
    + destruct (personKept person); split; intros; done.
  - intros H. unfold eventRecord. by rewrite H.
  - intros lineRe H. unfold personRecord. by rewrite H.
Qed.

(** C6, as the code has it.  A births or deaths line that is matched and
    kept pushes one string, which starts with the year: "{year}: {body}"
    followed by "（{role}）" when a role was captured and is not empty after
    cleaning. *)
Theorem person_record_label (lineRe : regex) (line : str) (m : mstate) :
  search lineRe line = Some m ->
  personKept (cleanWikiText (group 2 m)) = true ->
  let year := group 1 m in
  let body := cleanWikiText (group 2 m) in
  let role := cleanWikiText (group 3 m) in
  (role <> [] ->
     personRecord lineRe line
     = Some (year ++ u ": " ++ body ++ u "（" ++ role ++ u "）")) /\
  (role = [] -> personRecord lineRe line = Some (year ++ u ": " ++ body)).
Proof.
  intros Hm Hkept year body role. unfold personRecord. rewrite Hm.
  assert (str_eqb (group 2 m) [] = false) as ->.
  { apply str_eqb_false. intros E. rewrite E in Hkept. done. }
  cbv zeta. rewrite Hkept. subst year body role.
  destruct (str_eqb (group 3 m) []) eqn:E3.
  - apply str_eqb_true in E3. rewrite E3, cleanWikiText_nil.
    split; [done|]. intros _. done.
  - destruct (str_eqb (cleanWikiText (group 3 m)) []) eqn:Er.
    + apply str_eqb_true in Er. split; [done|]. done.
    + apply str_eqb_false in Er. split; [done|]. done.
Qed.

End ParserFacts.

(** ** The year of a parsed birth *)
Module BirthYears.
Import Cleaner WikiParser Sampling RegexFacts NumberFacts YearFacts.

Lemma yearRe_eq :
  yearRe = Seq (Seq (Cls CDigit) (Star true (Cls CDigit)))
             (Seq (Alt (Seq (Lit 24180) Eps) Eps) Eps).
Proof. reflexivity. Qed.

(** What \d+年? consumes. *)
Lemma yearRe_word a b :
  matches yearRe a b ->
  exists d ds t,
    is_digit d = true /\ Forall (fun c => is_digit c = true) ds /\
    (t = [] \/ t = u "年") /\
    m_rest a = d :: ds ++ t ++ m_rest b /\
    m_pos b = (m_pos a + S (length ds + length t))%nat.
Proof.
  rewrite yearRe_eq. intros H.
  apply matches_seq_inv in H as (a1 & H1 & H2).
  apply matches_seq_inv in H1 as (a0 & Hd & Hs).
  apply matches_cls_inv in Hd as (d & s0 & Hd & Hr0 & ->).
  apply matches_star_cls in Hs as (ds & Hds & Hr1 & Hp1 & _). simpl in *.
  apply matches_seq_inv in H2 as (a2 & Ha & He).
  apply matches_eps_inv in He as ->.
  exists d, ds. apply matches_alt_inv in Ha as [Ha|Ha].
  - apply matches_seq_inv in Ha as (a3 & Hl & He).
    apply matches_eps_inv in He as ->.
    apply matches_lit_inv in Hl as (t & Hr2 & ->). simpl.
    exists (u "年"). repeat split; [done | done | by right | | simpl; lia].
    rewrite Hr0, Hr1, Hr2. done.
  - apply matches_eps_inv in Ha as ->.
    exists []. repeat split; [done | done | by left | | simpl; lia].
    rewrite Hr0, Hr1. done.
Qed.

Lemma birthLineRe_eq :
  birthLineRe = Seq bulletRe (Seq (Group 1 yearRe)
    (cat [dashRe; personRe;
          Alt (lit (u "(+")) (Alt (lit (u "（+")) Eol)])).
Proof. reflexivity. Qed.

(** The first capture of a matched birth line is a numeral, with or
    without 年. *)
Lemma birth_year line m :
  search birthLineRe line = Some m ->
  exists d ds t,
    is_digit d = true /\ Forall (fun c => is_digit c = true) ds /\
    (t = [] \/ t = u "年") /\ group 1 m = d :: ds ++ t.
Proof.
  intros H. apply search_some in H as (pre & s & _ & H).
  apply match_at_sound in H. rewrite birthLineRe_eq in H.
  apply matches_seq_inv in H as (st1 & _ & H).
  apply matches_seq_inv in H as (st2 & Hg & Hrest).
  apply matches_group_inv in Hg as (b & Hy & ->).
  apply yearRe_word in Hy as (d & ds & t & Hd & Hds & Ht & Hr & Hp).
  exists d, ds, t. repeat split; try done.
  unfold group. rewrite (matches_cap_other _ _ _ 1%nat Hrest).
  - unfold cap, set_cap; simpl. rewrite Hr, Hp.
    replace (m_pos st1 + S (length ds + length t) - m_pos st1)%nat
      with (length (d :: ds ++ t)) by (simpl; rewrite length_app; lia).
    change (d :: ds ++ t ++ m_rest b) with ((d :: ds) ++ t ++ m_rest b).
    rewrite app_assoc. by rewrite take_app_length.
  - vm_compute. intros [?|[?|[]]]; discriminate.
Qed.

(** C10, as the code has it.  Every string the parser puts in the births
    list starts with a numeral, then 年 or not, then a colon; neither the
    before-epoch pattern of [extractYear] matches it, nor does it fall to
    the fallback: the second pattern matches and captures the numeral, so
    that its year is what [parseInt] reads from the numeral, the double
    nearest to the number the numeral denotes (that number itself below
    2^53), which is not negative (and is zero for a numeral of zeros). *)
Theorem births_year_parsed (content item : str) :
  item ∈ wi_births (parseWikipediaContent content) ->
  exists d ds tail,
    is_digit d = true /\ Forall (fun c => is_digit c = true) ds /\
    year_tail tail /\
    item = d :: ds ++ tail /\
    search bcRe item = None /\
    (exists m, search adRe item = Some m /\ group 1 m = d :: ds) /\
    extractYear item = parseInt (d :: ds) /\
    parseInt (d :: ds) = to_number (mathInt (d :: ds)) /\
    ((mathInt (d :: ds) < 2 ^ 53)%Z ->
     extractYear item = Num (mathInt (d :: ds))) /\
    nleb (Num 0) (extractYear item) = true.
Proof.
  unfold parseWikipediaContent; simpl. intros H.
  apply list_elem_of_omap in H as (line & _ & H).
  unfold birthRecord, personRecord in H.
  destruct (search birthLineRe line) as [m|] eqn:Hm; [|done].
  destruct (birth_year line m Hm) as (d & ds & t & Hd & Hds & Ht & Hg).
  destruct (str_eqb (group 2 m) []); [done|].
  destruct (personKept _); [|done].
  set (info := if str_eqb _ _ then _ else _) in H.
  assert (item = group 1 m ++ u ": " ++ info) as -> by congruence.
  assert (year_tail (t ++ u ": " ++ info)) as Htail.
  { destruct Ht as [-> | ->]; constructor. }
  exists d, ds, (t ++ u ": " ++ info).
  assert (group 1 m ++ u ": " ++ info = d :: ds ++ t ++ u ": " ++ info) as ->.
  { rewrite Hg. simpl. by rewrite <- app_assoc. }
  split; [done|]. split; [done|]. split; [done|]. split; [done|].
  split; [by apply bcRe_digit_first|].
  split; [by apply adRe_numeral|].
  rewrite (extractYear_ad d ds _ Hd Hds Htail).
  destruct (parseInt_numeral d ds Hd) as (Hp & _ & _ & Hn & He).
  by repeat split.
Qed.

End BirthYears.

(** ** The text cleaner *)
Module CleanerFacts.
Import Cleaner RegexFacts YearFacts.

#[local] Arguments rmatch : simpl never.

Lemma match_at_span r pos s st :
  match_at r pos s = Some st ->
  exists w, s = w ++ m_rest st /\ m_pos st = (pos + length w)%nat.
Proof. intros H. apply match_at_sound, matches_span in H. exact H. Qed.

(** With the empty replacement, the result is made of characters of the
    input. *)
Lemma replace_from_sub r : forall fuel pos s x,
  x ∈ replace_from fuel r [] pos s -> x ∈ s.
Proof.
  induction fuel as [|f IH]; intros pos s x H; simpl in H; [done|].
  destruct (match_at r pos s) as [st|] eqn:E.
  - apply match_at_span in E as (w & -> & Hp).
    destruct (pos <? m_pos st)%nat.
    + apply IH in H. apply elem_of_app. by right.
    + simpl in H. destruct (w ++ m_rest st) as [|c t]; [done|].
      apply elem_of_cons in H as [->|H]; [left | right; eauto].
  - destruct s as [|c t]; [done|].
    apply elem_of_cons in H as [->|H]; [left | right; eauto].
Qed.

Lemma opens_cons y t : opens (y :: t) <-> y <> ch ">" /\ ch ">" ∈ t.
Proof.
  split.
  - intros (c & m & b & [= -> ->] & Hc). split; [done|].
    apply elem_of_app. right. left.
  - intros [Hy Hin]. apply list_elem_of_split in Hin as (m & b & ->).
    by exists y, m, b.
Qed.

Lemma not_opens_nil : ~ opens [].
Proof. by intros (c & m & b & [=] & _). Qed.

Lemma tagged_cons x s : tagged (x :: s) -> (x = ch "<" /\ opens s) \/ tagged s.
Proof.
  intros ([|y a] & t & E & Ho); simpl in E; injection E as -> ->.
  - by left.
  - right. by exists a, t.
Qed.

Lemma not_tagged_nil : ~ tagged [].
Proof. intros ([|y a] & t & E & _); discriminate. Qed.

Lemma tagged_app_r a b : tagged b -> tagged (a ++ b).
Proof.
  intros (a' & t & -> & Ho). exists (a ++ a'), t. by rewrite <- app_assoc.
Qed.

Lemma opens_app_l a b : opens a -> opens (a ++ b).
Proof.
  intros (c & m & b' & -> & Hc). exists c, m, (b' ++ b). split; [|done].
  simpl. by rewrite <- app_assoc.
Qed.

Lemma tagged_app_l a b : tagged a -> tagged (a ++ b).
Proof.
  intros (a' & t & -> & Ho). exists a', (t ++ b). split.
  - by rewrite <- app_assoc.
  - by apply opens_app_l.
Qed.

Section Deleting.
Variable r : regex.
Hypothesis no_gt : forall pos t, match_at r pos (ch ">" :: t) = None.

(** A [>] at the head of the input stays at the head of the result. *)
Lemma replace_head_gt fuel pos t :
  exists rest, replace_from fuel r [] pos (ch ">" :: t) = ch ">" :: rest.
Proof.
  destruct fuel as [|f]; simpl; [eauto|]. rewrite no_gt. eauto.
Qed.

Lemma cons_untagged fuel pos x t :
  ~ tagged (replace_from fuel r [] pos t) ->
  (x = ch "<" -> ~ opens t) ->
  ~ tagged (x :: replace_from fuel r [] pos t).
Proof.
  intros Hrec Hx Ht. apply tagged_cons in Ht as [[-> Ho] | Ht]; [|done].
  specialize (Hx eq_refl).
  destruct t as [|y t'].
  - destruct fuel; simpl in Ho; [by apply not_opens_nil in Ho|].
    destruct (match_at r pos []) as [st|] eqn:E.
    + apply match_at_span in E as (w & Hw & Hp).
      symmetry in Hw. apply app_eq_nil in Hw as [-> Hr].
      simpl in Hp. assert ((pos <? m_pos st)%nat = false) as Hlt
        by (apply Nat.ltb_ge; lia).
      rewrite Hlt in Ho. simpl in Ho. by apply not_opens_nil in Ho.
    + by apply not_opens_nil in Ho.
  - destruct (decide (y = ch ">")) as [->|Hy].
    + destruct (replace_head_gt fuel pos t') as [rest E]. rewrite E in Ho.
      apply opens_cons in Ho as [? _]. done.
    + apply Hx. apply opens_cons. split; [done|].
      assert (ch ">" ∈ y :: t') as Hin.
      { apply (replace_from_sub r fuel pos).
        destruct Ho as (c & m & b & -> & _).
        right. apply elem_of_app. right. left. }
      apply elem_of_cons in Hin as [E|Hin]; [congruence | done].
Qed.

(** Deleting matches that cannot start with [>] makes no tag. *)
Lemma replace_keeps_untagged : forall fuel pos s,
  ~ tagged s -> ~ tagged (replace_from fuel r [] pos s).
Proof.
  induction fuel as [|f IH]; intros pos s Hs; simpl; [done|].
  assert (forall c t, s = c :: t ->
            ~ tagged (c :: replace_from f r [] (S pos) t)) as Hskip.
  { intros c t ->. apply cons_untagged.
    - apply IH. intros Ht. apply Hs. by apply (tagged_app_r [c]).
    - intros -> Ho. apply Hs. by exists [], t. }
  destruct (match_at r pos s) as [st|] eqn:E.
  - apply match_at_span in E as (w & Hw & Hp).
    destruct (pos <? m_pos st)%nat; simpl.
    + apply IH. intros Ht. apply Hs. rewrite Hw. by apply tagged_app_r.
    + destruct s as [|c t]; [apply not_tagged_nil | by apply Hskip].
  - destruct s as [|c t]; [apply not_tagged_nil | by apply Hskip].
Qed.

End Deleting.

Lemma skip_to_none c : forall t, skip_to c t = None -> c ∉ t.
Proof.
  induction t as [|x t IH]; simpl; intros H; [by apply not_elem_of_nil|].
  destruct (N.eqb_spec x c) as [->|Hne]; [done|].
  destruct (skip_to c t) as [[n b]|]; [done|].
  apply not_elem_of_cons. split; [congruence | by apply IH].
Qed.

Lemma skip_to_some c : forall t n b,
  skip_to c t = Some (n, b) -> (length b < length t)%nat.
Proof.
  induction t as [|x t IH]; simpl; intros n b H; [done|].
  destruct (N.eqb_spec x c) as [->|Hne].
  - injection H as <- <-. lia.
  - destruct (skip_to c t) as [[n' b']|] eqn:E; [|done].
    injection H as <- <-. specialize (IH n' b' eq_refl). lia.
Qed.

(** One attempt of [<[^>]+>]. *)
Lemma tagRe_at pos s :
  match_at tagRe pos s =
  match s with
  | x :: c :: t =>
    if (ch "<" =? x) && negb (c =? ch ">") then
      match skip_to (ch ">") t with
      | Some (n, b) => Some (MState (S (S (S pos) + n)) b [])
      | None => None
      end
    else None
  | _ => None
  end.
Proof.
  unfold match_at.
  change tagRe with (Seq (Lit (ch "<"))
    (Seq (Seq (Cls (CNoneOf [ch ">"])) (Star true (Cls (CNoneOf [ch ">"]))))
         (Seq (Lit (ch ">")) Eps))).
  rewrite rmatch_seq, rmatch_lit. unfold step at 1; cbn [m_rest m_pos m_caps].
  destruct s as [|x [|c t]]; [done | by destruct (ch "<" =? x) |].
  destruct (ch "<" =? x); [|done]. cbn [andb].
  rewrite !rmatch_seq, rmatch_cls. unfold step at 1; cbn [m_rest m_pos m_caps].
  unfold cls_mem, mem; cbn [existsb]. rewrite orb_false_r.
  destruct (c =? ch ">"); [done|]. cbn [negb].
  rewrite rmatch_star_cls.
  change (rmatch (Seq (Lit (ch ">")) Eps) Some)
    with (step (N.eqb (ch ">")) (fun st => Some st)).
  rewrite greedy_cls_skip. by destruct (skip_to (ch ">") t) as [[n b]|].
Qed.

Lemma tagRe_no_gt pos t : match_at tagRe pos (ch ">" :: t) = None.
Proof. rewrite tagRe_at. by destruct t. Qed.

(** After the tags are deleted no tag is left. *)
Lemma strip_tags_untagged : forall n s, (length s <= n)%nat ->
  forall fuel pos, (n < fuel)%nat ->
  ~ tagged (replace_from fuel tagRe [] pos s).
Proof.
  induction n as [|n IH]; intros s Hlen fuel pos Hfuel;
    (destruct fuel as [|f]; [lia|]); simpl.
  - destruct s; [|simpl in Hlen; lia]. rewrite tagRe_at. apply not_tagged_nil.
  - destruct s as [|x t]; [rewrite tagRe_at; apply not_tagged_nil|].
    simpl in Hlen.
    assert (Hskip : (x = ch "<" -> ~ opens t) ->
                    ~ tagged (x :: replace_from f tagRe [] (S pos) t)).
    { intros Hx. apply cons_untagged; [apply tagRe_no_gt | | done].
      apply IH; lia. }
    rewrite tagRe_at. destruct t as [|c t'].
    { apply Hskip. intros _. apply not_opens_nil. }
    destruct (N.eqb_spec (ch "<") x) as [<-|Hx]; cbn [andb].
    2:{ apply Hskip. congruence. }
    destruct (N.eqb_spec c (ch ">")) as [->|Hc]; cbn [negb].
    { apply Hskip. intros _ Ho. apply opens_cons in Ho as [? _]. done. }
    destruct (skip_to (ch ">") t') as [[k b]|] eqn:E.
    + cbn [m_pos m_rest].
      assert ((pos <? S (S (S pos) + k))%nat = true) as ->
        by (apply Nat.ltb_lt; lia).
      apply skip_to_some in E. simpl in Hlen. apply IH; lia.
    + apply Hskip. intros _ Ho. apply opens_cons in Ho as [_ Hin].
      by apply skip_to_none in E.
Qed.

Lemma asideRe_no_gt pos t : match_at asideRe pos (ch ">" :: t) = None.
Proof. reflexivity. Qed.

Lemma edgeRe_no_gt pos t : match_at edgeRe pos (ch ">" :: t) = None.
Proof.
  unfold match_at.
  change edgeRe with
    (Alt (Seq Bol (Seq (Seq (Cls (CSpaceOr [ch "-"]))
                            (Star true (Cls (CSpaceOr [ch "-"])))) Eps))
         (Seq (Seq (Cls (CSpaceOr [ch "-"]))
                   (Star true (Cls (CSpaceOr [ch "-"])))) (Seq Eol Eps))).
  rewrite rmatch_alt, !rmatch_seq, rmatch_cls.
  unfold step; cbn [m_rest].
  change (cls_mem (CSpaceOr [ch "-"]) (ch ">")) with false. cbv iota.
  destruct pos; [|done].
  rewrite rmatch_bol, !rmatch_seq, rmatch_cls. done.
Qed.

Lemma drop_while_suffix p : forall s, exists a, s = a ++ drop_while p s.
Proof.
  induction s as [|c t [a IH]]; simpl; [by exists []|].
  destruct (p c); [|by exists []].
  exists (c :: a). simpl. by rewrite <- IH.
Qed.

Lemma trim_untagged s : ~ tagged s -> ~ tagged (trim s).
Proof.
  intros Hs Ht. apply Hs. unfold trim in Ht.
  destruct (drop_while_suffix is_space s) as [a Ha].
  destruct (drop_while_suffix is_space (rev (drop_while is_space s))) as [b Hb].
  rewrite Ha. apply tagged_app_r.
  rewrite <- (rev_involutive (drop_while is_space s)), Hb, rev_app_distr.
  by apply tagged_app_l.
Qed.

Lemma cleanWikiText_untagged text : ~ tagged (cleanWikiText text).
Proof.
  unfold cleanWikiText. apply trim_untagged.
  apply replace_keeps_untagged; [apply edgeRe_no_gt|].
  apply replace_keeps_untagged; [apply asideRe_no_gt|].
  unfold replace_all at 1.
  apply (strip_tags_untagged (length _) _ (le_n _)). lia.
Qed.

End CleanerFacts.

(** ** The deaths section *)
Module DeathsFacts.
Import WikiParser RegexFacts YearFacts.

#[local] Arguments rmatch : simpl never.

Lemma star_cls_lazy cc k : forall s n pos caps,
  (length s < n)%nat ->
  star_loop false (rmatch (Cls cc)) k n (MState pos s caps)
  = lazy_cls (cls_mem cc) k pos s caps.
Proof.
  induction s as [|c t IH]; intros n pos caps Hn;
    (destruct n as [|n]; [simpl in Hn; lia|]); simpl.
  - by destruct (k _).
  - destruct (k _); [done|]. simpl. rewrite rmatch_cls. unfold step; simpl.
    destruct (cls_mem cc c); [|done].
    assert ((pos <? S pos)%nat = true) as -> by (apply Nat.ltb_lt; lia).
    rewrite IH; [done | simpl in Hn; lia].
Qed.

Lemma rmatch_star_cls_lazy cc k pos s caps :
  rmatch (Star false (Cls cc)) k (MState pos s caps)
  = lazy_cls (cls_mem cc) k pos s caps.
Proof. apply (star_cls_lazy cc k s (S (length s)) pos caps). lia. Qed.

(** The lazy star stops at the first index where the continuation
    succeeds. *)
Lemma lazy_cls_first p k caps fin : forall s pos,
  lazy_cls p k pos s caps = Some fin ->
  exists n, (n <= length s)%nat /\
    k (MState (pos + n) (drop n s) caps) = Some fin /\
    forall j, (j < n)%nat -> k (MState (pos + j) (drop j s) caps) = None.
Proof.
  induction s as [|c t IH]; intros pos H; simpl in H.
  - destruct (k (MState pos [] caps)) eqn:E; [|done]. simpl in H.
    exists 0%nat. rewrite Nat.add_0_r. simpl. split; [lia|]. split; [congruence|].
    intros j Hj. lia.
  - destruct (k (MState pos (c :: t) caps)) eqn:E; simpl in H.
    + exists 0%nat. rewrite Nat.add_0_r. simpl. split; [lia|].
      split; [congruence|]. intros j Hj. lia.
    + destruct (p c); [|done].
      apply IH in H as (n & Hn & Hk & Hmin).
      exists (S n). simpl. split; [lia|]. split.
      * by replace (pos + S n)%nat with (S pos + n)%nat by lia.
      * intros [|j] Hj; simpl.
        -- by rewrite Nat.add_0_r.
        -- replace (pos + S j)%nat with (S pos + j)%nat by lia.
           apply Hmin. lia.
Qed.

Lemma rmatch_lit_string k caps : forall l pos s,
  rmatch (lit l) k (MState pos s caps)
  = if prefix_of l s
    then k (MState (pos + length l) (drop (length l) s) caps)
    else None.
Proof.
  induction l as [|c l IH]; intros pos s.
  - change (lit []) with Eps. rewrite rmatch_eps. simpl.
    by rewrite Nat.add_0_r, drop_0.
  - change (lit (c :: l)) with (Seq (Lit c) (lit l)).
    rewrite rmatch_seq, rmatch_lit. unfold step; simpl.
    destruct s as [|x s]; [done|].
    rewrite (N.eqb_sym c x). destruct (x =? c); [|done]. simpl.
    rewrite IH. by replace (S pos + length l)%nat with (pos + S (length l))%nat by lia.
Qed.

Lemma lit_matches a b : forall l, matches (lit l) a b -> m_rest a = l ++ m_rest b.
Proof.
  intros l. revert a. induction l as [|c l IH]; intros a H.
  - change (lit []) with Eps in H. by apply matches_eps_inv in H as ->.
  - change (lit (c :: l)) with (Seq (Lit c) (lit l)) in H.
    apply matches_seq_inv in H as (a1 & H1 & H2).
    apply matches_lit_inv in H1 as (t & Hr & ->).
    apply IH in H2. simpl in H2. rewrite Hr, H2. done.
Qed.

(** The lookahead that ends a section. *)
Lemma nextHeading_at k pos s caps :
  rmatch nextHeading k (MState pos s caps)
  = if ends_here s then k (MState pos s caps) else None.
Proof.
  unfold nextHeading.
  change (rmatch (Ahead ?r) k ?st)
    with (match rmatch r Some st with
          | Some st' => k (MState (m_pos st) (m_rest st) (m_caps st'))
          | None => None
          end).
  cbn [m_pos m_rest].
  change (cat [lit (u "== "); Cls (CNoneOf [ch "="])])
    with (Seq (lit (u "== ")) (Seq (Cls (CNoneOf [ch "="])) Eps)).
  rewrite rmatch_alt, rmatch_seq, rmatch_lit_string.
  change (u "== ") with [ch "="; ch "="; ch " "].
  destruct s as [|a [|b [|c [|x t]]]]; cbn [prefix_of ends_here andb];
    try done.
  - by destruct (ch "=" =? a).
  - by destruct (ch "=" =? a), (ch "=" =? b).
  - destruct (ch "=" =? a), (ch "=" =? b), (ch " " =? c); try done.
  - destruct (ch "=" =? a), (ch "=" =? b), (ch " " =? c); try done.
    cbn [andb length drop]. rewrite rmatch_seq, rmatch_cls.
    unfold step; cbn [m_rest cls_mem mem existsb]. rewrite orb_false_r.
    by destruct (x =? ch "=").
Qed.

(** What the deaths section captures: it runs to the first place where
    the lookahead holds. *)
Lemma deathsSection_capture content m :
  search deathsSectionRe content = Some m ->
  exists s n, (n <= length s)%nat /\ group 1 m = take n s /\
    forall j, (j < n)%nat -> ends_here (drop j s) = false.
Proof.
  intros H. apply search_some in H as (pre & t & _ & H).
  unfold match_at in H.
  change deathsSectionRe
    with (Seq (lit (u "== 忌日 =="))
            (Seq (Group 1 (Star false (Cls CAny))) (Seq nextHeading Eps))) in H.
  rewrite rmatch_seq, rmatch_lit_string in H.
  destruct (prefix_of _ t); [|done].
  set (p1 := (length pre + length (u "== 忌日 =="))%nat) in H.
  set (s1 := drop (length (u "== 忌日 ==")) t) in H.
  rewrite rmatch_seq, rmatch_group, rmatch_star_cls_lazy in H.
  apply lazy_cls_first in H as (n & Hn & Hk & Hmin).
  exists s1, n. split; [done|]. split.
  - cbn [m_pos m_rest] in Hk. rewrite rmatch_seq in Hk.
    unfold set_cap in Hk; cbn [m_pos m_rest m_caps] in Hk.
    rewrite nextHeading_at in Hk. destruct (ends_here _); [|done].
    rewrite rmatch_eps in Hk. injection Hk as <-.
    unfold group, cap; simpl. by replace (p1 + n - p1)%nat with n by lia.
  - intros j Hj. specialize (Hmin j Hj). cbn [m_pos m_rest] in Hmin.
    rewrite rmatch_seq in Hmin.
    unfold set_cap in Hmin; cbn [m_pos m_rest m_caps] in Hmin.
    rewrite nextHeading_at in Hmin. destruct (ends_here _); [|done].
    by rewrite rmatch_eps in Hmin.
Qed.

Lemma personSection_heading w fin :
  search personSectionRe w = Some fin ->
  exists pre rest, w = pre ++ u "=== 人物 ===" ++ rest.
Proof.
  intros H. apply search_some in H as (pre & t & -> & H).
  apply match_at_sound in H.
  change personSectionRe
    with (Seq (lit (u "=== 人物 ==="))
            (cat [Group 1 (Star false (Cls CAny)); Alt (lit (u "=== ")) Eol])) in H.
  apply matches_seq_inv in H as (a & H & _).
  apply lit_matches in H. simpl in H. exists pre, (m_rest a). by rewrite H.
Qed.

(** The captured deaths section never contains the persons heading, so the
    narrowing to the sub-section never happens. *)
Lemma persons_never_found content m :
  search deathsSectionRe content = Some m ->
  search personSectionRe (group 1 m) = None.
Proof.
  intros H. destruct (deathsSection_capture content m H) as (s & n & Hn & Hg & Hmin).
  destruct (search personSectionRe (group 1 m)) as [fin|] eqn:E; [|done].
  exfalso. apply personSection_heading in E as (pre & rest & E).
  rewrite Hg in E.
  assert (length (take n s) = n) as Hlen by (rewrite length_take; lia).
  rewrite E, !length_app in Hlen. simpl in Hlen.
  specialize (Hmin (S (length pre))). rewrite <- (take_drop n s), E in Hmin.
  rewrite <- app_assoc in Hmin.
  replace (S (length pre)) with (length pre + 1)%nat in Hmin by lia.
  rewrite <- drop_drop, drop_app_length in Hmin. simpl in Hmin.
  assert (false = true) by (rewrite <- Hmin; [reflexivity | lia]). done.
Qed.

Lemma deathLines_whole_section content :
  deathLines content = sectionLines deathsSectionRe content.
Proof.
  unfold deathLines, sectionLines.
  destruct (search deathsSectionRe content) as [m|] eqn:E; [|done].
  by rewrite (persons_never_found content m E).
Qed.

End DeathsFacts.

(** ** The claims on the cleaner and the parser, at concrete inputs *)
Module Cases.
Import Cleaner WikiParser Sampling CleanerFacts ParserFacts BirthYears DeathsFacts.

(** C1, as the code has it.  For every input the cleaned text has no tag,
    that is no [<] followed by one or more characters other than [>] and a
    [>]: the tags are deleted, and what is deleted afterwards cannot put
    one together.  (Brackets and braces of nested or unbalanced markup
    stay, as in the two inputs here.) *)
Theorem cleanWikiText_no_tag (text : str) :
  ~ tagged (cleanWikiText text) /\
  ~ tagged (cleanText text) /\
  cleanWikiText (u "[[File:a.jpg|thumb|[[b]]と[[c]]]]") = u "thumb|bと[[c]]" /\
  cleanWikiText (u "{{a}{{b}}}") = u "{{a}}".
Proof.
  split; [apply cleanWikiText_untagged|].
  split; [apply cleanWikiText_untagged|].
  split; by vm_compute.
Qed.

(** C1 as the specification states it fails: nested markup leaves
    brackets and braces in the cleaned text. *)
Lemma cleanWikiText_leaves_residue :
  residue (cleanWikiText (u "[[File:a.jpg|thumb|[[b]]と[[c]]]]")) = true /\
  residue (cleanWikiText (u "{{a}{{b}}}")) = true /\
  includes (u "{{") (cleanWikiText (u "{{a}{{b}}}")) = true /\
  includes (u "}}") (cleanWikiText (u "{{a}{{b}}}")) = true /\
  includes (u "[[") (cleanWikiText (u "[[File:a.jpg|thumb|[[b]]と[[c]]]]")) = true /\
  includes (u "]]") (cleanWikiText (u "[[File:a.jpg|thumb|[[b]]と[[c]]]]")) = true.
Proof. repeat split; by vm_compute. Qed.

(** C4 fails on the code.  The deaths section is cut where [== ] followed
    by a character other than [=] begins, and that is inside the
    [=== 人物 ===] heading: on every page the lines read are those of the
    section as captured, which never contains the heading.  On the page
    here the entry of the section's own level is extracted and the person,
    whose line would give a record, is not. *)
Theorem deaths_subsection_not_reached :
  (forall content, deathLines content = sectionLines deathsSectionRe content) /\
  ti_deaths (parseTodayInfo (u "8月10日") page_with_persons)
  = [u "1900年: 製品A"] /\
  (group 1 <$> search deathsSectionRe page_with_persons)
  = Some (nl ++ u "* 1900年 - 製品A" ++ nl ++ u "=") /\
  deathRecord (u "* [[1950年]] - [[山田花子]]、歌手（* [[1890年]]）")
  = Some (u "1950年: 山田花子（歌手）").
Proof.
  split; [apply deathLines_whole_section|]. repeat split; by vm_compute.
Qed.

Lemma line_rejected_iff_witness :
  eventRecord (u "* [[1950年]] - 短い") = None /\
  birthRecord (u "* [[1950年]] - 山") = None.
Proof.
  split.
  - destruct (search eventLineRe (u "* [[1950年]] - 短い")) as [m|] eqn:E.
    + apply (proj1 (line_rejected_iff (u "* [[1950年]] - 短い")) m E).
      found E. do 5 right. left. vm_compute. lia.
    + found E.
  - destruct (search birthLineRe (u "* [[1950年]] - 山")) as [m|] eqn:E.
    + apply (proj1 (proj2 (line_rejected_iff (u "* [[1950年]] - 山")))
               birthLineRe m E).
      found E. right. left. vm_compute. lia.
    + found E.
Defined.

(** C5 as the specification states it fails, both ways: a name that
    contains [File:] is kept, and an event that contains none of
    [Image:], [File:] and [{{] and has 19 characters is rejected. *)
Lemma marker_rule_differs :
  (group 2 <$> search birthLineRe (u "* 1950年 - File:abc.jpg"))
  = Some (u "File:abc.jpg") /\
  includes (u "File:") (cleanWikiText (u "File:abc.jpg")) = true /\
  birthRecord (u "* 1950年 - File:abc.jpg") = Some (u "1950年: File:abc.jpg") /\
  (group 2 <$> search eventLineRe (u "* 1950年 - multiple image test"))
  = Some (u "multiple image test") /\
  cleanWikiText (u "multiple image test") = u "multiple image test" /\
  includes (u "Image:") (u "multiple image test") = false /\
  includes (u "File:") (u "multiple image test") = false /\
  includes (u "{{") (u "multiple image test") = false /\
  length (u "multiple image test") = 19%nat /\
  eventRecord (u "* 1950年 - multiple image test") = None.
Proof. repeat split; by vm_compute. Qed.

Lemma person_record_label_witness :
  birthRecord (u "* [[1950年]] - [[山田太郎]]、俳優")
  = Some (u "1950年: 山田太郎（俳優）").
Proof.
  destruct (search birthLineRe (u "* [[1950年]] - [[山田太郎]]、俳優"))
    as [m|] eqn:E.
  - destruct (person_record_label birthLineRe _ m E) as [H _].
    + found E. by vm_compute.
    + unfold birthRecord. rewrite H; found E; by vm_compute.
  - found E.
Defined.

(** C6 as the specification states it fails: the record of a birth is not
    the label alone, with the year kept elsewhere; it is one string that
    starts with the year. *)
Lemma year_is_in_the_label :
  (group 2 <$> search birthLineRe (u "* [[1950年]] - [[山田太郎]]、俳優"))
  = Some (u "[[山田太郎]]") /\
  (group 3 <$> search birthLineRe (u "* [[1950年]] - [[山田太郎]]、俳優"))
  = Some (u "俳優") /\
  birthRecord (u "* [[1950年]] - [[山田太郎]]、俳優")
  <> Some (u "山田太郎（俳優）") /\
  wi_births (parseWikipediaContent
    (u "== 誕生日 ==" ++ nl ++ u "* [[1950年]] - [[山田太郎]]、俳優"))
  = [u "1950年: 山田太郎（俳優）"].
Proof. repeat split; by vm_compute. Qed.

Lemma births_year_parsed_witness :
  exists d ds tail,
    u "1950年: 山田太郎（俳優）" = d :: ds ++ tail /\
    extractYear (u "1950年: 山田太郎（俳優）") = parseInt (d :: ds).
Proof.
  destruct (births_year_parsed
    (u "== 誕生日 ==" ++ nl ++ u "* [[1950年]] - [[山田太郎]]、俳優")
    (u "1950年: 山田太郎（俳優）"))
    as (d & ds & tail & _ & _ & _ & E & _ & _ & Hy & _).
  - vm_compute. left.
  - exists d, ds, tail. by split.
Defined.

(** C10 as stated fails: the year of a parsed birth need not be
    positive, and it is a double, which a long numeral is rounded to. *)
Lemma birth_year_zero :
  wi_births (parseWikipediaContent page_year_zero) = [u "0年: ある人物（詩人）"] /\
  u "0年: ある人物（詩人）" ∈ wi_births (parseWikipediaContent page_year_zero) /\
  extractYear (u "0年: ある人物（詩人）") = Num 0 /\
  wi_births (parseWikipediaContent page_year_long)
  = [u "9007199254740993年: 山田太郎"] /\
  extractYear (u "9007199254740993年: 山田太郎") = Num 9007199254740992.
Proof.
  split; [by vm_compute|]. split; [vm_compute; left|].
  repeat split; by vm_compute.
Qed.

(** C2 as stated fails: the year after 紀元前 need not be negative, and
    the order is that of the doubles, in which two numerals that differ
    can be the same year. *)
Lemma before_epoch_year_not_negative :
  extractYear (u "紀元前0年: B") = Num 0 /\
  sort_by compareYears [u "年なし: A"; u "紀元前0年: B"]
  = [u "年なし: A"; u "紀元前0年: B"] /\
  map extractYear [u "9007199254740993年: A"; u "9007199254740992年: B"]
  = [Num 9007199254740992; Num 9007199254740992] /\
  sort_by compareYears [u "9007199254740993年: A"; u "9007199254740992年: B"]
  = [u "9007199254740993年: A"; u "9007199254740992年: B"].
Proof. repeat split; by vm_compute. Qed.

End Cases.

(** ** What a run delivers *)
Module RunFacts.
Import WikiParser Sampling SamplingFacts YearFacts Bot BotFacts.

Lemma postToSlack_no_webhook w message t :
  truthy (w_webhook w) = None ->
  postToSlack w message t
  = (Some (u "Error: SLACK_WEBHOOK_URL is not configured"),
     t ++ [Log LogNoWebhook]).
Proof. intros H. unfold postToSlack. by rewrite H. Qed.

Lemma postToSlack_answer w message t url code text :
  truthy (w_webhook w) = Some url ->
  w_slack w (length (posts t)) = Returns (code, text) ->
  postToSlack w message t
  = if (code =? 200)%nat
    then (None, (t ++ [Post message]) ++ [Log LogSlackResponse])
    else (Some (u "Error: Slack API error: " ++ text),
          ((t ++ [Post message]) ++ [Log LogSlackResponse])
            ++ [Log LogSlackError]).
Proof. intros Hu Hs. unfold postToSlack. by rewrite Hu, Hs. Qed.

Lemma reportError_posts w error t url :
  truthy (w_webhook w) = Some url ->
  posts (reportError w error t) = posts t ++ [errorNotice error].
Proof.
  intros Hu. unfold reportError, errorNotice.
  destruct (postToSlack w _ _) as [[err|] t'] eqn:E;
    apply (f_equal (fun p => posts p.2)) in E;
    rewrite (postToSlack_posts w _ _ url Hu) in E; simpl in E;
    rewrite ?posts_app, <- E, posts_app; simpl; by rewrite ?app_nil_r.
Qed.

Lemma reportError_no_webhook w error t :
  truthy (w_webhook w) = None -> posts (reportError w error t) = posts t.
Proof.
  intros Hu. unfold reportError. rewrite postToSlack_no_webhook by done.
  rewrite !posts_app. simpl. by rewrite !app_nil_r.
Qed.

(** What [deliver] sends, by the answers of the sink. *)
Lemma deliver_posts w message t :
  posts t = [] ->
  (truthy (w_webhook w) = None -> posts (deliver w message t) = []) /\
  (forall url, truthy (w_webhook w) = Some url ->
     (forall text, w_slack w 0%nat = Returns (200%nat, text) ->
        posts (deliver w message t) = [message]) /\
     (forall code text, w_slack w 0%nat = Returns (code, text) ->
        code <> 200%nat ->
        posts (deliver w message t)
        = [message; errorNotice (u "Error: Slack API error: " ++ text)]) /\
     (forall e, w_slack w 0%nat = Throws e ->
        posts (deliver w message t) = [message; errorNotice e])).
Proof.
  intros Ht. unfold deliver. split.
  - intros Hu. rewrite postToSlack_no_webhook by done.
    rewrite reportError_no_webhook by done. rewrite posts_app, Ht. done.
  - intros url Hu.
    assert (Hlen : length (posts t) = 0%nat) by (by rewrite Ht).
    split; [|split].
    + intros text Hs.
      assert (w_slack w (length (posts t)) = Returns (200%nat, text)) as Hs'
        by (by rewrite Hlen).
      rewrite (postToSlack_answer w message t url _ _ Hu Hs').
      rewrite Nat.eqb_refl. cbv iota.
      rewrite !posts_app, Ht. done.
    + intros code text Hs Hc.
      assert (w_slack w (length (posts t)) = Returns (code, text)) as Hs'
        by (by rewrite Hlen).
      rewrite (postToSlack_answer w message t url _ _ Hu Hs').
      destruct (Nat.eqb_spec code 200); [done|]. cbv iota.
      rewrite (reportError_posts w _ _ url Hu), !posts_app, Ht. done.
    + intros e Hs.
      assert (w_slack w (length (posts t)) = Throws e) as Hs'
        by (by rewrite Hlen).
      rewrite (postToSlack_throws w message t url e Hu Hs').
      rewrite (reportError_posts w _ _ url Hu), !posts_app, Ht. done.
Qed.

Lemma main_deliver w info :
  fetchTodayInfo w = Some info ->
  main w = deliver w (formatSlackMessage info) ([Log LogStart] ++ [Log LogMessage]).
Proof. intros H. unfold main, deliver. by rewrite H. Qed.

(** X1.  What [main] sends to the messaging sink in a run.  Without a
    digest, or without the webhook property, it sends nothing at all (the
    error notice needs the webhook too).  Otherwise the first thing sent
    is the digest; it is the only one when the sink answers 200, and it is
    followed by one error notice, which quotes the answer text or the
    exception, when the sink answers another code or the fetch throws. *)
Theorem main_posts (w : World) :
  (fetchTodayInfo w = None -> posts (main w) = []) /\
  (truthy (w_webhook w) = None -> posts (main w) = []) /\
  (forall info url,
     fetchTodayInfo w = Some info -> truthy (w_webhook w) = Some url ->
     (forall text, w_slack w 0%nat = Returns (200%nat, text) ->
        posts (main w) = [formatSlackMessage info]) /\
     (forall code text, w_slack w 0%nat = Returns (code, text) ->
        code <> 200%nat ->
        posts (main w)
        = [formatSlackMessage info;
           errorNotice (u "Error: Slack API error: " ++ text)]) /\
     (forall e, w_slack w 0%nat = Throws e ->
        posts (main w) = [formatSlackMessage info; errorNotice e])).
Proof.
  split; [|split].
  - intros H. unfold main. by rewrite H.
  - intros Hu. destruct (fetchTodayInfo w) as [info|] eqn:E.
    + rewrite (main_deliver w info E). by apply deliver_posts.
    + unfold main. by rewrite E.
  - intros info url E Hu. rewrite (main_deliver w info E).
    exact (proj2 (deliver_posts w (formatSlackMessage info)
                    ([Log LogStart] ++ [Log LogMessage]) eq_refl) url Hu).
Qed.

Lemma main_posts_witness :
  (exists info, fetchTodayInfo world_sink_rejects = Some info /\
     posts (main world_sink_rejects)
     = [formatSlackMessage info;
        errorNotice (u "Error: Slack API error: " ++ u "server_error")]) /\
  posts (main world_no_webhook) = [].
Proof.
  split.
  - destruct (fetchTodayInfo world_sink_rejects) as [info|] eqn:E.
    + exists info. split; [reflexivity|].
      destruct (main_posts world_sink_rejects) as (_ & _ & H).
      assert (Hu : truthy (w_webhook world_sink_rejects)
                   = Some (u "https://hooks.slack.com/services/T/B/X"))
        by (vm_compute; reflexivity).
      destruct (H info _ E Hu) as (_ & H500 & _).
      apply (H500 500%nat (u "server_error")); [reflexivity | lia].
    + vm_compute in E. discriminate.
  - apply (main_posts world_no_webhook). reflexivity.
Defined.

(** X2.  The digest of a run whose draws are in range.  Its historical
    events and its births are at most five, as many as the parser found
    when it found fewer; each list is in ascending order of year and is
    made of entries of the parser's list, none taken twice; the date is
    the display form of the day; a flower, when present, is not empty. *)
Theorem digest_lists (w : World) (info : TodayInfo) :
  in_range (w_rand1 w) -> in_range (w_rand2 w) ->
  fetchTodayInfo w = Some info ->
  date info = getTodayDisplayString w /\
  length (historical info) = (5 `min` length (wi_historical (fetchWikipediaInfo w)))%nat /\
  length (births info) = (5 `min` length (wi_births (fetchWikipediaInfo w)))%nat /\
  StronglySorted year_le (historical info) /\
  StronglySorted year_le (births info) /\
  (exists rest, historical info ++ rest ≡ₚ wi_historical (fetchWikipediaInfo w)) /\
  (exists rest, births info ++ rest ≡ₚ wi_births (fetchWikipediaInfo w)) /\
  (forall f, birthFlower info = Some f -> f <> []).
Proof.
  intros _ _ H.
  destruct (w_php w) as [html|e] eqn:Hphp;
    [|unfold fetchTodayInfo in H; by rewrite Hphp in H].
  rewrite (fetchTodayInfo_digest w html Hphp) in H. injection H as <-. simpl.
  assert (Hlen : forall J (l : list str),
            length (sample J 5 l) = (5 `min` length l)%nat).
  { intros J l. unfold sample.
    destruct (Nat.leb_spec (length l) 5); [lia|].
    rewrite length_take, (shuffled_perm J l). lia. }
  assert (Hsub : forall J (l : list str), exists rest, sample J 5 l ++ rest ≡ₚ l).
  { intros J l. unfold sample. destruct (Nat.leb_spec (length l) 5).
    - exists []. by rewrite app_nil_r.
    - exists (drop 5 (shuffled J l)). rewrite take_drop. apply shuffled_perm. }
  split; [done|].
  split; [by rewrite (sortByYear_perm _), Hlen|].
  split; [by rewrite (sortByYear_perm _), Hlen|].
  split; [apply sortByYear_sorted|]. split; [apply sortByYear_sorted|].
  split. { destruct (Hsub (w_rand1 w) (wi_historical (fetchWikipediaInfo w)))
             as [rest Hr]. exists rest. by rewrite (sortByYear_perm _). }
  split. { destruct (Hsub (w_rand2 w) (wi_births (fetchWikipediaInfo w)))
             as [rest Hr]. exists rest. by rewrite (sortByYear_perm _). }
  intros f Hf. unfold fetchBirthFlower in Hf.
  destruct (w_flower w) as [[[|c s]|]|]; simpl in Hf; try done.
  by injection Hf as <-.
Qed.

Lemma digest_lists_witness :
  length (wi_historical (fetchWikipediaInfo world_busy)) = 7%nat /\
  length (wi_births (fetchWikipediaInfo world_busy)) = 6%nat /\
  exists info, fetchTodayInfo world_busy = Some info /\
    length (historical info) = 5%nat /\ length (births info) = 5%nat /\
    StronglySorted year_le (historical info) /\
    StronglySorted year_le (births info).
Proof.
  split; [vm_compute; reflexivity|]. split; [vm_compute; reflexivity|].
  destruct (fetchTodayInfo world_busy) as [info|] eqn:E.
  - exists info. split; [reflexivity|].
    destruct (digest_lists world_busy info) as (_ & Hh & Hb & Sh & Sb & _).
    + intros i. simpl. lia.
    + intros i. simpl. lia.
    + exact E.
    + split; [rewrite Hh; vm_compute; reflexivity|].
      split; [rewrite Hb; vm_compute; reflexivity|].
      split; [exact Sh | exact Sb].
  - vm_compute in E. discriminate.
Defined.

(** X3.  A failure of the wiki source is not fatal.  When the primary
    fetch returned and the wiki lookup throws, finds no page or finds no
    content, the run still has a digest: its historical events and births
    are empty, and its anniversaries and flower are those of the other
    sources.  The two shapes of the wiki answer give the same digest for
    the same content. *)
Theorem wiki_failure_degrades (w : World) (html : str) :
  w_php w = Returns html ->
  (wiki_fails (w_wiki w) ->
   exists info,
     fetchTodayInfo w = Some info /\
     historical info = [] /\ births info = [] /\
     events info = PhpParser.parsePhpTodayInfo (getTodayDisplayString w) html /\
     birthFlower info = fetchBirthFlower w) /\
  (forall content, content <> [] ->
     fetchTodayInfo (with_wiki w (Returns (PageLegacy content)))
     = fetchTodayInfo (with_wiki w (Returns (PageSlots content)))).
Proof.
  intros Hphp. split.
  - intros Hw. eexists. split; [by apply fetchTodayInfo_digest|]. simpl.
    assert (fetchWikipediaInfo w = noWikiInfo) as ->.
    { unfold fetchWikipediaInfo.
      destruct Hw as [[e ->] | [-> | [-> | ->]]]; reflexivity. }
    done.
  - intros content Hc.
    rewrite (fetchTodayInfo_digest (with_wiki w (Returns (PageLegacy content))) html Hphp).
    rewrite (fetchTodayInfo_digest (with_wiki w (Returns (PageSlots content))) html Hphp).
    unfold fetchWikipediaInfo; simpl. by destruct content.
Qed.

Lemma wiki_failure_degrades_witness :
  exists info,
    fetchTodayInfo (with_wiki world_fine (Throws (u "Exception: Timeout")))
    = Some info /\
    historical info = [] /\ births info = [] /\ events info <> [].
Proof.
  destruct (wiki_failure_degrades
              (with_wiki world_fine (Throws (u "Exception: Timeout")))
              (u "<h2>記念日・行事・お祭り</h2><p>●帽子の日,●健康ハートの日</p><h2>歴史上の出来事</h2>")
              eq_refl) as [H _].
  destruct H as (info & E & Hh & Hb & He & _).
  - left. by eexists.
  - exists info. split; [done|]. split; [done|]. split; [done|].
    rewrite He. by vm_compute.
Defined.

(** X4.  Sampling and then sorting, on the store.  When the array has at
    most [count] elements, [sortByYear] receives the array itself: the
    caller's array is sorted in place.  Otherwise the caller's array is
    left as it was and the new array holds the sorted sample.  No other
    array changes. *)
Theorem sample_then_sort (J : nat -> nat) (array : loc) (count : nat)
    (h : gmap loc (list str)) :
  in_range J -> is_Some (h !! array) ->
  let r := getRandomItems J array count h in
  let s := sortByYear r.1 r.2 in
  ((length (arr h array) <= count)%nat ->
     s.1 = array /\
     arr s.2 array = sort_by compareYears (arr h array)) /\
  ((count < length (arr h array))%nat ->
     s.1 <> array /\
     arr s.2 array = arr h array /\
     arr s.2 s.1
     = sort_by compareYears (take count (shuffled J (arr h array)))) /\
  (forall a, a <> array -> is_Some (h !! a) -> s.2 !! a = h !! a).
Proof.
  intros _ Harray r s. subst s r.
  destruct (getRandomItems_store J array count h) as (Harr & Hsame & Hle & Hgt).
  destruct (getRandomItems J array count h) as [r1 h1] eqn:E. simpl in *.
  unfold sortByYear; simpl.
  split; [|split].
  - intros Hc. injection (Hle Hc) as -> ->. split; [done|].
    by rewrite arr_insert_eq.
  - intros Hc. destruct (Hgt Hc) as [Hfresh _].
    assert (r1 <> array) as Hne.
    { intros ->. destruct Harray as [x Hx]. congruence. }
    split; [done|]. split.
    + rewrite arr_insert_ne by done. unfold arr. by rewrite Hsame.
    + rewrite arr_insert_eq, Harr. unfold sample.
      by destruct (Nat.leb_spec (length (arr h array)) count); [lia|].
  - intros a Ha Hsome.
    destruct (Nat.le_gt_cases (length (arr h array)) count) as [Hc|Hc].
    + injection (Hle Hc) as -> ->. by rewrite lookup_insert_ne.
    + destruct (Hgt Hc) as [Hfresh _].
      assert (r1 <> a) by (intros ->; destruct Hsome; congruence).
      rewrite lookup_insert_ne by done. by apply Hsame.
Qed.

Lemma sample_then_sort_witness :
  let h : gmap loc (list str) :=
    {[ 7%nat := [u "1990年: A"; u "紀元前500年: B"; u "5年: C"] ]} in
  arr (sortByYear (getRandomItems (fun _ => 0%nat) 7%nat 5 h).1
                  (getRandomItems (fun _ => 0%nat) 7%nat 5 h).2).2 7%nat
  = [u "紀元前500年: B"; u "5年: C"; u "1990年: A"].
Proof.
  intros h.
  destruct (sample_then_sort (fun _ => 0%nat) 7%nat 5 h) as [H _].
  - intros i. lia.
  - by eexists.
  - destruct H as [_ ->]; [vm_compute; lia | by vm_compute].
Defined.

End RunFacts.

(** ** The earlier revision *)
Module LegacyFacts.
Import WikiParser Bot BotFacts RunFacts.

Lemma legacy_addSection_text shown header items message :
  Legacy.addSection shown header items message
  = message ++ sectionTextN shown header items.
Proof.
  unfold Legacy.addSection, sectionTextN. destruct items as [|x items]; simpl length.
  - by rewrite app_nil_r.
  - cbn [Nat.ltb Nat.leb].
    rewrite (fold_left_lines bulletLine).
    by rewrite <- !app_assoc.
Qed.

Lemma sectionTextN_take n header items :
  sectionTextN (S n) header (take (S n) items) = sectionTextN (S n) header items.
Proof.
  destruct items as [|x items]; [done|].
  unfold sectionTextN. cbn [take]. by rewrite take_take, Nat.min_id.
Qed.

(** X5.  The message of the earlier revision is the title, then the
    sections of the events, the births and the deaths in that order, then
    its footer, an empty line and the line [_Powered by Wikipedia_].  A
    list without entries gives no header and no line; a
    list with entries gives its header and one line for each of its first
    five entries, three for the deaths, so that entries beyond those never
    change the message. *)
Theorem legacy_message_sections (info : TodayInfo0) :
  Legacy.formatSlackMessage info
  = titleText (ti_date info)
    ++ sectionTextN 5 (u "🏛️ *歴史的な出来事*") (ti_events info)
    ++ sectionTextN 5 (u "🎂 *誕生日*") (ti_births info)
    ++ sectionTextN 3 (u "🙏 *忌日*") (ti_deaths info)
    ++ nl ++ u "_Powered by Wikipedia_" /\
  (forall shown header, sectionTextN shown header [] = []) /\
  (forall shown header item items,
     sectionTextN shown header (item :: items)
     = header ++ nl ++ concat (map bulletLine (take shown (item :: items))) ++ nl /\
     (length (take shown (item :: items)) <= shown)%nat) /\
  Legacy.formatSlackMessage info
  = Legacy.formatSlackMessage
      {| ti_date := ti_date info;
         ti_events := take 5 (ti_events info);
         ti_births := take 5 (ti_births info);
         ti_deaths := take 3 (ti_deaths info) |}.
Proof.
  assert (forall i, Legacy.formatSlackMessage i
    = titleText (ti_date i)
      ++ sectionTextN 5 (u "🏛️ *歴史的な出来事*") (ti_events i)
      ++ sectionTextN 5 (u "🎂 *誕生日*") (ti_births i)
      ++ sectionTextN 3 (u "🙏 *忌日*") (ti_deaths i)
      ++ Legacy.footer) as Htext.
  { intros i. unfold Legacy.formatSlackMessage.
    rewrite !legacy_addSection_text. unfold titleText. by rewrite <- !app_assoc. }
  split; [apply Htext|]. split; [done|].
  split. { intros shown header item items. split; [done|]. rewrite length_take. lia. }
  rewrite !Htext. cbn [ti_date ti_events ti_births ti_deaths].
  by rewrite !sectionTextN_take.
Qed.

Lemma legacy_main_deliver w info :
  Legacy.fetchTodayInfo w = Some info ->
  Legacy.main w
  = deliver w (Legacy.formatSlackMessage info) ([Log LogStart] ++ [Log LogMessage]).
Proof. intros H. unfold Legacy.main, deliver. by rewrite H. Qed.

(** X6.  A run of the earlier revision.  When the wiki lookup throws,
    finds no page or finds no content, there is no digest and nothing is
    sent, not even an error notice; otherwise the digest is the page as
    parsed, under the date in display form.  With a digest and the
    webhook, the digest is sent first, alone when the sink answers 200 and
    followed by one error notice otherwise; without the webhook nothing is
    sent. *)
Theorem legacy_main_posts (w : World) :
  (wiki_fails (w_wiki w) ->
     Legacy.fetchTodayInfo w = None /\
     Legacy.main w = [Log LogStart; Log LogNoInfo]) /\
  (forall content,
     w_wiki w = Returns (PageSlots content) \/
     (w_wiki w = Returns (PageLegacy content) /\ content <> []) ->
     Legacy.fetchTodayInfo w
     = Some (parseTodayInfo (getTodayDisplayString w) content)) /\
  (truthy (w_webhook w) = None -> posts (Legacy.main w) = []) /\
  (forall info url,
     Legacy.fetchTodayInfo w = Some info -> truthy (w_webhook w) = Some url ->
     (forall text, w_slack w 0%nat = Returns (200%nat, text) ->
        posts (Legacy.main w) = [Legacy.formatSlackMessage info]) /\
     (forall code text, w_slack w 0%nat = Returns (code, text) ->
        code <> 200%nat ->
        posts (Legacy.main w)
        = [Legacy.formatSlackMessage info;
           errorNotice (u "Error: Slack API error: " ++ text)]) /\
     (forall e, w_slack w 0%nat = Throws e ->
        posts (Legacy.main w) = [Legacy.formatSlackMessage info; errorNotice e])).
Proof.
  split; [|split; [|split]].
  - intros Hw.
    assert (Legacy.fetchTodayInfo w = None) as E.
    { unfold Legacy.fetchTodayInfo.
      destruct Hw as [[e ->] | [-> | [-> | ->]]]; reflexivity. }
    split; [done|]. unfold Legacy.main. by rewrite E.
  - intros content [H | [H Hc]]; unfold Legacy.fetchTodayInfo; rewrite H.
    + done.
    + by destruct content.
  - intros Hu. destruct (Legacy.fetchTodayInfo w) as [info|] eqn:E.
    + rewrite (legacy_main_deliver w info E). by apply deliver_posts.
    + unfold Legacy.main. by rewrite E.
  - intros info url E Hu. rewrite (legacy_main_deliver w info E).
    exact (proj2 (deliver_posts w (Legacy.formatSlackMessage info)
                    ([Log LogStart] ++ [Log LogMessage]) eq_refl) url Hu).
Qed.

Lemma legacy_main_posts_witness :
  Legacy.main (with_wiki world_fine (Returns PageMissing))
  = [Log LogStart; Log LogNoInfo] /\
  exists info, Legacy.fetchTodayInfo world_fine = Some info /\
    posts (Legacy.main world_fine) = [Legacy.formatSlackMessage info].
Proof.
  split.
  - apply (legacy_main_posts (with_wiki world_fine (Returns PageMissing))).
    right. by left.
  - destruct (Legacy.fetchTodayInfo world_fine) as [info|] eqn:E.
    + exists info. split; [reflexivity|].
      destruct (legacy_main_posts world_fine) as (_ & _ & _ & H).
      assert (Hu : truthy (w_webhook world_fine)
                   = Some (u "https://hooks.slack.com/services/T/B/X"))
        by (vm_compute; reflexivity).
      destruct (H info _ E Hu) as (H200 & _).
      apply (H200 (u "ok")). reflexivity.
    + vm_compute in E. discriminate.
Defined.

End LegacyFacts.

(** ** Where a section ends *)
Module SectionFacts.
Import WikiParser RegexFacts YearFacts DeathsFacts.

#[local] Arguments rmatch : simpl never.

Lemma prefix_of_app : forall l s,
  prefix_of l s = true -> s = l ++ drop (length l) s.
Proof.
  induction l as [|c l IH]; intros s H; simpl in *; [by rewrite drop_0|].
  destruct s as [|x s]; [done|].
  apply andb_true_iff in H as [Hc Hl]. apply N.eqb_eq in Hc as ->.
  simpl. f_equal. by apply IH.
Qed.

(** The body of a section: the lazy capture and the lookahead. *)
Lemma section_body pos s caps m :
  rmatch (cat [Group 1 (Star false (Cls CAny)); nextHeading]) Some
         (MState pos s caps) = Some m ->
  exists n, (n <= length s)%nat /\ group 1 m = take n s /\
    ends_here (drop n s) = true /\
    forall j, (j < n)%nat -> ends_here (drop j s) = false.
Proof.
  change (cat [Group 1 (Star false (Cls CAny)); nextHeading])
    with (Seq (Group 1 (Star false (Cls CAny))) (Seq nextHeading Eps)).
  intros H. rewrite rmatch_seq, rmatch_group, rmatch_star_cls_lazy in H.
  apply lazy_cls_first in H as (n & Hn & Hk & Hmin).
  exists n. split; [done|].
  cbn [m_pos m_rest] in Hk. rewrite rmatch_seq in Hk.
  unfold set_cap in Hk; cbn [m_pos m_rest m_caps] in Hk.
  rewrite nextHeading_at in Hk.
  destruct (ends_here (drop n s)) eqn:En; [|done].
  rewrite rmatch_eps in Hk. injection Hk as <-.
  split; [|split; [done|]].
  - unfold group, cap; simpl. by replace (pos + n - pos)%nat with n by lia.
  - intros j Hj. specialize (Hmin j Hj). cbn [m_pos m_rest] in Hmin.
    rewrite rmatch_seq in Hmin.
    unfold set_cap in Hmin; cbn [m_pos m_rest m_caps] in Hmin.
    rewrite nextHeading_at in Hmin.
    destruct (ends_here (drop j s)); [|done].
    by rewrite rmatch_eps in Hmin.
Qed.

(** A section found under the heading [heading]. *)
Lemma section_under heading pos t m :
  rmatch (lit heading)
    (rmatch (cat [Group 1 (Star false (Cls CAny)); nextHeading]) Some)
    (MState pos t []) = Some m ->
  exists rest,
    t = heading ++ group 1 m ++ rest /\ ends_here rest = true /\
    forall j, (j < length (group 1 m))%nat ->
      ends_here (drop j (group 1 m ++ rest)) = false.
Proof.
  rewrite rmatch_lit_string. destruct (prefix_of heading t) eqn:Hp; [|done].
  intros H. apply section_body in H as (n & Hn & Hg & He & Hmin).
  apply prefix_of_app in Hp. set (s := drop (length heading) t) in *.
  exists (drop n s). rewrite Hg, take_drop. split; [done|]. split; [done|].
  intros j Hj. apply Hmin. rewrite length_take in Hj. lia.
Qed.

Lemma subheading_cuts body x tail s rest :
  s ++ rest = body ++ u "=== " ++ x :: tail -> x <> ch "=" ->
  (forall j, (j < length s)%nat -> ends_here (drop j (s ++ rest)) = false) ->
  (length s <= S (length body))%nat.
Proof.
  intros E Hx Hmin. destruct (Nat.le_gt_cases (length s) (S (length body)));
    [done|]. exfalso.
  specialize (Hmin (S (length body))). rewrite E in Hmin.
  replace (S (length body)) with (length body + 1)%nat in Hmin by lia.
  rewrite <- drop_drop, drop_app_length in Hmin.
  change (drop 1 (u "=== " ++ x :: tail))
    with (ch "=" :: ch "=" :: ch " " :: x :: tail) in Hmin.
  cbn [ends_here] in Hmin. rewrite !N.eqb_refl in Hmin. cbn [andb] in Hmin.
  assert ((x =? ch "=") = false) as Hx' by (by apply N.eqb_neq).
  rewrite Hx' in Hmin. simpl in Hmin.
  assert (false = true) by (rewrite <- Hmin; [done | lia]). done.
Qed.

Lemma prefix_of_refl : forall l s, prefix_of l (l ++ s) = true.
Proof.
  induction l as [|c l IH]; intros s; simpl; [done|]. by rewrite N.eqb_refl, IH.
Qed.

Lemma rmatch_lit_app k caps l pos s :
  rmatch (lit l) k (MState pos (l ++ s) caps)
  = k (MState (pos + length l) s caps).
Proof. by rewrite rmatch_lit_string, prefix_of_refl, drop_app_length. Qed.

(** The lazy star over any character reaches every later position. *)
Lemma lazy_any_reach k caps : forall s pos n,
  (n <= length s)%nat ->
  k (MState (pos + n) (drop n s) caps) <> None ->
  lazy_cls (cls_mem CAny) k pos s caps <> None.
Proof.
  induction s as [|c t IH]; intros pos n Hn Hk; simpl.
  - simpl in Hn. assert (n = 0)%nat as -> by lia.
    rewrite Nat.add_0_r in Hk. simpl in Hk. by destruct (k (MState pos [] caps)).
  - destruct n as [|n].
    + rewrite Nat.add_0_r in Hk. simpl in Hk.
      by destruct (k (MState pos (c :: t) caps)).
    + destruct (k (MState pos (c :: t) caps)); [done|]. simpl.
      apply (IH (S pos) n); [simpl in Hn; lia|]. simpl in Hk.
      by replace (S pos + n)%nat with (pos + S n)%nat by lia.
Qed.

Lemma lazy_any_total k caps s pos :
  k (MState (pos + length s) [] caps) <> None ->
  lazy_cls (cls_mem CAny) k pos s caps <> None.
Proof.
  intros Hk. apply (lazy_any_reach k caps s pos (length s)); [done|].
  by rewrite drop_all.
Qed.

(** After its heading a section is always found. *)
Lemma section_total pos s caps :
  rmatch (cat [Group 1 (Star false (Cls CAny)); nextHeading]) Some
         (MState pos s caps) <> None.
Proof.
  change (cat [Group 1 (Star false (Cls CAny)); nextHeading])
    with (Seq (Group 1 (Star false (Cls CAny))) (Seq nextHeading Eps)).
  rewrite rmatch_seq, rmatch_group, rmatch_star_cls_lazy.
  apply lazy_any_total. cbn [m_pos m_rest].
  rewrite rmatch_seq. unfold set_cap; cbn [m_pos m_rest m_caps].
  rewrite nextHeading_at. done.
Qed.

(** The section under a heading that is one literal. *)
Lemma section_of_heading r h content m :
  r = Seq (lit h) (cat [Group 1 (Star false (Cls CAny)); nextHeading]) ->
  search r content = Some m -> section_of [h] content (group 1 m).
Proof.
  intros -> H. apply search_first in H as (pre & t & -> & H & Hfirst).
  rewrite match_at_eq, rmatch_seq in H.
  apply section_under in H as (rest & -> & He & Hmin).
  exists pre, h, rest. split; [left|]. split; [done|]. split.
  { intros j h' Hj Hh. apply list_elem_of_singleton in Hh as ->.
    specialize (Hfirst j Hj).
    rewrite match_at_eq, rmatch_seq, rmatch_lit_string in Hfirst.
    destruct (prefix_of h _); [|done]. by apply section_total in Hfirst. }
  split; [done|]. split; [done|].
  intros before x tail Eb Hx. by eapply subheading_cuts.
Qed.

Lemma eventsSectionRe_eq :
  eventsSectionRe
  = Seq (lit (u "== できごと =="))
        (cat [Group 1 (Star false (Cls CAny)); nextHeading]).
Proof. reflexivity. Qed.

Lemma deathsSectionRe_eq :
  deathsSectionRe
  = Seq (lit (u "== 忌日 =="))
        (cat [Group 1 (Star false (Cls CAny)); nextHeading]).
Proof. reflexivity. Qed.

Lemma birthsSectionRe_eq :
  birthsSectionRe
  = Seq (lit (u "== 誕生"))
      (Seq (Alt (lit (u "日")) Eps)
        (Seq (lit (u " =="))
          (cat [Group 1 (Star false (Cls CAny)); nextHeading]))).
Proof. reflexivity. Qed.

Lemma births_heading_short : u "== 誕生 ==" = u "== 誕生" ++ u " ==".
Proof. reflexivity. Qed.

Lemma births_heading_long : u "== 誕生日 ==" = u "== 誕生" ++ u "日" ++ u " ==".
Proof. reflexivity. Qed.

Lemma day_not_space s : prefix_of (u "日") (u " ==" ++ s) = false.
Proof. reflexivity. Qed.

(** Under either births heading the pattern matches. *)
Lemma births_heading_found pos t :
  prefix_of (u "== 誕生 ==") t = true \/ prefix_of (u "== 誕生日 ==") t = true ->
  rmatch birthsSectionRe Some (MState pos t []) <> None.
Proof.
  rewrite birthsSectionRe_eq, rmatch_seq.
  intros [H | H]; apply prefix_of_app in H; rewrite H.
  - rewrite births_heading_short, <- app_assoc, rmatch_lit_app.
    rewrite rmatch_seq, rmatch_alt, rmatch_lit_string, day_not_space.
    cbn [orelse]. rewrite rmatch_eps, rmatch_seq, rmatch_lit_app.
    apply section_total.
  - rewrite births_heading_long, <- !app_assoc, rmatch_lit_app.
    rewrite rmatch_seq, rmatch_alt, rmatch_lit_app, rmatch_seq, rmatch_lit_app.
    pose proof (section_total
      (pos + length (u "== 誕生") + length (u "日") + length (u " =="))
      (drop (length (u "== 誕生日 ==")) t) []) as Ht.
    destruct (rmatch _ Some _); [done | by destruct Ht].
Qed.

Lemma section_of_births content m :
  search birthsSectionRe content = Some m ->
  section_of [u "== 誕生 =="; u "== 誕生日 =="] content (group 1 m).
Proof.
  intros H. apply search_first in H as (pre & t & -> & H & Hfirst).
  assert (forall j h, (j < length pre)%nat ->
            h ∈ [u "== 誕生 =="; u "== 誕生日 =="] ->
            prefix_of h (drop j (pre ++ t)) = false) as Hnone.
  { intros j h Hj Hh. specialize (Hfirst j Hj). rewrite match_at_eq in Hfirst.
    destruct (prefix_of h (drop j (pre ++ t))) eqn:Hp; [|done].
    exfalso. revert Hfirst. apply births_heading_found.
    apply elem_of_cons in Hh as [-> | Hh]; [by left|].
    apply list_elem_of_singleton in Hh as ->. by right. }
  rewrite match_at_eq, birthsSectionRe_eq, rmatch_seq, rmatch_lit_string in H.
  destruct (prefix_of (u "== 誕生") t) eqn:Hp; [|done].
  apply prefix_of_app in Hp. revert H Hp.
  generalize (drop (length (u "== 誕生")) t).
  generalize (length pre + length (u "== 誕生"))%nat. intros pos1 t1 H Hp.
  rewrite rmatch_seq, rmatch_alt in H.
  apply orelse_some in H as [H | [_ H]].
  - rewrite rmatch_lit_string in H.
    destruct (prefix_of (u "日") t1) eqn:Hp1; [|done].
    apply prefix_of_app in Hp1. revert H Hp1.
    generalize (drop (length (u "日")) t1).
    generalize (pos1 + length (u "日"))%nat. intros pos2 t2 H Hp1.
    rewrite rmatch_seq in H.
    apply section_under in H as (rest & Ht2 & He & Hmin).
    exists pre, (u "== 誕生日 =="), rest.
    split; [right; left|]. split.
    { rewrite Hp, Hp1, Ht2, births_heading_long, <- !app_assoc. reflexivity. }
    split; [done|]. split; [done|]. split; [done|].
    intros before x tail Eb Hx. by eapply subheading_cuts.
  - rewrite rmatch_eps, rmatch_seq in H.
    apply section_under in H as (rest & Ht1 & He & Hmin).
    exists pre, (u "== 誕生 =="), rest.
    split; [left|]. split.
    { rewrite Hp, Ht1, births_heading_short, <- !app_assoc. reflexivity. }
    split; [done|]. split; [done|]. split; [done|].
    intros before x tail Eb Hx. by eapply subheading_cuts.
Qed.

(** X7.  Where the parser's sections end.  The section of the events is
    what follows the first occurrence of the heading [== できごと ==],
    that of the births what follows the first occurrence of
    [== 誕生 ==] or [== 誕生日 ==], that of the deaths what follows the
    first occurrence of [== 忌日 ==]; each runs to the first place where
    [== ] and a character other than [=] begin, or to the end of the page
    when there is none.  That place exists inside every [=== x] heading:
    a section is cut after the first [=] of its first sub-heading, and
    nothing below that heading is read. *)
Theorem section_extent (content : str) (m : mstate) :
  (search eventsSectionRe content = Some m ->
   section_of [u "== できごと =="] content (group 1 m)) /\
  (search birthsSectionRe content = Some m ->
   section_of [u "== 誕生 =="; u "== 誕生日 =="] content (group 1 m)) /\
  (search deathsSectionRe content = Some m ->
   section_of [u "== 忌日 =="] content (group 1 m)).
Proof.
  split; [|split].
  - apply section_of_heading, eventsSectionRe_eq.
  - apply section_of_births.
  - apply section_of_heading, deathsSectionRe_eq.
Qed.

Lemma section_extent_witness :
  exists m,
    search deathsSectionRe page_with_persons = Some m /\
    section_of [u "== 忌日 =="] page_with_persons (group 1 m).
Proof.
  destruct (search deathsSectionRe page_with_persons) as [m|] eqn:E.
  - exists m. split; [reflexivity|].
    destruct (section_extent page_with_persons m) as (_ & _ & H).
    exact (H E).
  - vm_compute in E. discriminate.
Defined.

End SectionFacts.

(** ** The years of the historical events *)
Module EventYears.
Import Cleaner WikiParser Sampling RegexFacts NumberFacts YearFacts BirthYears
  DeathsFacts.

#[local] Arguments rmatch : simpl never.

(** What a group captures is the text its body consumed. *)
Lemma group_capture i r a b :
  matches (Group i r) a b ->
  exists w, cap i b = Some w /\ m_rest a = w ++ m_rest b.
Proof.
  intros H. apply matches_group_inv in H as (b' & H & ->).
  apply matches_span in H as (w & Hr & Hp). exists w. split; [|done].
  unfold cap, set_cap; simpl. rewrite Nat.eqb_refl. simpl.
  rewrite Hr, Hp. replace (m_pos a + length w - m_pos a)%nat with (length w) by lia.
  by rewrite take_app_length.
Qed.

Lemma eventLineRe_eq :
  eventLineRe = Seq bulletRe (Seq
    (Group 1 (Alt (Seq (lit (u "紀元"))
                     (Seq (Alt (lit (u "前")) Eps) (Seq yearRe Eps)))
                  yearRe))
    (cat [dashRe; Group 2 (plus false (Cls CDot));
          Alt (cat [Lit (ch "."); Star true (Cls CSpace); Eol]) Eol])).
Proof. reflexivity. Qed.

(** The first capture of a matched event line is a numeral, with or
    without 年, after 紀元, 紀元前 or nothing. *)
Lemma event_year line m :
  search eventLineRe line = Some m ->
  exists pfx d ds t,
    (pfx = [] \/ pfx = u "紀元" \/ pfx = u "紀元前") /\
    is_digit d = true /\ Forall (fun c => is_digit c = true) ds /\
    (t = [] \/ t = u "年") /\ group 1 m = pfx ++ d :: ds ++ t.
Proof.
  intros H. apply search_some in H as (pre & s & _ & H).
  apply match_at_sound in H. rewrite eventLineRe_eq in H.
  apply matches_seq_inv in H as (st1 & _ & H).
  apply matches_seq_inv in H as (st2 & Hg & Hrest).
  assert (group 1 m = group 1 st2) as ->.
  { unfold group. rewrite (matches_cap_other _ _ _ 1%nat Hrest); [done|].
    vm_compute. intros [?|[]]; discriminate. }
  destruct (group_capture _ _ _ _ Hg) as (w & Hcap & Hw).
  unfold group. rewrite Hcap. simpl.
  apply matches_group_inv in Hg as (b & Hy & ->). simpl in Hw.
  apply matches_alt_inv in Hy as [Hy | Hy].
  - apply matches_seq_inv in Hy as (a1 & Hl & Hy).
    apply lit_matches in Hl.
    apply matches_seq_inv in Hy as (a2 & Ho & Hy).
    apply matches_seq_inv in Hy as (a3 & Hy & He).
    apply matches_eps_inv in He as ->.
    apply yearRe_word in Hy as (d & ds & t & Hd & Hds & Ht & Hr & _).
    apply matches_alt_inv in Ho as [Ho | Ho].
    + apply lit_matches in Ho.
      exists (u "紀元前"), d, ds, t. repeat split; try done; [by do 2 right|].
      apply (app_inv_tail (m_rest a3)). rewrite <- Hw, Hl, Ho, Hr.
      change (u "紀元前") with [32000; 20803; 21069].
      change (u "紀元") with [32000; 20803]. change (u "前") with [21069].
      simpl. by rewrite <- app_assoc.
    + apply matches_eps_inv in Ho as ->.
      exists (u "紀元"), d, ds, t. repeat split; try done; [by right; left|].
      apply (app_inv_tail (m_rest a3)). rewrite <- Hw, Hl, Hr.
      change (u "紀元") with [32000; 20803].
      simpl. by rewrite <- app_assoc.
  - apply yearRe_word in Hy as (d & ds & t & Hd & Hds & Ht & Hr & _).
    exists [], d, ds, t. repeat split; try done; [by left|].
    apply (app_inv_tail (m_rest b)). rewrite <- Hw, Hr. simpl.
    by rewrite <- !app_assoc.
Qed.

(** After 紀元 without 前 neither pattern of [extractYear] matches. *)
Lemma extractYear_epoch d s :
  is_digit d = true -> extractYear (u "紀元" ++ d :: s) = Num 0.
Proof.
  intros Hd. unfold extractYear.
  change (u "紀元" ++ d :: s) with (32000 :: 20803 :: d :: s).
  assert (search bcRe (32000 :: 20803 :: d :: s) = None) as ->.
  { rewrite bcRe_eq, search_bol. unfold match_at.
    rewrite rmatch_seq, rmatch_bol, !rmatch_seq.
    rewrite rmatch_lit. unfold step at 1; cbn [m_rest m_pos m_caps].
    rewrite N.eqb_refl. cbv iota.
    rewrite rmatch_seq, rmatch_lit. unfold step at 1; cbn [m_rest m_pos m_caps].
    rewrite N.eqb_refl. cbv iota.
    rewrite rmatch_seq, rmatch_lit. unfold step at 1; cbn [m_rest m_pos m_caps].
    by rewrite (digit_not 21069 d Hd). }
  assert (search adRe (32000 :: 20803 :: d :: s) = None) as ->; [|done].
  change adRe with (Seq Bol (Seq (Group 1 (plus true (Cls CDigit)))
      (Seq (opt (lit (u "年"))) (Seq (Lit (ch ":")) Eps)))).
  rewrite search_bol. unfold match_at.
  rewrite rmatch_seq, rmatch_bol, rmatch_seq, rmatch_group. unfold plus.
  rewrite rmatch_seq, rmatch_cls. unfold step at 1; cbn [m_rest cls_mem].
  by change (is_digit 32000) with false.
Qed.

(** X8.  The sort key of a parsed event.  Every string the parser puts
    in the historical list begins with the captured year and a colon.
    When the year is a plain numeral the key is what [parseInt] reads
    from it, the double nearest to the number it denotes (that number
    itself below 2^53); after 紀元前 it is the opposite of that; after
    紀元 alone, which the line pattern accepts too, neither pattern of
    [extractYear] applies and the key is 0. *)
Theorem historical_year_parsed (content item : str) :
  item ∈ wi_historical (parseWikipediaContent content) ->
  exists d ds tail,
    is_digit d = true /\ Forall (fun c => is_digit c = true) ds /\
    year_tail tail /\
    parseInt (d :: ds) = to_number (mathInt (d :: ds)) /\
    ((mathInt (d :: ds) < 2 ^ 53)%Z ->
     parseInt (d :: ds) = Num (mathInt (d :: ds))) /\
    ((item = d :: ds ++ tail /\ extractYear item = parseInt (d :: ds)) \/
     (item = u "紀元前" ++ d :: ds ++ tail /\
      extractYear item = nneg (parseInt (d :: ds))) \/
     (item = u "紀元" ++ d :: ds ++ tail /\ extractYear item = Num 0)).
Proof.
  unfold parseWikipediaContent; simpl. intros H.
  apply list_elem_of_omap in H as (line & _ & H).
  unfold eventRecord in H.
  destruct (search eventLineRe line) as [m|] eqn:Hm; [|done].
  destruct (event_year line m Hm)
    as (pfx & d & ds & t & Hpfx & Hd & Hds & Ht & Hg).
  destruct (str_eqb (group 2 m) []); [done|].
  destruct (eventKept _); [|done].
  set (ev := cleanWikiText _) in H.
  assert (item = group 1 m ++ u ": " ++ ev) as -> by congruence.
  assert (year_tail (t ++ u ": " ++ ev)) as Htail.
  { destruct Ht as [-> | ->]; constructor. }
  exists d, ds, (t ++ u ": " ++ ev).
  assert (group 1 m ++ u ": " ++ ev = pfx ++ d :: ds ++ t ++ u ": " ++ ev) as ->.
  { rewrite Hg. rewrite <- app_assoc. simpl. by rewrite <- app_assoc. }
  destruct (parseInt_numeral d ds Hd) as (Hp & _ & _ & _ & He).
  split; [done|]. split; [done|]. split; [done|].
  split; [done|]. split; [done|].
  destruct Hpfx as [-> | [-> | ->]].
  - left. split; [done|]. by apply extractYear_ad.
  - do 2 right. split; [done|]. by apply extractYear_epoch.
  - right; left. split; [done|]. by apply extractYear_bc.
Qed.

Lemma historical_year_parsed_witness :
  exists d ds tail,
    is_digit d = true /\ year_tail tail /\
    u "紀元14年: 初代ローマ皇帝アウグストゥスが死去" = u "紀元" ++ d :: ds ++ tail /\
    extractYear (u "紀元14年: 初代ローマ皇帝アウグストゥスが死去") = Num 0.
Proof.
  destruct (historical_year_parsed page_with_epochs
    (u "紀元14年: 初代ローマ皇帝アウグストゥスが死去"))
    as (d & ds & tail & Hd & _ & Ht & _ & _ & H).
  - vm_compute. right. right. left.
  - exists d, ds, tail. split; [exact Hd|]. split; [exact Ht|].
    destruct H as [[E _] | [[E _] | H]]; [| |exact H].
    + vm_compute in E. injection E as <- _. vm_compute in Hd. discriminate Hd.
    + vm_compute in E. discriminate E.
Defined.

End EventYears.

(** ** What the cleaner keeps *)
Module CleanerShape.
Import Cleaner RegexFacts YearFacts CleanerFacts.

#[local] Arguments rmatch : simpl never.

(** Without lookahead, every capture made by a match is a piece of the
    text the match consumed. *)
Lemma matches_inside r a b :
  matches r a b -> ahead_free r = true ->
  exists w l, m_rest a = w ++ m_rest b /\
    m_pos b = (m_pos a + length w)%nat /\
    m_caps b = l ++ m_caps a /\
    Forall (fun p => snd p `sublist_of` w) l.
Proof.
  induction 1; intros Hf; simpl in Hf.
  - exists [], []. split; [done|]. split; [simpl; lia|]. by split.
  - exists [c], []. split; [done|]. split; [simpl; lia|]. by split.
  - exists [c], []. split; [done|]. split; [simpl; lia|]. by split.
  - apply andb_true_iff in Hf as [Hf1 Hf2].
    destruct (IHmatches1 Hf1) as (w1 & l1 & E1 & P1 & C1 & F1).
    destruct (IHmatches2 Hf2) as (w2 & l2 & E2 & P2 & C2 & F2).
    exists (w1 ++ w2), (l2 ++ l1).
    rewrite E1, E2, P2, P1, C2, C1, <- !app_assoc, length_app.
    split; [done|]. split; [lia|]. split; [done|].
    apply Forall_app. split.
    + eapply Forall_impl; [exact F2|]. intros p Hp. by apply sublist_inserts_l.
    + eapply Forall_impl; [exact F1|]. intros p Hp. by apply sublist_inserts_r.
  - apply andb_true_iff in Hf as [Hf1 Hf2]. auto.
  - apply andb_true_iff in Hf as [Hf1 Hf2]. auto.
  - exists [], []. split; [done|]. split; [simpl; lia|]. by split.
  - destruct (IHmatches1 Hf) as (w1 & l1 & E1 & P1 & C1 & F1).
    destruct (IHmatches2 Hf) as (w2 & l2 & E2 & P2 & C2 & F2).
    exists (w1 ++ w2), (l2 ++ l1).
    rewrite E1, E2, P2, P1, C2, C1, <- !app_assoc, length_app.
    split; [done|]. split; [lia|]. split; [done|].
    apply Forall_app. split.
    + eapply Forall_impl; [exact F2|]. intros p Hp. by apply sublist_inserts_l.
    + eapply Forall_impl; [exact F1|]. intros p Hp. by apply sublist_inserts_r.
  - destruct (IHmatches Hf) as (w & l & E & P & C & F).
    exists w, ((i, take (m_pos b - m_pos a) (m_rest a)) :: l).
    unfold set_cap; simpl. rewrite C. split; [done|]. split; [done|].
    split; [done|]. constructor; [|done]. simpl.
    rewrite E, P. replace (m_pos a + length w - m_pos a)%nat with (length w) by lia.
    by rewrite take_app_length.
  - done.
  - exists [], []. split; [done|]. split; [simpl; lia|]. by split.
  - exists [], []. split; [done|]. split; [simpl; lia|]. by split.
Qed.

Lemma found_inside i w : forall l : list (nat * str),
  Forall (fun p => snd p `sublist_of` w) l ->
  default [] (snd <$> List.find (fun p => Nat.eqb (fst p) i) l) `sublist_of` w.
Proof.
  induction 1 as [|[j x] l Hx _ IH]; simpl; [apply sublist_nil_l|].
  by destruct (Nat.eqb j i).
Qed.

(** A replacement that is empty or one capture lies inside the match. *)
Lemma expand_inside r tpl pos s st :
  ahead_free r = true -> (tpl = [] \/ exists i, tpl = [RGroup i]) ->
  match_at r pos s = Some st ->
  exists w, s = w ++ m_rest st /\ m_pos st = (pos + length w)%nat /\
            expand tpl st `sublist_of` w.
Proof.
  intros Hf Ht H. apply match_at_sound in H.
  apply matches_inside in H as (w & l & E & P & C & F); [|done].
  simpl in *. exists w. split; [done|]. split; [done|].
  destruct Ht as [-> | [i ->]]; simpl; [apply sublist_nil_l|].
  rewrite app_nil_r. unfold group, cap. rewrite C, app_nil_r.
  by apply found_inside.
Qed.

(** Such a replacement only deletes. *)
Lemma replace_from_sublist r tpl :
  ahead_free r = true -> (tpl = [] \/ exists i, tpl = [RGroup i]) ->
  forall fuel pos s, replace_from fuel r tpl pos s `sublist_of` s.
Proof.
  intros Hf Ht. induction fuel as [|f IH]; intros pos s; simpl; [done|].
  assert (match s with [] => [] | c :: t => c :: replace_from f r tpl (S pos) t end
          `sublist_of` s) as Hskip.
  { destruct s as [|c t]; [done|]. apply sublist_skip, IH. }
  destruct (match_at r pos s) as [st|] eqn:E; [|done].
  destruct (expand_inside r tpl pos s st Hf Ht E) as (w & Hw & Hp & Hsub).
  destruct (Nat.ltb_spec pos (m_pos st)).
  - rewrite Hw. apply sublist_app; [done | apply IH].
  - destruct w; [|simpl in Hp; lia].
    apply sublist_nil_r in Hsub. rewrite Hsub. exact Hskip.
Qed.

Lemma drop_while_sublist p s : drop_while p s `sublist_of` s.
Proof.
  destruct (drop_while_suffix p s) as [a Ha]. rewrite Ha at 2.
  by apply sublist_inserts_l.
Qed.

Lemma trim_sublist s : trim s `sublist_of` s.
Proof.
  unfold trim. etrans; [|apply (drop_while_sublist is_space)].
  generalize (drop_while is_space s). intros x.
  destruct (drop_while_suffix is_space (rev x)) as [b Hb].
  apply (f_equal (@rev _)) in Hb. rewrite rev_involutive, rev_app_distr in Hb.
  remember (rev (drop_while is_space (rev x))) as y. rewrite Hb.
  by apply sublist_inserts_r.
Qed.

Lemma cleanWikiText_sublist text : cleanWikiText text `sublist_of` text.
Proof.
  unfold cleanWikiText, replace_all.
  etrans; [apply trim_sublist|].
  etrans; [apply replace_from_sublist; [done | by left]|].
  etrans; [apply replace_from_sublist; [done | by left]|].
  etrans; [apply replace_from_sublist; [done | by left]|].
  etrans; [apply replace_from_sublist; [done | by left]|].
  etrans; [apply replace_from_sublist; [done | right; by exists 1%nat]|].
  apply replace_from_sublist; [done | right; by exists 2%nat].
Qed.

(** X9.  The cleaner only deletes: its result is the input with some
    characters removed, the others in their order; it is never longer
    than the input and holds no character the input has not. *)
Theorem cleanWikiText_only_deletes (text : str) :
  cleanWikiText text `sublist_of` text /\
  (length (cleanWikiText text) <= length text)%nat /\
  (forall c, c ∈ cleanWikiText text -> c ∈ text).
Proof.
  pose proof (cleanWikiText_sublist text) as H.
  split; [done|]. split; [by apply sublist_length|].
  intros c Hc. eapply elem_of_sublist; [exact Hc | exact H].
Qed.

End CleanerShape.

(** ** Entries are single lines *)
Module LineFacts.
Import Cleaner WikiParser RegexFacts YearFacts CleanerShape.

#[local] Arguments rmatch : simpl never.

Lemma digit_one_line c : is_digit c = true -> is_line_end c = false.
Proof.
  unfold is_digit, is_line_end. intros H.
  apply andb_true_iff in H as [H1 H2].
  apply N.leb_le in H1, H2.
  repeat (apply orb_false_iff; split); apply N.eqb_neq; lia.
Qed.

(** What a single-line regex consumes, and what the groups of a regex
    with single-line groups capture. *)
Lemma matches_one_line r a b :
  matches r a b ->
  (single_line r = true ->
   exists w, m_rest a = w ++ m_rest b /\
             m_pos b = (m_pos a + length w)%nat /\ one_line w) /\
  (captures_single_line r = true ->
   exists l, m_caps b = l ++ m_caps a /\ Forall (fun p => one_line (snd p)) l).
Proof.
  induction 1; simpl.
  - split; intros _; [exists [] | exists []];
      repeat split; simpl; try lia; constructor.
  - split; [intros Hc; exists [c] | intros _; exists []];
      repeat split; simpl; try lia; try constructor; [|constructor].
    by apply negb_true_iff.
  - split; [intros Hc; exists [c] | intros _; exists []];
      repeat split; simpl; try lia; try constructor; [|constructor].
    destruct k; try discriminate; simpl in H.
    + by apply negb_true_iff.
    + by apply digit_one_line.
  - destruct IHmatches1 as [S1 C1], IHmatches2 as [S2 C2]. split; intros Hf;
      apply andb_true_iff in Hf as [Hf1 Hf2].
    + destruct (S1 Hf1) as (w1 & E1 & P1 & L1), (S2 Hf2) as (w2 & E2 & P2 & L2).
      exists (w1 ++ w2). rewrite E1, E2, P2, P1, <- app_assoc, length_app.
      split; [done|]. split; [lia|]. by apply Forall_app.
    + destruct (C1 Hf1) as (l1 & E1 & L1), (C2 Hf2) as (l2 & E2 & L2).
      exists (l2 ++ l1). rewrite E2, E1, <- app_assoc. split; [done|].
      by apply Forall_app.
  - destruct IHmatches as [S1 C1]. split; intros Hf;
      apply andb_true_iff in Hf as [Hf1 Hf2]; auto.
  - destruct IHmatches as [S1 C1]. split; intros Hf;
      apply andb_true_iff in Hf as [Hf1 Hf2]; auto.
  - split; intros _; [exists [] | exists []];
      repeat split; simpl; try lia; constructor.
  - destruct IHmatches1 as [S1 C1], IHmatches2 as [S2 C2]. split; intros Hf.
    + destruct (S1 Hf) as (w1 & E1 & P1 & L1), (S2 Hf) as (w2 & E2 & P2 & L2).
      exists (w1 ++ w2). rewrite E1, E2, P2, P1, <- app_assoc, length_app.
      split; [done|]. split; [lia|]. by apply Forall_app.
    + destruct (C1 Hf) as (l1 & E1 & L1), (C2 Hf) as (l2 & E2 & L2).
      exists (l2 ++ l1). rewrite E2, E1, <- app_assoc. split; [done|].
      by apply Forall_app.
  - destruct IHmatches as [S1 C1]. split; intros Hf.
    + destruct (S1 Hf) as (w & E & P & L). by exists w.
    + apply andb_true_iff in Hf as [Hf1 Hf2].
      destruct (S1 Hf1) as (w & E & P & L), (C1 Hf2) as (l & El & Ll).
      exists ((i, take (m_pos b - m_pos a) (m_rest a)) :: l).
      rewrite El. split; [done|]. constructor; [|done]. simpl.
      rewrite E, P.
      replace (m_pos a + length w - m_pos a)%nat with (length w) by lia.
      by rewrite take_app_length.
  - destruct IHmatches as [S1 C1]. split; intros Hf.
    + exists []. repeat split; simpl; try lia; constructor.
    + destruct (C1 Hf) as (l & El & Ll). by exists l.
  - split; intros _; [exists [] | exists []];
      repeat split; simpl; try lia; constructor.
  - split; intros _; [exists [] | exists []];
      repeat split; simpl; try lia; constructor.
Qed.

Lemma found_one_line i : forall l : list (nat * str),
  Forall (fun p => one_line (snd p)) l ->
  one_line (default [] (snd <$> List.find (fun p => Nat.eqb (fst p) i) l)).
Proof.
  induction 1 as [|[j x] l Hx _ IH]; simpl; [constructor|].
  by destruct (Nat.eqb j i).
Qed.

(** The captures of a successful search with single-line groups. *)
Lemma search_one_line r line m i :
  captures_single_line r = true -> search r line = Some m ->
  one_line (group i m).
Proof.
  intros Hr H. apply search_some in H as (pre & s & _ & H).
  apply match_at_sound, matches_one_line in H as [_ H].
  destruct (H Hr) as (l & E & L). simpl in E.
  unfold group, cap. rewrite E, app_nil_r. by apply found_one_line.
Qed.

Lemma cleanWikiText_one_line text : one_line text -> one_line (cleanWikiText text).
Proof.
  unfold one_line. rewrite !Forall_forall. intros H c Hc.
  apply H. eapply elem_of_sublist; [exact Hc | apply cleanWikiText_sublist].
Qed.

Lemma text_one_line (s : str) :
  forallb (fun c => negb (is_line_end c)) s = true -> one_line s.
Proof.
  induction s as [|c s IH]; simpl; intros H; [constructor|].
  apply andb_true_iff in H as [Hc Hs].
  constructor; [by apply negb_true_iff | by apply IH].
Qed.

Lemma eventRecord_one_line line item :
  eventRecord line = Some item -> one_line item.
Proof.
  unfold eventRecord. destruct (search eventLineRe line) as [m|] eqn:Hm; [|done].
  destruct (str_eqb _ _); [done|]. destruct (eventKept _); [|done].
  pose proof (search_one_line eventLineRe line m) as Hg.
  intros H.
  assert (item = group 1 m ++ u ": " ++ cleanWikiText (group 2 m)) as ->
    by congruence.
  apply Forall_app. split; [by apply Hg|].
  apply Forall_app. split; [by apply text_one_line|].
  apply cleanWikiText_one_line. by apply Hg.
Qed.

Lemma personRecord_one_line lineRe line item :
  captures_single_line lineRe = true ->
  personRecord lineRe line = Some item -> one_line item.
Proof.
  intros Hr. unfold personRecord.
  destruct (search lineRe line) as [m|] eqn:Hm; [|done].
  destruct (str_eqb (group 2 m) []); [done|]. destruct (personKept _); [|done].
  pose proof (search_one_line lineRe line m) as Hg.
  assert (one_line (cleanWikiText (group 2 m))) as H2
    by (apply cleanWikiText_one_line; by apply Hg).
  set (occupation := if str_eqb (group 3 m) [] then _ else _).
  assert (one_line occupation) as H3.
  { unfold occupation. destruct (str_eqb (group 3 m) []); [constructor|].
    apply cleanWikiText_one_line. by apply Hg. }
  set (info := if str_eqb occupation [] then _ else _).
  assert (one_line info) as Hi.
  { unfold info. destruct (str_eqb occupation []); [done|].
    apply Forall_app. split; [done|].
    apply Forall_app. split; [by apply text_one_line|].
    apply Forall_app. split; [done | by apply text_one_line]. }
  intros H. assert (item = group 1 m ++ u ": " ++ info) as -> by congruence.
  apply Forall_app. split; [by apply Hg|].
  apply Forall_app. split; [by apply text_one_line | done].
Qed.

Lemma split_on_one_line s : one_line s -> split_on 10 (s ++ nl) = [s; []].
Proof.
  induction 1 as [|c s Hc _ IH]; [done|].
  change ((c :: s) ++ nl) with (c :: (s ++ nl)). cbn [split_on]. rewrite IH.
  assert ((c =? 10) = false) as ->; [|done].
  unfold is_line_end in Hc. by repeat (apply orb_false_iff in Hc as [Hc _]).
Qed.

(** X10.  Every entry the wiki parsers produce is a single line: it
    holds no line terminator (line feed, carriage return, U+2028 or
    U+2029), whatever the page; so each bullet of a message is one
    line. *)
Theorem entries_single_line (date content item : str) :
  item ∈ wi_historical (parseWikipediaContent content) \/
  item ∈ wi_births (parseWikipediaContent content) \/
  item ∈ ti_deaths (parseTodayInfo date content) ->
  one_line item /\ split_on 10 (bulletLine item) = [u "• " ++ item; []].
Proof.
  intros H. assert (one_line item) as Hl.
  { destruct H as [H | [H | H]]; simpl in H;
      apply list_elem_of_omap in H as (line & _ & H).
    - by eapply eventRecord_one_line.
    - by eapply (personRecord_one_line birthLineRe).
    - by eapply (personRecord_one_line deathLineRe). }
  split; [done|]. unfold bulletLine. rewrite app_assoc.
  apply split_on_one_line, Forall_app. split; [by apply text_one_line | done].
Qed.

Lemma entries_single_line_witness :
  one_line (u "紀元14年: 初代ローマ皇帝アウグストゥスが死去").
Proof.
  apply (entries_single_line [] page_with_epochs).
  left. vm_compute. right. right. left.
Defined.

End LineFacts.

(** ** The ends of a cleaned text *)
Module EdgeFacts.
Import Cleaner RegexFacts YearFacts CleanerFacts.

#[local] Arguments rmatch : simpl never.

Lemma edgeRe_eq :
  edgeRe =
    Alt (Seq Bol (Seq (Seq (Cls (CSpaceOr [ch "-"]))
                           (Star true (Cls (CSpaceOr [ch "-"])))) Eps))
        (Seq (Seq (Cls (CSpaceOr [ch "-"]))
                  (Star true (Cls (CSpaceOr [ch "-"])))) (Seq Eol Eps)).
Proof. reflexivity. Qed.

(** The greedy run before a continuation that always accepts. *)
Lemma greedy_cls_all p caps : forall s pos,
  exists n, greedy_cls p (rmatch Eps Some) pos s caps
            = Some (MState (pos + n) (drop_while p s) caps).
Proof.
  induction s as [|c t IH]; intros pos; simpl.
  - exists 0%nat. by rewrite Nat.add_0_r.
  - destruct (p c).
    + destruct (IH (S pos)) as [n ->]. exists (S n). simpl.
      by replace (pos + S n)%nat with (S pos + n)%nat by lia.
    + exists 0%nat. by rewrite Nat.add_0_r.
Qed.

(** The greedy run before the end of the input. *)
Lemma greedy_cls_eol p caps : forall s pos,
  greedy_cls p (rmatch (Seq Eol Eps) Some) pos s caps
  = if forallb p s then Some (MState (pos + length s) [] caps) else None.
Proof.
  induction s as [|c t IH]; intros pos; simpl.
  - by rewrite Nat.add_0_r.
  - destruct (p c); simpl; [|done]. rewrite IH.
    destruct (forallb p t); simpl; [|done].
    by replace (pos + S (length t))%nat with (S pos + length t)%nat by lia.
Qed.

(** One attempt of the edge pattern: at index 0 it takes the run at the
    start; further on it takes a run that reaches the end. *)
Lemma edgeRe_at_start c t :
  is_edge c = true ->
  exists n, match_at edgeRe 0 (c :: t)
            = Some (MState (S n) (drop_while is_edge t) []).
Proof.
  intros Hc. unfold match_at. rewrite edgeRe_eq, rmatch_alt, rmatch_seq, rmatch_bol.
  rewrite !rmatch_seq, rmatch_cls. unfold step at 1; cbn [m_rest m_pos m_caps].
  fold (is_edge c). rewrite Hc, rmatch_star_cls.
  destruct (greedy_cls_all is_edge [] t 1) as [n Hn].
  exists n. change (cls_mem (CSpaceOr [ch "-"])) with is_edge. by rewrite Hn.
Qed.

Lemma edgeRe_at_start_none s :
  match s with [] => True | c :: _ => is_edge c = false end ->
  match_at edgeRe 0 s = None.
Proof.
  intros Hs. unfold match_at. rewrite edgeRe_eq, rmatch_alt, rmatch_seq, rmatch_bol.
  rewrite !rmatch_seq, !rmatch_cls. unfold step; cbn [m_rest m_pos m_caps].
  destruct s as [|c t]; [done|]. fold (is_edge c). by rewrite Hs.
Qed.

Lemma edgeRe_at_later pos s :
  match_at edgeRe (S pos) s
  = match s with
    | c :: t => if is_edge c && forallb is_edge t
                then Some (MState (S (S pos) + length t) [] []) else None
    | [] => None
    end.
Proof.
  unfold match_at. rewrite edgeRe_eq, rmatch_alt.
  change (rmatch (Seq Bol ?r) Some (MState (S pos) s [])) with (@None mstate).
  cbn [orelse]. rewrite !rmatch_seq, rmatch_cls.
  unfold step at 1; cbn [m_rest m_pos m_caps].
  destruct s as [|c t]; [done|]. fold (is_edge c).
  destruct (is_edge c); [|done]. cbn [andb].
  rewrite rmatch_star_cls. change (cls_mem (CSpaceOr [ch "-"])) with is_edge.
  change (rmatch Eol (rmatch Eps Some)) with (rmatch (Seq Eol Eps) Some).
  by rewrite greedy_cls_eol.
Qed.

(** Past index 0 the replacement removes the run at the end. *)
Lemma edge_replace_later : forall s fuel pos, (length s < fuel)%nat ->
  replace_from fuel edgeRe [] (S pos) s = rstrip is_edge s.
Proof.
  induction s as [|c t IH]; intros fuel pos Hf;
    (destruct fuel as [|f]; [simpl in Hf; lia|]); cbn [replace_from].
  - by rewrite edgeRe_at_later.
  - rewrite edgeRe_at_later. cbn [rstrip].
    destruct (is_edge c && forallb is_edge t).
    + cbn [m_pos m_rest expand flat_map app].
      assert ((S pos <? S (S pos) + length t)%nat = true) as ->
        by (apply Nat.ltb_lt; lia).
      destruct f as [|f]; [done|]. cbn [replace_from].
      change (S (S pos) + length t)%nat with (S (S pos + length t)).
      by rewrite edgeRe_at_later.
    + rewrite IH; [done | simpl in Hf; lia].
Qed.

Lemma drop_while_length p : forall s, (length (drop_while p s) <= length s)%nat.
Proof.
  induction s as [|c t IH]; simpl; [done|]. destruct (p c); simpl; lia.
Qed.

(** The edge replacement removes the runs at both ends. *)
Lemma edge_replace s : replace_all edgeRe [] s = strip is_edge s.
Proof.
  unfold replace_all, strip. destruct s as [|c t]; [done|].
  cbn [replace_from drop_while]. destruct (is_edge c) eqn:Hc.
  - destruct (edgeRe_at_start c t Hc) as [n ->].
    cbn [m_pos m_rest expand flat_map app Nat.ltb Nat.leb].
    apply edge_replace_later. pose proof (drop_while_length is_edge t). simpl. lia.
  - rewrite edgeRe_at_start_none; [|done].
    cbn [rstrip]. rewrite Hc. cbn [andb]. f_equal.
    apply edge_replace_later. simpl. lia.
Qed.

Lemma drop_while_head p c : forall s,
  head (drop_while p s) = Some c -> p c = false.
Proof.
  induction s as [|x t IH]; simpl; [done|].
  destruct (p x) eqn:Hx; [done|]. simpl. by intros [= <-].
Qed.

Lemma rstrip_head p c : forall s,
  head (rstrip p s) = Some c -> head s = Some c.
Proof. intros [|x t]; simpl; [done|]. by destruct (p x && forallb p t). Qed.

Lemma rstrip_nil p : forall s, rstrip p s = [] -> forallb p s = true.
Proof.
  intros [|x t]; simpl; [done|].
  by destruct (p x && forallb p t) eqn:E.
Qed.

Lemma rstrip_last p c : forall s,
  last (rstrip p s) = Some c -> p c = false.
Proof.
  induction s as [|x t IH]; simpl; [done|].
  destruct (p x && forallb p t) eqn:E; [done|].
  destruct (rstrip p t) as [|y r] eqn:Er.
  - apply rstrip_nil in Er. rewrite Er, andb_true_r in E.
    simpl. by intros [= <-].
  - intros H. apply IH. exact H.
Qed.

Lemma drop_while_id p s :
  match s with [] => True | c :: _ => p c = false end -> drop_while p s = s.
Proof. destruct s as [|c t]; simpl; [done|]. by intros ->. Qed.

(** Trimming a text whose ends are not white space changes nothing. *)
Lemma trim_id s :
  (forall c, head s = Some c -> is_space c = false) ->
  (forall c, last s = Some c -> is_space c = false) ->
  trim s = s.
Proof.
  intros Hh Hl. unfold trim. rewrite (drop_while_id is_space s).
  2:{ destruct s; [done|]. by apply Hh. }
  rewrite drop_while_id; [apply rev_involutive|].
  destruct s as [|x t] using rev_ind; [done|].
  rewrite rev_app_distr. simpl. apply Hl. by rewrite last_snoc.
Qed.

Lemma edge_space c : is_edge c = false -> is_space c = false /\ c <> ch "-".
Proof.
  unfold is_edge, cls_mem, mem. cbn [existsb]. rewrite orb_false_r.
  intros H. apply orb_false_iff in H as [H1 H2]. split; [done|].
  by apply N.eqb_neq.
Qed.

Lemma strip_ends s c :
  (head (strip is_edge s) = Some c -> is_edge c = false) /\
  (last (strip is_edge s) = Some c -> is_edge c = false).
Proof.
  unfold strip. split.
  - intros H. apply rstrip_head in H. by apply drop_while_head in H.
  - apply rstrip_last.
Qed.

(** The last step of the cleaner has nothing left to remove. *)
Lemma trim_strip s : trim (strip is_edge s) = strip is_edge s.
Proof.
  apply trim_id; intros c H.
  - apply (proj1 (strip_ends s c)) in H. by apply edge_space in H as [? _].
  - apply (proj2 (strip_ends s c)) in H. by apply edge_space in H as [? _].
Qed.

(** X11.  A cleaned text neither begins nor ends with white space or a
    hyphen. *)
Theorem cleanWikiText_ends (text : str) (c : char) :
  head (cleanWikiText text) = Some c \/ last (cleanWikiText text) = Some c ->
  is_space c = false /\ c <> ch "-".
Proof.
  unfold cleanWikiText. rewrite edge_replace, trim_strip.
  intros [H | H];
    [apply (proj1 (strip_ends _ c)) in H | apply (proj2 (strip_ends _ c)) in H];
    by apply edge_space.
Qed.

Lemma cleanWikiText_ends_witness :
  is_space (ch "a") = false /\ ch "a" <> ch "-".
Proof.
  apply (cleanWikiText_ends (u " - abc - ")). left. vm_compute. reflexivity.
Defined.

End EdgeFacts.

(** ** Text without markup *)
Module PlainFacts.
Import Cleaner RegexFacts YearFacts CleanerFacts DeathsFacts EdgeFacts.

#[local] Arguments rmatch : simpl never.

(** A pattern that begins with a literal does not match where the input
    begins otherwise. *)
Lemma lit_first c r pos s :
  head s <> Some c -> match_at (Seq (Lit c) r) pos s = None.
Proof.
  intros H. unfold match_at. rewrite rmatch_seq, rmatch_lit.
  unfold step; cbn [m_rest]. destruct s as [|x t]; [done|].
  destruct (N.eqb_spec c x) as [->|]; [by destruct H | done].
Qed.

Lemma lits_first c l r pos s :
  head s <> Some c -> match_at (Seq (lit (c :: l)) r) pos s = None.
Proof.
  intros H. unfold match_at. rewrite rmatch_seq, rmatch_lit_string.
  cbn [prefix_of]. destruct s as [|x t]; [done|].
  destruct (N.eqb_spec c x) as [->|]; [by destruct H | done].
Qed.

Lemma pipedLinkRe_first pos s :
  head s <> Some (ch "[") -> match_at pipedLinkRe pos s = None.
Proof. exact (lits_first (ch "[") [ch "["] _ pos s). Qed.

Lemma bareLinkRe_first pos s :
  head s <> Some (ch "[") -> match_at bareLinkRe pos s = None.
Proof. exact (lits_first (ch "[") [ch "["] _ pos s). Qed.

Lemma templateRe_first pos s :
  head s <> Some (ch "{") -> match_at templateRe pos s = None.
Proof. exact (lits_first (ch "{") [ch "{"] _ pos s). Qed.

Lemma tagRe_first pos s :
  head s <> Some (ch "<") -> match_at tagRe pos s = None.
Proof. exact (lit_first (ch "<") _ pos s). Qed.

Lemma asideRe_first pos s :
  head s <> Some (ch "(") -> match_at asideRe pos s = None.
Proof. exact (lit_first (ch "(") _ pos s). Qed.

(** Where its first character does not occur, a pattern replaces
    nothing. *)
Lemma replace_from_absent r tpl c :
  (forall pos s, head s <> Some c -> match_at r pos s = None) ->
  forall fuel pos s, c ∉ s -> replace_from fuel r tpl pos s = s.
Proof.
  intros Hr. induction fuel as [|f IH]; intros pos s Hs; simpl; [done|].
  rewrite Hr.
  - destruct s as [|x t]; [done|]. f_equal. apply IH.
    intros Hc. apply Hs. by right.
  - destruct s as [|x t]; [done|]. simpl. intros [= ->]. apply Hs. left.
Qed.

Lemma plain_absent s c :
  plain s -> mem [ch "["; ch "{"; ch "<"; ch "("] c = true -> c ∉ s.
Proof.
  unfold plain. rewrite Forall_forall. intros H Hc Hin.
  apply H in Hin. congruence.
Qed.

Lemma rstrip_id p : forall s,
  (forall c, last s = Some c -> p c = false) -> rstrip p s = s.
Proof.
  induction s as [|x t IH]; intros H; [done|].
  change (rstrip p (x :: t))
    with (if p x && forallb p t then [] else x :: rstrip p t).
  destruct t as [|y t'].
  - rewrite (H x eq_refl). done.
  - rewrite (IH H).
    assert (forallb p (y :: t') = false) as ->; [|by rewrite andb_false_r].
    specialize (IH H). cbn [rstrip] in IH. cbn [forallb].
    by destruct (p y && forallb p t').
Qed.

Lemma strip_id s : clean_ends s -> strip is_edge s = s.
Proof.
  intros H. unfold strip. rewrite drop_while_id.
  - apply rstrip_id. intros c Hc. apply H. by right.
  - destruct s as [|c t]; [done|]. apply H. by left.
Qed.

(** X12.  Text without markup is left as it is: when the text has none
    of the characters [[], [{], [<] and [(], and neither begins nor ends
    with white space or a hyphen, the cleaner returns it unchanged. *)
Theorem cleanWikiText_plain (text : str) :
  plain text -> clean_ends text -> cleanWikiText text = text.
Proof.
  intros Hp He. unfold cleanWikiText, replace_all.
  rewrite (replace_from_absent pipedLinkRe _ (ch "["));
    [| apply pipedLinkRe_first | by apply plain_absent].
  rewrite (replace_from_absent bareLinkRe _ (ch "["));
    [| apply bareLinkRe_first | by apply plain_absent].
  rewrite (replace_from_absent templateRe _ (ch "{"));
    [| apply templateRe_first | by apply plain_absent].
  rewrite (replace_from_absent tagRe _ (ch "<"));
    [| apply tagRe_first | by apply plain_absent].
  rewrite (replace_from_absent asideRe _ (ch "("));
    [| apply asideRe_first | by apply plain_absent].
  fold (replace_all edgeRe [] text).
  rewrite edge_replace, trim_strip. by apply strip_id.
Qed.

Lemma cleanWikiText_plain_witness :
  cleanWikiText (u "山田 太郎") = u "山田 太郎".
Proof.
  apply cleanWikiText_plain.
  - apply Forall_forall. intros c Hc. vm_compute in Hc.
    repeat (apply elem_of_cons in Hc as [-> | Hc]; [reflexivity|]).
    by apply elem_of_nil in Hc.
  - intros c [Hc | Hc]; vm_compute in Hc; injection Hc as <-; reflexivity.
Defined.

End PlainFacts.

(** ** The keys of the day *)
Module DateFacts.
Import Bot.

(** The key of a month and a day, over the days of the calendar. *)
Lemma date_keys_checked :
  forallb (fun m => forallb (fun d =>
    bool_decide
      (length (pad2 m ++ u "-" ++ pad2 d) = 5%nat /\
       take 2 (pad2 m ++ u "-" ++ pad2 d) = pad2 m /\
       drop 3 (pad2 m ++ u "-" ++ pad2 d) = pad2 d /\
       replace_first (Lit (ch "-")) [] (pad2 m ++ u "-" ++ pad2 d)
       = pad2 m ++ pad2 d /\
       Forall (fun c => is_digit c = true)
         (replace_first (Lit (ch "-")) [] (pad2 m ++ u "-" ++ pad2 d)) /\
       parseInt (pad2 m) = Num (Z.of_nat m) /\
       parseInt (pad2 d) = Num (Z.of_nat d)))
    (seq 1 31)) (seq 1 12) = true.
Proof. vm_compute. reflexivity. Qed.

(** X13.  The keys of the day.  For a month from 1 to 12 and a day from
    1 to 31, the date string of the anniversary page is five characters,
    the month and the day in two digits around a hyphen; the key of the
    flower source, made by removing the first hyphen, is exactly those
    four digits; and each pair of digits reads back as the month and the
    day. *)
Theorem date_keys (w : World) :
  (1 <= w_month w <= 12)%nat -> (1 <= w_day w <= 31)%nat ->
  length (getTodayDateString w) = 5%nat /\
  take 2 (getTodayDateString w) = pad2 (w_month w) /\
  drop 3 (getTodayDateString w) = pad2 (w_day w) /\
  flowerKey w = pad2 (w_month w) ++ pad2 (w_day w) /\
  Forall (fun c => is_digit c = true) (flowerKey w) /\
  parseInt (pad2 (w_month w)) = Num (Z.of_nat (w_month w)) /\
  parseInt (pad2 (w_day w)) = Num (Z.of_nat (w_day w)).
Proof.
  intros Hm Hd. pose proof date_keys_checked as H.
  rewrite forallb_forall in H. specialize (H (w_month w)).
  rewrite in_seq in H. specialize (H ltac:(lia)).
  rewrite forallb_forall in H. specialize (H (w_day w)).
  rewrite in_seq in H. specialize (H ltac:(lia)).
  apply bool_decide_eq_true in H. exact H.
Qed.

Lemma date_keys_witness :
  flowerKey world_fine = u "0810" /\ phpUrl world_fine
  = u "https://www.php.co.jp/fun/today/08-10.php".
Proof.
  destruct (date_keys world_fine) as (_ & _ & _ & H & _).
  - vm_compute. lia.
  - vm_compute. lia.
  - split; [rewrite H|]; vm_compute; reflexivity.
Defined.

End DateFacts.

(** ** The anniversaries *)
Module PhpFacts.
Import PhpParser RegexFacts YearFacts CleanerFacts DeathsFacts CleanerShape EdgeFacts.

#[local] Arguments rmatch : simpl never.

Lemma split_on_pieces c : forall s piece,
  piece ∈ split_on c s -> c ∉ piece.
Proof.
  induction s as [|x t IH]; intros piece H; simpl in H.
  - apply list_elem_of_singleton in H as ->. apply not_elem_of_nil.
  - destruct (N.eqb_spec x c) as [->|Hx].
    + apply elem_of_cons in H as [-> | H]; [apply not_elem_of_nil | by apply IH].
    + destruct (split_on c t) as [|l ls].
      * apply list_elem_of_singleton in H as ->.
        apply not_elem_of_cons. split; [congruence | apply not_elem_of_nil].
      * apply elem_of_cons in H as [-> | H].
        -- apply not_elem_of_cons. split; [congruence|]. apply IH. left.
        -- apply IH. by right.
Qed.

(** Removing the first match only deletes. *)
Lemma replace_first_sublist r s : replace_first r [] s `sublist_of` s.
Proof.
  unfold replace_first. destruct (search_from r 0 s) as [[i st]|] eqn:E; [|done].
  apply search_from_some in E as (t & Hm & pre & -> & Hi). simpl in *. subst i.
  apply match_at_span in Hm as (w & -> & _).
  rewrite take_app_length. apply sublist_app; [done|].
  by apply sublist_inserts_l.
Qed.

Lemma drop_while_snoc p x : forall l,
  drop_while p (l ++ [x])
  = if forallb p l then (if p x then [] else [x]) else drop_while p l ++ [x].
Proof.
  induction l as [|c l IH]; simpl; [done|].
  destruct (p c); simpl; [exact IH | done].
Qed.

Lemma forallb_rev p : forall l : str, forallb p (rev l) = forallb p l.
Proof.
  induction l as [|c l IH]; simpl; [done|].
  rewrite forallb_app, IH. simpl. rewrite andb_true_r. apply andb_comm.
Qed.

Lemma rstrip_all p s : forallb p s = true -> rstrip p s = [].
Proof. destruct s as [|c t]; simpl; [done|]. by intros ->. Qed.

(** Dropping from the reversed text is removing the run at the end. *)
Lemma rstrip_rev p : forall s, rev (drop_while p (rev s)) = rstrip p s.
Proof.
  induction s as [|x t IH]; [done|].
  change (rev (x :: t)) with (rev t ++ [x]).
  rewrite drop_while_snoc, forallb_rev. cbn [rstrip].
  destruct (forallb p t) eqn:Ht.
  - destruct (p x); simpl; [done|]. by rewrite rstrip_all.
  - rewrite andb_false_r, rev_app_distr. simpl. by rewrite IH.
Qed.

Lemma trim_strip_space s : trim s = strip is_space s.
Proof. unfold trim, strip. apply rstrip_rev. Qed.

Lemma trim_ends s c :
  head (trim s) = Some c \/ last (trim s) = Some c -> is_space c = false.
Proof.
  rewrite trim_strip_space. unfold strip. intros [H | H].
  - apply rstrip_head in H. by apply drop_while_head in H.
  - by apply rstrip_last in H.
Qed.

(** Without its first literal in the input, a pattern is not found. *)
Lemma search_from_absent l r : forall s pos,
  includes l s = false -> search_from (Seq (lit l) r) pos s = None.
Proof.
  induction s as [|x t IH]; intros pos H; simpl in H;
    apply orb_false_iff in H as [Hp Hi]; cbn [search_from]; unfold match_at;
    rewrite rmatch_seq, rmatch_lit_string, Hp; [done | by apply IH].
Qed.

Lemma itemRecord_item raw item :
  ch "," ∉ raw -> itemRecord raw = Some item ->
  (0 < length item < 100)%nat /\ (ch "," ∉ item) /\
  forall c, head item = Some c \/ last item = Some c -> is_space c = false.
Proof.
  unfold itemRecord. set (it := trim _). intros Hraw H.
  destruct (0 <? length it)%nat eqn:H0; [|done].
  destruct (length it <? 100)%nat eqn:H1; [|done].
  simpl in H. injection H as <-.
  apply Nat.ltb_lt in H0, H1. split; [lia|]. split.
  - intros Hin. apply Hraw.
    eapply elem_of_sublist; [exact Hin|].
    etrans; [apply trim_sublist | apply replace_first_sublist].
  - apply trim_ends.
Qed.

(** X14.  The anniversaries.  A page without the heading of the
    anniversaries gives no item.  Every item the parser returns is not
    empty, is shorter than 100 characters, holds no comma, and neither
    begins nor ends with white space. *)
Theorem php_items (date html : str) :
  (includes (u "記念日・行事・お祭り") html = false ->
   parsePhpTodayInfo date html = []) /\
  (forall item, item ∈ parsePhpTodayInfo date html ->
     (0 < length item < 100)%nat /\ (ch "," ∉ item) /\
     forall c, head item = Some c \/ last item = Some c -> is_space c = false).
Proof.
  unfold parsePhpTodayInfo. split.
  - intros H. unfold search.
    change eventsRegex with (Seq (lit (u "記念日・行事・お祭り"))
      (cat [Star false (Cls CAny); lit (u "●");
            Group 1 (Star false (Cls CAny));
            Ahead (Alt (lit (u "歴史上の出来事"))
                       (Alt (lit (u "今日の誕生日")) Eol))])).
    by rewrite search_from_absent.
  - intros item H. destruct (search eventsRegex html) as [m|]; [|by inversion H].
    apply list_elem_of_omap in H as (raw & Hraw & H).
    apply list_elem_of_In, filter_In in Hraw as [Hraw _].
    apply list_elem_of_In, split_on_pieces in Hraw.
    by apply (itemRecord_item raw).
Qed.

Lemma php_items_witness :
  (0 < length (u "帽子の日") < 100)%nat /\ (ch "," ∉ u "帽子の日").
Proof.
  destruct (php_items [] (u "<h2>記念日・行事・お祭り</h2><p>●帽子の日,●健康ハートの日</p><h2>歴史上の出来事</h2>"))
    as [_ H].
  destruct (H (u "帽子の日")) as (Hl & Hc & _).
  - vm_compute. left.
  - split; [exact Hl | exact Hc].
Defined.

End PhpFacts.

(** ** Markup in plain text *)
Module MarkupFacts.
Import Cleaner RegexFacts YearFacts CleanerFacts DeathsFacts SectionFacts
  EdgeFacts PlainFacts.

#[local] Arguments rmatch : simpl never.

Lemma replace_from_S f r tpl pos s :
  replace_from (S f) r tpl pos s
  = match match_at r pos s with
    | Some st =>
      if (pos <? m_pos st)%nat
      then expand tpl st ++ replace_from f r tpl (m_pos st) (m_rest st)
      else expand tpl st ++
           match s with
           | [] => []
           | c :: t => c :: replace_from f r tpl (S pos) t
           end
    | None =>
      match s with
      | [] => []
      | c :: t => c :: replace_from f r tpl (S pos) t
      end
    end.
Proof. reflexivity. Qed.

(** The replacement passes over text that cannot start a match. *)
Lemma replace_from_prefix r tpl c :
  (forall pos s, head s <> Some c -> match_at r pos s = None) ->
  forall a fuel pos s, c ∉ a ->
  replace_from (length a + fuel) r tpl pos (a ++ s)
  = a ++ replace_from fuel r tpl (pos + length a) s.
Proof.
  intros Hr. induction a as [|x a IH]; intros fuel pos s Ha.
  - simpl. by rewrite Nat.add_0_r.
  - change (length (x :: a) + fuel)%nat with (S (length a + fuel)).
    change ((x :: a) ++ s) with (x :: (a ++ s)).
    rewrite replace_from_S, Hr.
    + rewrite IH.
      * by replace (pos + length (x :: a))%nat with (S pos + length a)%nat
          by (simpl; lia).
      * intros Hin. apply Ha. by right.
    + simpl. intros [= ->]. apply Ha. left.
Qed.

(** One match in text that has no other. *)
Lemma replace_one r tpl c a t b st :
  (forall pos s, head s <> Some c -> match_at r pos s = None) ->
  c ∉ a -> c ∉ b ->
  match_at r (length a) t = Some st -> m_rest st = b ->
  (length a < m_pos st)%nat ->
  replace_all r tpl (a ++ t) = a ++ expand tpl st ++ b.
Proof.
  intros Hr Ha Hb Hm Hrest Hpos. unfold replace_all.
  replace (S (length (a ++ t))) with (length a + S (length t))%nat
    by (rewrite length_app; lia).
  rewrite (replace_from_prefix r tpl c Hr a); [|done].
  rewrite replace_from_S. cbn [Nat.add]. rewrite Hm.
  assert ((length a <? m_pos st)%nat = true) as -> by (by apply Nat.ltb_lt).
  rewrite Hrest. by rewrite (replace_from_absent r tpl c Hr).
Qed.

Lemma replace_all_absent r tpl c s :
  (forall pos s, head s <> Some c -> match_at r pos s = None) ->
  c ∉ s -> replace_all r tpl s = s.
Proof. intros Hr Hs. unfold replace_all. by apply (replace_from_absent r tpl c). Qed.

(** A run of a class, then something the class does not hold. *)
Lemma cls_plus cc k pos d ds tail caps fin :
  cls_mem cc d = true -> Forall (fun c => cls_mem cc c = true) ds ->
  match tail with [] => True | c :: _ => cls_mem cc c = false end ->
  k (MState (S (pos + length ds)) tail caps) = Some fin ->
  rmatch (plus true (Cls cc)) k (MState pos (d :: ds ++ tail) caps) = Some fin.
Proof.
  intros Hd Hds Htail Hk. unfold plus.
  rewrite rmatch_seq, rmatch_cls. unfold step; cbn [m_rest m_pos m_caps].
  rewrite Hd, rmatch_star_cls.
  apply greedy_cls_run; [done | | done].
  by replace (S pos + length ds)%nat with (S (pos + length ds)) by lia.
Qed.

Lemma cls_group i cc k pos d ds tail caps fin :
  cls_mem cc d = true -> Forall (fun c => cls_mem cc c = true) ds ->
  match tail with [] => True | c :: _ => cls_mem cc c = false end ->
  k (MState (S (pos + length ds)) tail ((i, d :: ds) :: caps)) = Some fin ->
  rmatch (Group i (plus true (Cls cc))) k (MState pos (d :: ds ++ tail) caps)
  = Some fin.
Proof.
  intros Hd Hds Htail Hk. rewrite rmatch_group.
  apply cls_plus; [done | done | done |].
  unfold set_cap; cbn [m_pos m_rest m_caps].
  replace (S (pos + length ds) - pos)%nat with (S (length ds)) by lia.
  cbn [take]. by rewrite take_app_length.
Qed.

Lemma none_of1 c l :
  c ∉ l -> Forall (fun x => cls_mem (CNoneOf [c]) x = true) l.
Proof.
  intros H. apply Forall_forall. intros x Hx.
  unfold cls_mem, mem; cbn [existsb]. rewrite orb_false_r.
  apply negb_true_iff, N.eqb_neq. intros ->. done.
Qed.

Lemma none_of2 c1 c2 l :
  c1 ∉ l -> c2 ∉ l -> Forall (fun x => cls_mem (CNoneOf [c1; c2]) x = true) l.
Proof.
  intros H1 H2. apply Forall_forall. intros x Hx.
  unfold cls_mem, mem; cbn [existsb]. rewrite orb_false_r.
  apply negb_true_iff, orb_false_iff.
  split; apply N.eqb_neq; intros ->; done.
Qed.

Lemma pipedLinkRe_eq :
  pipedLinkRe =
    Seq (lit (u "[["))
      (Seq (Group 1 (plus true (Cls (CNoneOf [ch "]"; ch "|"]))))
        (Seq (Lit (ch "|"))
          (Seq (Group 2 (plus true (Cls (CNoneOf [ch "]"]))))
            (Seq (lit (u "]]")) Eps)))).
Proof. reflexivity. Qed.

Lemma bareLinkRe_eq :
  bareLinkRe =
    Seq (lit (u "[["))
      (Seq (Group 1 (plus true (Cls (CNoneOf [ch "]"]))))
        (Seq (lit (u "]]")) Eps)).
Proof. reflexivity. Qed.

Lemma templateRe_eq :
  templateRe =
    Seq (lit (u "{{"))
      (Seq (plus true (Cls (CNoneOf [ch "}"]))) (Seq (lit (u "}}")) Eps)).
Proof. reflexivity. Qed.

(** A piped link is matched whole, and its second capture is the label. *)
Lemma pipedLinkRe_match pos l0 l d0 d b :
  ch "]" ∉ l0 :: l -> ch "|" ∉ l0 :: l -> ch "]" ∉ d0 :: d ->
  exists st,
    match_at pipedLinkRe pos
      (u "[[" ++ l0 :: l ++ ch "|" :: d0 :: d ++ u "]]" ++ b) = Some st /\
    m_rest st = b /\ (pos < m_pos st)%nat /\ group 2 st = d0 :: d.
Proof.
  intros Hl1 Hl2 Hd.
  pose proof (none_of2 _ _ _ Hl1 Hl2) as Fl. pose proof (none_of1 _ _ Hd) as Fd.
  apply Forall_cons in Fl as [Fl0 Fl]. apply Forall_cons in Fd as [Fd0 Fd].
  unfold match_at. rewrite pipedLinkRe_eq, rmatch_seq, rmatch_lit_app, rmatch_seq.
  eexists. split; [|split; [|split]].
  - apply cls_group; [done | done | reflexivity |].
    rewrite rmatch_seq, rmatch_lit. unfold step at 1; cbn [m_rest m_pos m_caps].
    rewrite N.eqb_refl. cbv iota. rewrite rmatch_seq.
    apply cls_group; [done | done | by vm_compute |].
    rewrite rmatch_seq, rmatch_lit_app, rmatch_eps. reflexivity.
  - reflexivity.
  - cbn [m_pos]. lia.
  - reflexivity.
Qed.

(** A link without a bar is matched whole, and its capture is the
    target. *)
Lemma bareLinkRe_match pos l0 l b :
  ch "]" ∉ l0 :: l ->
  exists st,
    match_at bareLinkRe pos (u "[[" ++ l0 :: l ++ u "]]" ++ b) = Some st /\
    m_rest st = b /\ (pos < m_pos st)%nat /\ group 1 st = l0 :: l.
Proof.
  intros Hl. pose proof (none_of1 _ _ Hl) as Fl.
  apply Forall_cons in Fl as [Fl0 Fl].
  unfold match_at. rewrite bareLinkRe_eq, rmatch_seq, rmatch_lit_app, rmatch_seq.
  eexists. split; [|split; [|split]].
  - apply cls_group; [done | done | by vm_compute |].
    rewrite rmatch_seq, rmatch_lit_app, rmatch_eps. reflexivity.
  - reflexivity.
  - cbn [m_pos]. lia.
  - reflexivity.
Qed.

Lemma templateRe_match pos x0 x b :
  ch "}" ∉ x0 :: x ->
  exists st,
    match_at templateRe pos (u "{{" ++ x0 :: x ++ u "}}" ++ b) = Some st /\
    m_rest st = b /\ (pos < m_pos st)%nat.
Proof.
  intros Hx. pose proof (none_of1 _ _ Hx) as Fx.
  apply Forall_cons in Fx as [Fx0 Fx].
  unfold match_at. rewrite templateRe_eq, rmatch_seq, rmatch_lit_app, rmatch_seq.
  eexists. split; [|split].
  - apply cls_plus; [done | done | by vm_compute |].
    rewrite rmatch_seq, rmatch_lit_app, rmatch_eps. reflexivity.
  - reflexivity.
  - cbn [m_pos]. lia.
Qed.

Lemma skip_to_app c b : forall x,
  c ∉ x -> skip_to c (x ++ c :: b) = Some (length x, b).
Proof.
  induction x as [|y x IH]; intros Hx; simpl.
  - by rewrite N.eqb_refl.
  - apply not_elem_of_cons in Hx as [Hy Hx].
    assert ((y =? c) = false) as -> by (apply N.eqb_neq; congruence).
    by rewrite IH.
Qed.

Lemma tagRe_match pos x0 x b :
  ch ">" ∉ x0 :: x ->
  exists st,
    match_at tagRe pos (ch "<" :: x0 :: x ++ ch ">" :: b) = Some st /\
    m_rest st = b /\ (pos < m_pos st)%nat.
Proof.
  intros Hx. apply not_elem_of_cons in Hx as [Hx0 Hx].
  rewrite tagRe_at, N.eqb_refl.
  assert ((x0 =? ch ">") = false) as -> by (apply N.eqb_neq; congruence).
  cbn [andb negb]. rewrite skip_to_app; [|done].
  eexists. split; [reflexivity|]. split; [reflexivity|]. cbn [m_pos]. lia.
Qed.

(** A run of a class before a continuation that wants a character the
    run and what follows it do not offer. *)
Lemma greedy_cls_fail p q k :
  (forall st, match m_rest st with c :: _ => q c = false | [] => True end ->
              k st = None) ->
  forall ds pos tail caps,
    Forall (fun c => q c = false) ds ->
    match tail with [] => True | c :: _ => p c = false /\ q c = false end ->
    greedy_cls p k pos (ds ++ tail) caps = None.
Proof.
  intros Hk. induction ds as [|d ds IH]; intros pos tail caps Hds Htail.
  - destruct tail as [|c t]; simpl; [by apply Hk|].
    destruct Htail as [-> Hq]. by apply Hk.
  - apply Forall_cons in Hds as [Hd Hds]. simpl.
    rewrite (Hk (MState pos (d :: ds ++ tail) caps)); [|done].
    destruct (p d); [|done]. by rewrite IH.
Qed.

(** The piped pattern does not match a link without a bar. *)
Lemma pipedLinkRe_no_bar pos l b :
  ch "|" ∉ l ->
  match_at pipedLinkRe pos (u "[[" ++ l ++ u "]]" ++ b) = None.
Proof.
  intros Hl. unfold match_at.
  rewrite pipedLinkRe_eq, rmatch_seq, rmatch_lit_app, rmatch_seq, rmatch_group.
  unfold plus. rewrite rmatch_seq, rmatch_cls.
  unfold step at 1; cbn [m_rest m_pos m_caps].
  destruct l as [|l0 l].
  - change ([] ++ u "]]" ++ b) with (ch "]" :: ch "]" :: b). done.
  - change ((l0 :: l) ++ u "]]" ++ b) with (l0 :: l ++ u "]]" ++ b).
    cbv beta iota.
    destruct (cls_mem (CNoneOf [ch "]"; ch "|"]) l0); [|done].
    rewrite rmatch_star_cls.
    apply (greedy_cls_fail _ (N.eqb (ch "|"))).
    + intros [p s caps] Hs. unfold set_cap; cbn [m_pos m_rest m_caps].
      rewrite rmatch_seq, rmatch_lit. unfold step; cbn [m_rest].
      cbn [m_rest] in Hs. destruct s as [|c s]; [done|]. by rewrite Hs.
    + apply not_elem_of_cons in Hl as [_ Hl].
      apply Forall_forall. intros c Hc. apply N.eqb_neq. intros <-. done.
    + by vm_compute.
Qed.

Lemma pipedLinkRe_second pos c t :
  c <> ch "[" -> match_at pipedLinkRe pos (ch "[" :: c :: t) = None.
Proof.
  intros Hc. unfold match_at.
  rewrite pipedLinkRe_eq, rmatch_seq, rmatch_lit_string.
  change (u "[[") with [ch "["; ch "["]. cbn [prefix_of].
  rewrite N.eqb_refl.
  assert ((ch "[" =? c) = false) as -> by (apply N.eqb_neq; congruence).
  done.
Qed.

(** The piped pass leaves a link without a bar alone. *)
Lemma piped_pass_bare a l0 l b :
  ch "[" ∉ a -> ch "[" ∉ l0 :: l -> ch "|" ∉ l0 :: l -> ch "[" ∉ b ->
  replace_all pipedLinkRe [RGroup 2] (a ++ u "[[" ++ l0 :: l ++ u "]]" ++ b)
  = a ++ u "[[" ++ l0 :: l ++ u "]]" ++ b.
Proof.
  intros Ha Hl Hbar Hb. unfold replace_all.
  replace (S (length (a ++ u "[[" ++ l0 :: l ++ u "]]" ++ b)))
    with (length a + S (length (u "[[" ++ l0 :: l ++ u "]]" ++ b)))%nat
    by (rewrite (length_app a); lia).
  rewrite (replace_from_prefix _ _ (ch "[") pipedLinkRe_first a); [|done].
  f_equal. rewrite replace_from_S.
  rewrite (pipedLinkRe_no_bar _ (l0 :: l) b Hbar).
  change (u "[[" ++ l0 :: l ++ u "]]" ++ b)
    with (ch "[" :: ch "[" :: l0 :: l ++ u "]]" ++ b).
  f_equal. cbn [length]. rewrite replace_from_S.
  apply not_elem_of_cons in Hl as [Hl0 Hl].
  rewrite pipedLinkRe_second; [|congruence].
  f_equal. apply (replace_from_absent _ _ (ch "[") pipedLinkRe_first).
  rewrite !not_elem_of_cons, not_elem_of_app.
  split; [done|]. split; [done|].
  change (u "]]" ++ b) with (ch "]" :: ch "]" :: b).
  rewrite !not_elem_of_cons. by repeat split.
Qed.

Lemma plain_app a b : plain a -> plain b -> plain (a ++ b).
Proof. intros Ha Hb. by apply Forall_app. Qed.

(** The passes after the links, on text without markup. *)
Lemma later_passes text :
  plain text -> clean_ends text ->
  trim (replace_all edgeRe []
         (replace_all asideRe []
           (replace_all tagRe [] (replace_all templateRe [] text)))) = text.
Proof.
  intros Hp He.
  rewrite (replace_all_absent templateRe _ (ch "{"));
    [| apply templateRe_first | by apply plain_absent].
  rewrite (replace_all_absent tagRe _ (ch "<"));
    [| apply tagRe_first | by apply plain_absent].
  rewrite (replace_all_absent asideRe _ (ch "("));
    [| apply asideRe_first | by apply plain_absent].
  rewrite edge_replace, trim_strip. by apply strip_id.
Qed.

Lemma plain_marks (s : str) :
  forallb (fun c => negb (mem [ch "["; ch "{"; ch "<"; ch "("] c)) s = true ->
  plain s.
Proof.
  induction s as [|c s IH]; simpl; intros H; [constructor|].
  apply andb_true_iff in H as [Hc Hs].
  constructor; [by apply negb_true_iff | by apply IH].
Qed.

Lemma absent_checked c (s : str) :
  forallb (fun x => negb (x =? c)) s = true -> c ∉ s.
Proof.
  induction s as [|x s IH]; simpl; intros H; [apply not_elem_of_nil|].
  apply andb_true_iff in H as [Hx Hs]. apply not_elem_of_cons.
  split; [|by apply IH]. apply negb_true_iff, N.eqb_neq in Hx. congruence.
Qed.

(** X15.  Markup in plain text.  Around a non-empty text [x] without
    markup, between texts [a] and [b] without markup, the cleaner does
    what its comments say: a piped link leaves its label, a link without
    a bar its target, and a template or a tag nothing; provided the
    result neither begins nor ends with white space or a hyphen. *)
Theorem cleanWikiText_markup (a x b : str) :
  plain a -> plain x -> plain b -> x <> [] ->
  (forall l, l <> [] -> ch "]" ∉ l -> ch "|" ∉ l -> ch "]" ∉ x ->
     clean_ends (a ++ x ++ b) ->
     cleanWikiText (a ++ u "[[" ++ l ++ u "|" ++ x ++ u "]]" ++ b)
     = a ++ x ++ b) /\
  (ch "]" ∉ x -> ch "|" ∉ x -> clean_ends (a ++ x ++ b) ->
     cleanWikiText (a ++ u "[[" ++ x ++ u "]]" ++ b) = a ++ x ++ b) /\
  (ch "}" ∉ x -> clean_ends (a ++ b) ->
     cleanWikiText (a ++ u "{{" ++ x ++ u "}}" ++ b) = a ++ b) /\
  (ch ">" ∉ x -> clean_ends (a ++ b) ->
     cleanWikiText (a ++ u "<" ++ x ++ u ">" ++ b) = a ++ b).
Proof.
  intros Ha Hx Hb Hne. destruct x as [|x0 x]; [done|].
  assert (forall s, plain s -> ch "[" ∉ s) as Hsq
    by (intros s Hs; by apply plain_absent).
  split; [|split; [|split]].
  - intros l Hl Hl1 Hl2 Hx1 He. destruct l as [|l0 l]; [done|].
    unfold cleanWikiText.
    change (u "[[" ++ (l0 :: l) ++ u "|" ++ (x0 :: x) ++ u "]]" ++ b)
      with (u "[[" ++ l0 :: l ++ ch "|" :: x0 :: x ++ u "]]" ++ b).
    destruct (pipedLinkRe_match (length a) l0 l x0 x b Hl1 Hl2 Hx1)
      as (st & Hm & Hr & Hp & Hg).
    rewrite (replace_one pipedLinkRe _ (ch "[") a _ b st
               pipedLinkRe_first (Hsq a Ha) (Hsq b Hb) Hm Hr Hp).
    cbn [expand flat_map]. rewrite Hg, app_nil_r.
    rewrite (replace_all_absent bareLinkRe _ (ch "["));
      [| apply bareLinkRe_first | apply Hsq; by repeat apply plain_app].
    apply later_passes; [by repeat apply plain_app | done].
  - intros Hx1 Hx2 He. unfold cleanWikiText.
    change (u "[[" ++ (x0 :: x) ++ u "]]" ++ b)
      with (u "[[" ++ x0 :: x ++ u "]]" ++ b).
    rewrite (piped_pass_bare a x0 x b (Hsq a Ha) (Hsq _ Hx) Hx2 (Hsq b Hb)).
    destruct (bareLinkRe_match (length a) x0 x b Hx1) as (st & Hm & Hr & Hp & Hg).
    rewrite (replace_one bareLinkRe _ (ch "[") a _ b st
               bareLinkRe_first (Hsq a Ha) (Hsq b Hb) Hm Hr Hp).
    cbn [expand flat_map]. rewrite Hg, app_nil_r.
    apply later_passes; [by repeat apply plain_app | done].
  - intros Hx1 He. unfold cleanWikiText.
    change (u "{{" ++ (x0 :: x) ++ u "}}" ++ b)
      with (u "{{" ++ x0 :: x ++ u "}}" ++ b).
    assert (ch "[" ∉ a ++ u "{{" ++ x0 :: x ++ u "}}" ++ b) as Hall.
    { change (u "{{" ++ x0 :: x ++ u "}}" ++ b)
        with (ch "{" :: ch "{" :: (x0 :: x) ++ ch "}" :: ch "}" :: b).
      rewrite not_elem_of_app, !not_elem_of_cons, not_elem_of_app,
        !not_elem_of_cons.
      pose proof (Hsq _ Hx) as Hx'. apply not_elem_of_cons in Hx' as [? ?].
      repeat split; try done; try (by apply Hsq); by vm_compute. }
    rewrite (replace_all_absent pipedLinkRe _ (ch "["));
      [| apply pipedLinkRe_first | done].
    rewrite (replace_all_absent bareLinkRe _ (ch "["));
      [| apply bareLinkRe_first | done].
    destruct (templateRe_match (length a) x0 x b Hx1) as (st & Hm & Hr & Hp).
    rewrite (replace_one templateRe _ (ch "{") a _ b st
               templateRe_first (plain_absent a (ch "{") Ha eq_refl)
               (plain_absent b (ch "{") Hb eq_refl) Hm Hr Hp).
    cbn [expand flat_map app].
    rewrite (replace_all_absent tagRe _ (ch "<"));
      [| apply tagRe_first | apply plain_absent; [by apply plain_app | done]].
    rewrite (replace_all_absent asideRe _ (ch "("));
      [| apply asideRe_first | apply plain_absent; [by apply plain_app | done]].
    rewrite edge_replace, trim_strip. by apply strip_id.
  - intros Hx1 He. unfold cleanWikiText.
    change (u "<" ++ (x0 :: x) ++ u ">" ++ b)
      with (ch "<" :: x0 :: x ++ ch ">" :: b).
    set (t := ch "<" :: x0 :: x ++ ch ">" :: b).
    assert ((ch "[" ∉ a ++ t) /\ (ch "{" ∉ a ++ t)) as [Hsqr Hcur].
    { unfold t.
      rewrite !not_elem_of_app, !not_elem_of_cons, !not_elem_of_app,
        !not_elem_of_cons.
      pose proof (plain_absent _ (ch "[") Hx eq_refl) as H1.
      pose proof (plain_absent _ (ch "{") Hx eq_refl) as H2.
      apply not_elem_of_cons in H1 as [? ?]. apply not_elem_of_cons in H2 as [? ?].
      repeat split; try done; try (by apply plain_absent); by vm_compute. }
    rewrite (replace_all_absent pipedLinkRe _ (ch "["));
      [| apply pipedLinkRe_first | done].
    rewrite (replace_all_absent bareLinkRe _ (ch "["));
      [| apply bareLinkRe_first | done].
    rewrite (replace_all_absent templateRe _ (ch "{"));
      [| apply templateRe_first | done].
    destruct (tagRe_match (length a) x0 x b Hx1) as (st & Hm & Hr & Hp).
    rewrite (replace_one tagRe _ (ch "<") a _ b st
               tagRe_first (plain_absent a (ch "<") Ha eq_refl)
               (plain_absent b (ch "<") Hb eq_refl) Hm Hr Hp).
    cbn [expand flat_map app].
    rewrite (replace_all_absent asideRe _ (ch "("));
      [| apply asideRe_first | apply plain_absent; [by apply plain_app | done]].
    rewrite edge_replace, trim_strip. by apply strip_id.
Qed.

Lemma cleanWikiText_markup_witness :
  cleanWikiText (u "作家の" ++ u "[[" ++ u "山田太郎" ++ u "]]" ++ u "が誕生")
  = u "作家の" ++ u "山田太郎" ++ u "が誕生" /\
  cleanWikiText (u "作家の" ++ u "{{" ++ u "山田太郎" ++ u "}}" ++ u "が誕生")
  = u "作家の" ++ u "が誕生".
Proof.
  destruct (cleanWikiText_markup (u "作家の") (u "山田太郎") (u "が誕生"))
    as (_ & Hbare & Htpl & _).
  - apply plain_marks. vm_compute. reflexivity.
  - apply plain_marks. vm_compute. reflexivity.
  - apply plain_marks. vm_compute. reflexivity.
  - vm_compute. discriminate.
  - split.
    + apply Hbare.
      * apply absent_checked. vm_compute. reflexivity.
      * apply absent_checked. vm_compute. reflexivity.
      * intros c [Hc | Hc]; vm_compute in Hc; injection Hc as <-; reflexivity.
    + apply Htpl.
      * apply absent_checked. vm_compute. reflexivity.
      * intros c [Hc | Hc]; vm_compute in Hc; injection Hc as <-; reflexivity.
Defined.

End MarkupFacts.

(** ** Where the anniversaries are read *)
Module PhpSectionFacts.
Import PhpParser RegexFacts YearFacts DeathsFacts SectionFacts.

#[local] Arguments rmatch : simpl never.

Lemma eventsRegex_eq :
  eventsRegex =
    Seq (lit (u "記念日・行事・お祭り"))
      (Seq (Star false (Cls CAny))
        (Seq (lit (u "●"))
          (Seq (Group 1 (Star false (Cls CAny)))
            (Seq (Ahead (Alt (lit (u "歴史上の出来事"))
                             (Alt (lit (u "今日の誕生日")) Eol))) Eps)))).
Proof. reflexivity. Qed.

Lemma phpAhead_at k pos s caps :
  rmatch (Ahead (Alt (lit (u "歴史上の出来事"))
                     (Alt (lit (u "今日の誕生日")) Eol))) k (MState pos s caps)
  = if php_ends s then k (MState pos s caps) else None.
Proof.
  change (rmatch (Ahead ?r) k ?st)
    with (match rmatch r Some st with
          | Some st' => k (MState (m_pos st) (m_rest st) (m_caps st'))
          | None => None
          end).
  cbn [m_pos m_rest].
  rewrite rmatch_alt, rmatch_lit_string, rmatch_alt, rmatch_lit_string.
  unfold php_ends.
  destruct (prefix_of (u "歴史上の出来事") s); [done|].
  destruct (prefix_of (u "今日の誕生日") s); [done|].
  by destruct s.
Qed.

(** The items: the lazy capture and the lookahead. *)
Lemma items_body pos s caps m :
  rmatch (Seq (Group 1 (Star false (Cls CAny)))
            (Seq (Ahead (Alt (lit (u "歴史上の出来事"))
                             (Alt (lit (u "今日の誕生日")) Eol))) Eps))
         Some (MState pos s caps) = Some m ->
  exists n, (n <= length s)%nat /\ group 1 m = take n s /\
    php_ends (drop n s) = true /\
    forall j, (j < n)%nat -> php_ends (drop j s) = false.
Proof.
  intros H. rewrite rmatch_seq, rmatch_group, rmatch_star_cls_lazy in H.
  apply lazy_cls_first in H as (n & Hn & Hk & Hmin).
  exists n. split; [done|].
  cbn [m_pos m_rest] in Hk. rewrite rmatch_seq in Hk.
  unfold set_cap in Hk; cbn [m_pos m_rest m_caps] in Hk.
  rewrite phpAhead_at in Hk.
  destruct (php_ends (drop n s)) eqn:En; [|done].
  rewrite rmatch_eps in Hk. injection Hk as <-.
  split; [|split; [done|]].
  - unfold group, cap; simpl. by replace (pos + n - pos)%nat with n by lia.
  - intros j Hj. specialize (Hmin j Hj). cbn [m_pos m_rest] in Hmin.
    rewrite rmatch_seq in Hmin.
    unfold set_cap in Hmin; cbn [m_pos m_rest m_caps] in Hmin.
    rewrite phpAhead_at in Hmin.
    destruct (php_ends (drop j s)); [|done].
    by rewrite rmatch_eps in Hmin.
Qed.

(** After a bullet the rest of the pattern always matches. *)
Lemma items_total pos s caps :
  rmatch (Seq (Group 1 (Star false (Cls CAny)))
            (Seq (Ahead (Alt (lit (u "歴史上の出来事"))
                             (Alt (lit (u "今日の誕生日")) Eol))) Eps))
         Some (MState pos s caps) <> None.
Proof.
  rewrite rmatch_seq, rmatch_group, rmatch_star_cls_lazy.
  apply lazy_any_total. cbn [m_pos m_rest].
  rewrite rmatch_seq. unfold set_cap; cbn [m_pos m_rest m_caps].
  rewrite phpAhead_at. done.
Qed.

Lemma bullet_text : u "●" = [black_circle].
Proof. reflexivity. Qed.

(** One attempt of the bullet. *)
Lemma bullet_at k pos s caps :
  rmatch (lit (u "●")) k (MState pos s caps)
  = match s with
    | c :: t => if black_circle =? c then k (MState (S pos) t caps) else None
    | [] => None
    end.
Proof.
  rewrite bullet_text. change (lit [black_circle]) with (Seq (Lit black_circle) Eps).
  rewrite rmatch_seq, rmatch_lit. unfold step; cbn [m_rest m_pos m_caps].
  destruct s as [|c t]; [done|]. by rewrite rmatch_eps.
Qed.

(** After the heading: the first bullet, then the items. *)
Lemma after_heading pos1 t1 m :
  rmatch (Seq (Star false (Cls CAny))
           (Seq (lit (u "●"))
             (Seq (Group 1 (Star false (Cls CAny)))
               (Seq (Ahead (Alt (lit (u "歴史上の出来事"))
                                (Alt (lit (u "今日の誕生日")) Eol))) Eps))))
    Some (MState pos1 t1 []) = Some m ->
  exists mid rest,
    t1 = mid ++ black_circle :: group 1 m ++ rest /\
    (black_circle ∉ mid) /\
    php_ends rest = true /\
    (forall j, (j < length (group 1 m))%nat ->
       php_ends (drop j (group 1 m ++ rest)) = false).
Proof.
  intros H.
  rewrite rmatch_seq, rmatch_star_cls_lazy in H.
  apply lazy_cls_first in H as (n & Hn & Hk & Hmin).
  rewrite rmatch_seq, bullet_at in Hk.
  destruct (drop n t1) as [|c t2] eqn:Hb; [done|].
  destruct (N.eqb_spec black_circle c) as [<-|]; [|done].
  apply items_body in Hk as (n2 & Hn2 & Hg & He & Hmin2).
  exists (take n t1), (drop n2 t2).
  split; [|split; [|split]].
  - rewrite <- (take_drop n t1) at 1.
    f_equal. rewrite Hb, Hg. f_equal. by rewrite take_drop.
  - intros Hin. apply list_elem_of_lookup in Hin as (j & Hj).
    apply lookup_take_Some in Hj as [Hj Hlt].
    specialize (Hmin j Hlt). rewrite rmatch_seq, bullet_at in Hmin.
    rewrite <- (take_drop j t1) in Hj. rewrite lookup_app_r in Hj
      by (rewrite length_take; lia).
    rewrite length_take in Hj.
    replace (j - j `min` length t1)%nat with 0%nat in Hj by lia.
    destruct (drop j t1) as [|c r]; [done|]. injection Hj as ->.
    rewrite N.eqb_refl in Hmin. by apply items_total in Hmin.
  - done.
  - intros j Hj. rewrite Hg, take_drop. apply Hmin2.
    rewrite Hg, length_take in Hj. lia.
Qed.

Lemma lit_prefix l k pos t m :
  rmatch (lit l) k (MState pos t []) = Some m ->
  exists t1, t = l ++ t1 /\ k (MState (pos + length l) t1 []) = Some m.
Proof.
  intros H. rewrite rmatch_lit_string in H.
  destruct (prefix_of l t) eqn:Hp; [|done].
  apply prefix_of_app in Hp. eauto.
Qed.

(** A heading before which the rest of the pattern can match is not
    preceded by another. *)
Lemma heading_is_first h r pre mid tl j :
  (j < length pre)%nat ->
  (forall pos caps, rmatch r Some (MState pos tl caps) <> None) ->
  rmatch (lit h) (rmatch (Seq (Star false (Cls CAny)) r) Some)
    (MState j (drop j (pre ++ h ++ mid ++ tl)) []) = None ->
  prefix_of h (drop j (pre ++ h ++ mid ++ tl)) = false.
Proof.
  intros Hj Hk H. rewrite rmatch_lit_string in H.
  destruct (prefix_of h _) eqn:Hp; [|done]. exfalso. revert H.
  rewrite rmatch_seq, rmatch_star_cls_lazy.
  apply (lazy_any_reach _ _ _ _ (length pre + length mid - j)).
  - rewrite !length_drop, !length_app. lia.
  - rewrite !drop_drop.
    replace (pre ++ h ++ mid ++ tl) with ((pre ++ h ++ mid) ++ tl)
      by (by rewrite <- !app_assoc).
    rewrite drop_app_length'; [apply Hk|]. rewrite !length_app. lia.
Qed.

(** X16.  Where the anniversaries are read.  When the page has them,
    the text the items are split from begins after the first bullet that
    follows the first occurrence of the heading 記念日・行事・お祭り, and
    runs to the first place where 歴史上の出来事 or 今日の誕生日 begins,
    or to the end of the page. *)
Theorem anniversaries_extent (html : str) (m : mstate) :
  search eventsRegex html = Some m ->
  exists pre mid rest,
    html = pre ++ u "記念日・行事・お祭り" ++ mid ++ u "●" ++ group 1 m ++ rest /\
    (forall j, (j < length pre)%nat ->
       prefix_of (u "記念日・行事・お祭り") (drop j html) = false) /\
    (black_circle ∉ mid) /\
    php_ends rest = true /\
    (forall j, (j < length (group 1 m))%nat ->
       php_ends (drop j (group 1 m ++ rest)) = false).
Proof.
  intros H. apply search_first in H as (pre & t & -> & H & Hfirst).
  rewrite match_at_eq, eventsRegex_eq, rmatch_seq in H.
  apply lit_prefix in H as (t1 & Hp & H).
  apply after_heading in H as (mid & rest & Ht & Hmid & He & Hmin).
  exists pre, mid, rest. rewrite Hp, Ht in Hfirst |- *.
  split; [by rewrite bullet_text|]. split; [|by repeat split].
  intros j Hj. specialize (Hfirst j Hj).
  rewrite match_at_eq, eventsRegex_eq, rmatch_seq in Hfirst.
  apply (heading_is_first _ _ _ _ _ _ Hj) in Hfirst; [done|].
  intros pos caps. rewrite rmatch_seq, bullet_at, N.eqb_refl.
  apply items_total.
Qed.

Lemma anniversaries_extent_witness :
  exists m pre mid rest,
    search eventsRegex
      (u "<h2>記念日・行事・お祭り</h2><p>●帽子の日,●健康ハートの日</p><h2>歴史上の出来事</h2>")
    = Some m /\
    u "<h2>記念日・行事・お祭り</h2><p>●帽子の日,●健康ハートの日</p><h2>歴史上の出来事</h2>"
    = pre ++ u "記念日・行事・お祭り" ++ mid ++ u "●" ++ group 1 m ++ rest /\
    php_ends rest = true.
Proof.
  destruct (search eventsRegex
    (u "<h2>記念日・行事・お祭り</h2><p>●帽子の日,●健康ハートの日</p><h2>歴史上の出来事</h2>"))
    as [m|] eqn:E.
  - destruct (anniversaries_extent _ m E)
      as (pre & mid & rest & Hc & _ & _ & He & _).
    exists m, pre, mid, rest.
    split; [reflexivity|]. split; [exact Hc | exact He].
  - vm_compute in E. discriminate.
Defined.

End PhpSectionFacts.
